(** * Search result model: path trie, text search headings, search result

    A shallow embedding of [PathTrie] (vs/base/common/pathTrie.ts), of
    [TextSearchHeadingImpl] / [PlainTextSearchHeadingImpl]
    (searchTreeModel/textSearchHeading.ts) and of [SearchResultImpl]
    (searchTreeModel/searchResult.ts), with the properties of the
    specification stated and proved over the embedding.  The sticky and
    unsticky views of an editor group (filteredEditorGroupModel.ts) and
    the static helpers of notebook sticky scroll are embedded as well;
    further properties of all of them follow those of the
    specification. *)

From stdpp Require Import gmap strings list fin_maps.
From Stdlib Require Import Ascii.

(* stdpp's solvers clear hypotheses that may be gone already. *)
Set Warnings "-clear-no-such-hyp".

Local Open Scope string_scope.
Local Open Scope list_scope.
Local Open Scope nat_scope.

(** Objects live in stores; a location is an index into a store. *)
Abbreviation loc := nat.

(** ** PathTrie

    The source builds the trie out of heap allocated [PathTrieNode]
    objects that point to their parent ([prev]) and to their children
    ([next], a [Map] from segment to node).  The embedding keeps the
    objects in a store: a location is an index into the list of all nodes
    allocated so far, [new PathTrieNode()] appends to that list.  A [next]
    map is a [gmap]: the order of insertion of a [Map] is observed by
    [visitAll] only, which [PathVisit] embeds, with [findSuperstr], over
    an enumeration order that is a parameter. *)
Module PathTrie.

(** [/[\\/]/] : the two separator characters of [toSegments]. *)
Definition isSeparator (c : ascii) : bool :=
  (Ascii.eqb c "/"%char || Ascii.eqb c (ascii_of_nat 92))%bool.

(** [String.prototype.split] for a separator that matches one character:
    the pieces between separators, empty pieces included.  The result is
    never empty, so the first branch of the inner [match] is not taken. *)
Fixpoint split (path : string) : list string :=
  match path with
  | EmptyString => [EmptyString]
  | String c rest =>
      if isSeparator c then EmptyString :: split rest
      else match split rest with
           | [] => [String c EmptyString]
           | piece :: pieces => String c piece :: pieces
           end
  end.

(** [path.split(/[\\/]/).filter(path => !!path)] : the empty string is the
    only falsy string. *)
Definition toSegments (path : string) : list string :=
  filter (λ piece, piece ≠ EmptyString) (split path).

Section Trie.

Context {T : Type}.
(** JavaScript's [ToBoolean] on payloads, as used by [if (cur.data)]. *)
Variable truthy : T → bool.

Record PathTrieNode := mkNode {
  prev : option loc;
  next : option (gmap string loc);
  data : option T
}.

(** The trie is the store of its nodes; [root] is allocated first. *)
Record PathTrie := mkTrie { nodes : list PathTrieNode }.

Definition root : loc := 0.

(** [new PathTrie()] *)
Definition empty : PathTrie := mkTrie [mkNode None None None].

(** [cur.prev] and [cur.data] of the node at a location. *)
Definition prevOf (h : list PathTrieNode) (cur : loc) : option loc := h !! cur ≫= prev.
Definition dataOf (h : list PathTrieNode) (cur : loc) : option T := h !! cur ≫= data.
Definition nextOf (h : list PathTrieNode) (cur : loc) : option (gmap string loc) := h !! cur ≫= next.

(** [cur.next?.get(segment)] *)
Definition child (h : list PathTrieNode) (cur : loc) (segment : string) : option loc :=
  m ← nextOf h cur; m !! segment.

Definition withNext (m : gmap string loc) (n : PathTrieNode) : PathTrieNode :=
  mkNode (prev n) (Some m) (data n).

Definition withData (d : T) (n : PathTrieNode) : PathTrieNode :=
  mkNode (prev n) (next n) (Some d).

(** [if (!cur.next) { cur.next = new Map() }; cur.next.set(segment, child)] *)
Definition addChild (segment : string) (c : loc) (n : PathTrieNode) : PathTrieNode :=
  withNext (<[segment := c]> (default ∅ (next n))) n.

(** [child = new PathTrieNode<T>(); child.prev = cur; ...; cur.next.set(segment, child)] :
    the new node gets the next free location. *)
Definition newChild (h : list PathTrieNode) (cur : loc) (segment : string) : list PathTrieNode :=
  alter (addChild segment (length h)) cur (h ++ [mkNode (Some cur) None None]).

(** The loop of [ensureNode], started at [cur]. *)
Fixpoint ensureFrom (h : list PathTrieNode) (cur : loc) (segments : list string)
  : list PathTrieNode * loc :=
  match segments with
  | [] => (h, cur)
  | segment :: rest =>
      match child h cur segment with
      | Some c => ensureFrom h c rest
      | None =>
          ensureFrom (newChild h cur segment) (length h) rest
      end
  end.

Definition ensureNode (t : PathTrie) (path : string) : list PathTrieNode * loc :=
  ensureFrom (nodes t) root (toSegments path).

Definition set (t : PathTrie) (path : string) (d : T) : PathTrie :=
  let '(h, cur) := ensureNode t path in
  mkTrie (alter (withData d) cur h).

(** The loop shared by [findNode], [delete], [findSubstr]. *)
Fixpoint findFrom (h : list PathTrieNode) (cur : loc) (segments : list string) : option loc :=
  match segments with
  | [] => Some cur
  | segment :: rest =>
      match child h cur segment with
      | None => None
      | Some c => findFrom h c rest
      end
  end.

Definition findNode (t : PathTrie) (path : string) : option loc :=
  findFrom (nodes t) root (toSegments path).

(** [this.findNode(path)?.data] *)
Definition get (t : PathTrie) (path : string) : option T :=
  cur ← findNode t path; dataOf (nodes t) cur.

(** [Map.prototype.delete(segments[segments.length - 1])]; with no last
    segment the key is [undefined], which no entry has. *)
Definition deleteKey (key : option string) (m : gmap string loc) : gmap string loc :=
  match key with
  | Some segment => base.delete segment m
  | None => m
  end.

(** [cur.prev?.next?.delete(segments[segments.length - 1])] *)
Definition delete (t : PathTrie) (path : string) : PathTrie :=
  let segments := toSegments path in
  let h := nodes t in
  match findFrom h root segments with
  | None => t
  | Some cur =>
      match prevOf h cur with
      | None => t
      | Some p =>
          match nextOf h p with
          | None => t
          | Some m => mkTrie (alter (withNext (deleteKey (last segments) m)) p h)
          end
      end
  end.

(** [if (cur.data) { yield cur.data }] *)
Definition yieldData (h : list PathTrieNode) (cur : loc) : list T :=
  match dataOf h cur with
  | Some d => if truthy d then [d] else []
  | None => []
  end.

(** The values the generator [findSubstr] yields, in the order it yields
    them. *)
Fixpoint findSubstrFrom (h : list PathTrieNode) (cur : loc) (segments : list string) : list T :=
  match segments with
  | [] => []
  | segment :: rest =>
      match child h cur segment with
      | None => []
      | Some c => yieldData h c ++ findSubstrFrom h c rest
      end
  end.

Definition findSubstr (t : PathTrie) (path : string) : list T :=
  findSubstrFrom (nodes t) root (toSegments path).

(** Every trie a client can hold is [new PathTrie()] followed by calls of
    the two mutating methods. *)
Inductive op := Set_ (path : string) (d : T) | Delete_ (path : string).

Definition apply (t : PathTrie) (o : op) : PathTrie :=
  match o with
  | Set_ path d => set t path d
  | Delete_ path => delete t path
  end.

Definition run (ops : list op) : PathTrie := foldl apply empty ops.

(** *** Shape of the store and derived notions *)

(** The shape invariant of the node store: the root has no parent, every
    edge of a [next] map leads to a node whose [prev] is the edge's source,
    and one map never holds the same node under two segments. *)
Record wf (h : list PathTrieNode) : Prop := {
  wf_root_alloc : root < length h;
  wf_root_prev : prevOf h root = None;
  wf_edge : ∀ p s c, child h p s = Some c → prevOf h c = Some p;
  wf_label : ∀ p s s' c, child h p s = Some c → child h p s' = Some c → s = s'
}.

(** [ensureNode] only allocates: it keeps every edge and every payload, and
    every edge it adds leads to a node allocated by it. *)
Record extends (h h' : list PathTrieNode) : Prop := {
  ext_length : length h ≤ length h';
  ext_data : ∀ c, dataOf h' c = dataOf h c;
  ext_child : ∀ p s c, child h p s = Some c → child h' p s = Some c;
  ext_new : ∀ p s c, child h' p s = Some c → child h p s = Some c ∨ length h ≤ c
}.

(** [get] in terms of the segments of the path. *)
Definition getAt (h : list PathTrieNode) (segments : list string) : option T :=
  findFrom h root segments ≫= dataOf h.

(** The payload at the end of a walk from [cur]. *)
Definition getAtFrom (h : list PathTrieNode) (cur : loc) (segments : list string) : option T :=
  findFrom h cur segments ≫= dataOf h.

(** The segment sequences of the nodes below the root on the way to
    [segments], nearest to the root first. *)
Definition nonEmptyPrefixes (segments : list string) : list (list string) :=
  (λ k, take k segments) <$> seq 1 (length segments).

(** The payload [findSubstr] yields at a node, if any. *)
Definition yielded (d : T) : option T := if truthy d then Some d else None.

End Trie.

(** *** Sample data *)

(** [ToBoolean] on numbers. *)
Definition nonZero (n : nat) : bool := negb (n =? 0).

Definition sampleTrie : PathTrie :=
  run [Set_ "/Users/name/Desktop/test-ts/package.json" 1;
       Set_ "/Users/name/Desktop/test-ts" 2;
       Set_ "/Users/name/Desktop" 3;
       Set_ "/Users/name" 4].

End PathTrie.

(** ** The search result tree

    [TextSearchHeadingImpl], [PlainTextSearchHeadingImpl] and
    [SearchResultImpl].  Folder matches are objects shared between the
    headings, the closures the headings keep and the callers, so they live
    in a store; headings refer to them by location. *)
Module Search.

(** A URI is represented by the segments of its path. *)
Abbreviation URI := (list string).

Definition uriToString (resource : URI) : string :=
  String.concat "/" ("file:/" :: resource).

(** [IFileMatch] / [IFileInstanceMatch]: a file and what was found in it. *)
Record IFileMatch := mkFile {
  resource : URI;
  results : list nat
}.

Global Instance IFileMatch_eq_dec : EqDecision IFileMatch.
Proof. solve_decision. Defined.

(** [ITextQuery], as far as the headings read it. *)
Record ITextQuery := mkQuery {
  folderQueries : list URI;
  contentPattern : string
}.

(** Modelled from the spec: the category id of a heading (plain vs. AI), for
    the constants [PLAIN_TEXT_SEARCH__RESULT_ID] and
    [AI_TEXT_SEARCH_RESULT_ID] of searchTreeCommon. *)
Inductive HeadingId := PLAIN_TEXT_SEARCH__RESULT_ID | AI_TEXT_SEARCH_RESULT_ID.

Global Instance HeadingId_eq_dec : EqDecision HeadingId.
Proof. solve_decision. Defined.

(** *** Association lists in insertion order

    Both [ResourceMap] and the URI keyed tree are used as maps from URI
    whose [set] keeps the position of a key that is present. *)
Section AList.
Context {V : Type}.

Fixpoint alist_get (k : URI) (m : list (URI * V)) : option V :=
  match m with
  | [] => None
  | (k', v) :: rest => if decide (k' = k) then Some v else alist_get k rest
  end.

Fixpoint alist_set (k : URI) (v : V) (m : list (URI * V)) : list (URI * V) :=
  match m with
  | [] => [(k, v)]
  | (k', v') :: rest =>
      if decide (k' = k) then (k, v) :: rest else (k', v') :: alist_set k v rest
  end.

End AList.

(** Modelled from the spec: the URI keyed prefix tree of a heading
    ([TernarySearchTree.forUris]): [findSubstr] returns the value stored
    under the longest key that is a prefix, segment by segment, of the URI
    looked up. *)
Fixpoint isPrefix (key uri : URI) : bool :=
  match key, uri with
  | [], _ => true
  | k :: key', u :: uri' => bool_decide (k = u) && isPrefix key' uri'
  | _ :: _, [] => false
  end.

Definition longer {V} (best : option (URI * V)) (entry : URI * V) : option (URI * V) :=
  match best with
  | Some (k, _) => if decide (length k < length (fst entry)) then Some entry else best
  | None => Some entry
  end.

Definition findSubstr {V} (m : list (URI * V)) (uri : URI) : option V :=
  snd <$> foldl (λ best entry, if isPrefix (fst entry) uri then longer best entry else best) None m.

(** Modelled from the spec: a folder match (folderMatch.ts), which owns the
    file matches under one folder root, or under no root for the
    "other files" bucket.  The two counters record the [clear()] and
    [dispose()] calls the object received. *)
Record FolderMatch := mkFolder {
  fm_resource : option URI;
  fm_id : string;
  fm_index : nat;
  fm_query : ITextQuery;
  fm_parent : HeadingId;
  fileMatches : list IFileMatch;
  replacingAll : bool;
  clearCalls : nat;
  disposeCalls : nat
}.

Definition withFiles (files : list IFileMatch) (fm : FolderMatch) : FolderMatch :=
  mkFolder (fm_resource fm) (fm_id fm) (fm_index fm) (fm_query fm) (fm_parent fm)
    files (replacingAll fm) (clearCalls fm) (disposeCalls fm).

(** Modelled from the spec: [addFileMatch] creates the file match of a raw
    match or merges the raw match into the one the folder has for that
    URI. *)
Fixpoint mergeFile (raw : IFileMatch) (files : list IFileMatch) : list IFileMatch :=
  match files with
  | [] => [raw]
  | f :: rest =>
      if decide (resource f = resource raw)
      then mkFile (resource f) (results f ++ results raw) :: rest
      else f :: mergeFile raw rest
  end.

Definition addFileMatch (raw : list IFileMatch) (fm : FolderMatch) : FolderMatch :=
  withFiles (foldl (λ files r, mergeFile r files) (fileMatches fm) raw) fm.

(** Modelled from the spec: [remove(matches)] detaches the given file
    matches. *)
Definition removeFiles (matches : list IFileMatch) (fm : FolderMatch) : FolderMatch :=
  withFiles (filter (λ f, resource f ∉ resource <$> matches) (fileMatches fm)) fm.

(** Modelled from the spec: [clear()] removes all owned file matches. *)
Definition clearFolder (fm : FolderMatch) : FolderMatch :=
  mkFolder (fm_resource fm) (fm_id fm) (fm_index fm) (fm_query fm) (fm_parent fm)
    [] (replacingAll fm) (S (clearCalls fm)) (disposeCalls fm).

Definition disposeFolder (fm : FolderMatch) : FolderMatch :=
  mkFolder (fm_resource fm) (fm_id fm) (fm_index fm) (fm_query fm) (fm_parent fm)
    (fileMatches fm) (replacingAll fm) (clearCalls fm) (S (disposeCalls fm)).

Definition setReplacingAll (running : bool) (fm : FolderMatch) : FolderMatch :=
  mkFolder (fm_resource fm) (fm_id fm) (fm_index fm) (fm_query fm) (fm_parent fm)
    (fileMatches fm) running (clearCalls fm) (disposeCalls fm).

(** [targets.forEach(m => m.method())] on the objects of the store. *)
Definition forEach (f : FolderMatch → FolderMatch) (targets : list loc)
    (σ : list FolderMatch) : list FolderMatch :=
  foldl (λ σ l, alter f l σ) σ targets.

(** *** TextSearchHeadingImpl *)

(** [disposePastResults] is the list of folder matches its closure has
    captured, empty for the initial [() => Promise.resolve()];
    [highlightRange] is what [_rangeHighlightDecorations] shows.  The dirty
    flag, [_showHighlights] and the change events the folder matches send
    are left out. *)
Record TextSearchHeading := mkHeading {
  _allowOtherResults : bool;
  _id : HeadingId;
  _query : option ITextQuery;
  _folderMatches : list loc;
  _otherFilesMatch : option loc;
  _folderMatchesMap : list (URI * loc);
  disposePastResults : list loc;
  hidden : bool;
  cachedSearchComplete : option nat;
  highlightRange : option (URI * nat)
}.

(** The constructor. *)
Definition newHeading (allowOtherResults : bool) (id : HeadingId) : TextSearchHeading :=
  mkHeading allowOtherResults id None [] None [] [] false None None.

Definition isAIContributed (h : TextSearchHeading) : bool :=
  bool_decide (_id h = AI_TEXT_SEARCH_RESULT_ID).

(** The getter [query]. *)
Definition query (h : TextSearchHeading) : option ITextQuery := _query h.

Definition folderMatches (h : TextSearchHeading) : list loc :=
  match _otherFilesMatch h with
  | Some other => if _allowOtherResults h then _folderMatches h ++ [other] else _folderMatches h
  | None => _folderMatches h
  end.

Definition getFolderMatch (h : TextSearchHeading) (uri : URI) : option loc :=
  match findSubstr (_folderMatchesMap h) uri with
  | Some folderMatch => Some folderMatch
  | None => if _allowOtherResults h then _otherFilesMatch h else None
  end.

(** [rawPerFolder.get(resource)!.push(rawFileMatch)]: without a bucket the
    source throws, which is [None] here, as is reading a location the
    store does not have. *)
Definition groupStep (σ : list FolderMatch) (h : TextSearchHeading)
    (acc : option (list (URI * list IFileMatch) * list IFileMatch)) (rawFileMatch : IFileMatch)
  : option (list (URI * list IFileMatch) * list IFileMatch) :=
  '(rawPerFolder, otherFileMatches) ← acc;
  match getFolderMatch h (resource rawFileMatch) with
  | None => Some (rawPerFolder, otherFileMatches)
  | Some l =>
      folderMatch ← σ !! l;
      match fm_resource folderMatch with
      | Some r =>
          bucket ← alist_get r rawPerFolder;
          Some (alist_set r (bucket ++ [rawFileMatch]) rawPerFolder, otherFileMatches)
      | None => Some (rawPerFolder, otherFileMatches ++ [rawFileMatch])
      end
  end.

(** [this._folderMatches.forEach(fm => rawPerFolder.set(fm.resource, []))] *)
Definition emptyBuckets (σ : list FolderMatch) (h : TextSearchHeading)
  : option (list (URI * list IFileMatch)) :=
  foldl (λ acc l, rawPerFolder ← acc; fm ← σ !! l; r ← fm_resource fm;
                  Some (alist_set r [] rawPerFolder))
        (Some []) (_folderMatches h).

Definition groupFilesByFolder (σ : list FolderMatch) (h : TextSearchHeading)
    (fileMatches : list IFileMatch)
  : option (list (URI * list IFileMatch) * list IFileMatch) :=
  rawPerFolder ← emptyBuckets σ h;
  foldl (groupStep σ h) (Some (rawPerFolder, [])) fileMatches.

(** Calling the closure [disposePastResults]. *)
Definition runDisposePastResults (h : TextSearchHeading) (σ : list FolderMatch) : list FolderMatch :=
  forEach disposeFolder (disposePastResults h) (forEach clearFolder (disposePastResults h) σ).

(** [byFolder.forEach(raw => { if (!raw.length) return;
      this.getFolderMatch(raw[0].resource)?.method(raw) })] *)
Definition perFolder (method : list IFileMatch → FolderMatch → FolderMatch)
    (h : TextSearchHeading) (byFolder : list (URI * list IFileMatch))
    (σ : list FolderMatch) : list FolderMatch :=
  foldl (λ σ entry,
           match snd entry with
           | [] => σ
           | first :: _ =>
               match getFolderMatch h (resource first) with
               | Some l => alter (method (snd entry)) l σ
               | None => σ
               end
           end) σ byFolder.

Definition add (σ : list FolderMatch) (h : TextSearchHeading) (allRaw : list IFileMatch)
    (searchInstanceID : string) (ai silent : bool) : option (list FolderMatch * TextSearchHeading) :=
  '(byFolder, other) ← groupFilesByFolder σ h allRaw;
  let σ1 := perFolder addFileMatch h byFolder σ in
  let σ2 := if ai then σ1
            else match _otherFilesMatch h with
                 | Some l => alter (addFileMatch other) l σ1
                 | None => σ1
                 end in
  Some (runDisposePastResults h σ2, h).

(** What [remove] accepts: file matches and folder matches. *)
Inductive Removable := RFolder (l : loc) | RFile (f : IFileMatch).

Definition folderOf (m : Removable) : option loc :=
  match m with RFolder l => Some l | RFile _ => None end.

Definition fileOf (m : Removable) : option IFileMatch :=
  match m with RFile f => Some f | RFolder _ => None end.

Definition remove (σ : list FolderMatch) (h : TextSearchHeading) (matches : list Removable)
    (ai : bool) : option (list FolderMatch * TextSearchHeading) :=
  let σ1 := forEach clearFolder (omap folderOf matches) σ in
  '(byFolder, other) ← groupFilesByFolder σ1 h (omap fileOf matches);
  let σ2 := perFolder removeFiles h byFolder σ1 in
  let σ3 := match other with
            | [] => σ2
            | first :: _ =>
                match getFolderMatch h (resource first) with
                | Some l => alter (removeFiles other) l σ2
                | None => σ2
                end
            end in
  Some (σ3, h).

Definition createBaseFolderMatch (resource : option URI) (id : string) (index : nat)
    (query : ITextQuery) (parent : HeadingId) : FolderMatch :=
  mkFolder resource id index query parent [] false 0 0.

(** The setter [query]. *)
Definition setQuery (σ : list FolderMatch) (h : TextSearchHeading) (query : option ITextQuery)
  : list FolderMatch * TextSearchHeading :=
  let oldFolderMatches := folderMatches h in
  match query with
  | None =>
      (σ, mkHeading (_allowOtherResults h) (_id h) (_query h) (_folderMatches h)
            (_otherFilesMatch h) [] oldFolderMatches (hidden h) None None)
  | Some q =>
      let roots := folderQueries q in
      let created := imap (λ index root,
                             createBaseFolderMatch (Some root) (uriToString root) index q (_id h))
                          roots in
      let newFolderMatches := seq (length σ) (length roots) in
      let σ1 := σ ++ created in
      let map := foldl (λ m entry, alist_set (fst entry) (snd entry) m) []
                       (zip roots newFolderMatches) in
      if _allowOtherResults h then
        (σ1 ++ [createBaseFolderMatch None "otherFiles" (length newFolderMatches + 1) q (_id h)],
         mkHeading (_allowOtherResults h) (_id h) (Some q) newFolderMatches
           (Some (length σ1)) map oldFolderMatches (hidden h) None None)
      else
        (σ1, mkHeading (_allowOtherResults h) (_id h) (Some q) newFolderMatches
               (_otherFilesMatch h) map oldFolderMatches (hidden h) None None)
  end.

Definition disposeMatches (σ : list FolderMatch) (h : TextSearchHeading)
  : list FolderMatch * TextSearchHeading :=
  (forEach disposeFolder (folderMatches h) σ,
   mkHeading (_allowOtherResults h) (_id h) (_query h) [] (_otherFilesMatch h) []
     (disposePastResults h) (hidden h) (cachedSearchComplete h) None).

Definition clear (σ : list FolderMatch) (h : TextSearchHeading)
  : list FolderMatch * TextSearchHeading :=
  let '(σ1, h1) := disposeMatches (forEach clearFolder (folderMatches h) σ) h in
  (σ1, mkHeading (_allowOtherResults h1) (_id h1) (_query h1) [] None (_folderMatchesMap h1)
         (disposePastResults h1) (hidden h1) None (highlightRange h1)).

Definition hide (σ : list FolderMatch) (h : TextSearchHeading)
  : list FolderMatch * TextSearchHeading :=
  clear σ (mkHeading (_allowOtherResults h) (_id h) (_query h) (_folderMatches h)
             (_otherFilesMatch h) (_folderMatchesMap h) (disposePastResults h) true
             (cachedSearchComplete h) (highlightRange h)).

(** [dispose]; the disposables registered with the base class are outside
    the embedding. *)
Definition dispose (σ : list FolderMatch) (h : TextSearchHeading)
  : list FolderMatch * TextSearchHeading :=
  let '(σ1, h1) := disposeMatches σ h in
  (runDisposePastResults h1 σ1, h1).

(** [allDownstreamFileMatches()] of the folder match at a location. *)
Definition filesAt (σ : list FolderMatch) (l : loc) : list IFileMatch :=
  default [] (fileMatches <$> σ !! l).

Definition matches (σ : list FolderMatch) (h : TextSearchHeading) : list IFileMatch :=
  mjoin (filesAt σ <$> folderMatches h).

(** [rangeHighlightDecorations.highlightRange(resource, range)], which the
    heading hands out through its getter. *)
Definition highlight (h : TextSearchHeading) (resource : URI) (range : nat) : TextSearchHeading :=
  mkHeading (_allowOtherResults h) (_id h) (_query h) (_folderMatches h) (_otherFilesMatch h)
    (_folderMatchesMap h) (disposePastResults h) (hidden h) (cachedSearchComplete h)
    (Some (resource, range)).

Definition setCachedSearchComplete (h : TextSearchHeading) (c : option nat) : TextSearchHeading :=
  mkHeading (_allowOtherResults h) (_id h) (_query h) (_folderMatches h) (_otherFilesMatch h)
    (_folderMatchesMap h) (disposePastResults h) (hidden h) c (highlightRange h).

Definition setHidden (h : TextSearchHeading) (b : bool) : TextSearchHeading :=
  mkHeading (_allowOtherResults h) (_id h) (_query h) (_folderMatches h) (_otherFilesMatch h)
    (_folderMatchesMap h) (disposePastResults h) b (cachedSearchComplete h) (highlightRange h).

(** *** PlainTextSearchHeadingImpl *)

(** How the promise of the replace collaborator settles. *)
Inductive Settled := Resolved | Rejected.

(** The private setter [replacingAll]. *)
Definition setReplacingAllOf (h : TextSearchHeading) (running : bool) (σ : list FolderMatch)
  : list FolderMatch :=
  forEach (setReplacingAll running) (folderMatches h) σ.

(** [replaceAll], first part: up to the call of the collaborator, whose
    argument [this.matches()] is returned. *)
Definition replaceAllBegin (σ : list FolderMatch) (h : TextSearchHeading)
  : list FolderMatch * list IFileMatch :=
  let σ1 := setReplacingAllOf h true σ in
  (σ1, matches σ1 h).

(** [replaceAll], second part: the two callbacks of [promise.then]. *)
Definition replaceAllSettle (σ : list FolderMatch) (h : TextSearchHeading) (outcome : Settled)
  : list FolderMatch * TextSearchHeading :=
  match outcome with
  | Resolved => clear (setReplacingAllOf h false σ) h
  | Rejected => (setReplacingAllOf h false σ, h)
  end.

Definition replaceAll (σ : list FolderMatch) (h : TextSearchHeading) (outcome : Settled)
  : list FolderMatch * TextSearchHeading * list IFileMatch :=
  let '(σ1, replaced) := replaceAllBegin σ h in
  (replaceAllSettle σ1 h outcome, replaced).

(** *** SearchResultImpl *)

(** Modelled from the spec: the pause-aware change emitter
    ([PauseableEmitter]) is a two-state object, draining or buffering.  No
    event is sent inside the embedding, so the state is all there is. *)
Record PauseableEmitter := mkEmitter { isPaused : bool }.

Definition pause (e : PauseableEmitter) : PauseableEmitter := mkEmitter true.
Definition resume (e : PauseableEmitter) : PauseableEmitter := mkEmitter false.

Record SearchResult := mkResult {
  folders : list FolderMatch;
  _plainTextSearchResult : TextSearchHeading;
  _aiTextSearchResult : TextSearchHeading;
  _onChange : PauseableEmitter
}.

(** The constructor: both headings allow other results. *)
Definition newSearchResult : SearchResult :=
  mkResult [] (newHeading true PLAIN_TEXT_SEARCH__RESULT_ID)
    (newHeading true AI_TEXT_SEARCH_RESULT_ID) (mkEmitter false).

(** The methods of [SearchResultImpl] that share their name with a method
    of the headings carry the suffix [Result] here. *)

(** The getters [plainTextSearchResult] and [aiTextSearchResult]. *)
Definition heading (sr : SearchResult) (id : HeadingId) : TextSearchHeading :=
  match id with
  | PLAIN_TEXT_SEARCH__RESULT_ID => _plainTextSearchResult sr
  | AI_TEXT_SEARCH_RESULT_ID => _aiTextSearchResult sr
  end.

(** Writing back what a method of one heading did to the store and to the
    heading. *)
Definition update (sr : SearchResult) (id : HeadingId)
    (r : list FolderMatch * TextSearchHeading) : SearchResult :=
  match id with
  | PLAIN_TEXT_SEARCH__RESULT_ID => mkResult (fst r) (snd r) (_aiTextSearchResult sr) (_onChange sr)
  | AI_TEXT_SEARCH_RESULT_ID => mkResult (fst r) (_plainTextSearchResult sr) (snd r) (_onChange sr)
  end.

(** The getter [textSearchResults]. *)
Definition textSearchResults : list HeadingId :=
  [PLAIN_TEXT_SEARCH__RESULT_ID; AI_TEXT_SEARCH_RESULT_ID].

(** [folderMatches(ai)] *)
Definition folderMatchesOf (sr : SearchResult) (ai : bool) : list loc :=
  if ai then folderMatches (_aiTextSearchResult sr)
  else folderMatches (_plainTextSearchResult sr).

(** The setter [query]: the plain-text heading first. *)
Definition setQueryResult (sr : SearchResult) (query : option ITextQuery) : SearchResult :=
  let sr1 := update sr PLAIN_TEXT_SEARCH__RESULT_ID
               (setQuery (folders sr) (_plainTextSearchResult sr) query) in
  update sr1 AI_TEXT_SEARCH_RESULT_ID (setQuery (folders sr1) (_aiTextSearchResult sr1) query).

(** [add]: both headings are shown again, one of them gets the results. *)
Definition addResult (sr : SearchResult) (allRaw : list IFileMatch) (searchInstanceID : string)
    (ai silent : bool) : option SearchResult :=
  let sr1 := mkResult (folders sr) (setHidden (_plainTextSearchResult sr) false)
               (setHidden (_aiTextSearchResult sr) false) (_onChange sr) in
  if ai then
    update sr1 AI_TEXT_SEARCH_RESULT_ID
      <$> add (folders sr1) (_aiTextSearchResult sr1) allRaw searchInstanceID ai silent
  else
    update sr1 PLAIN_TEXT_SEARCH__RESULT_ID
      <$> add (folders sr1) (_plainTextSearchResult sr1) allRaw searchInstanceID ai silent.

(** [clear]: the AI heading first. *)
Definition clearResult (sr : SearchResult) : SearchResult :=
  let sr1 := update sr AI_TEXT_SEARCH_RESULT_ID (clear (folders sr) (_aiTextSearchResult sr)) in
  update sr1 PLAIN_TEXT_SEARCH__RESULT_ID (clear (folders sr1) (_plainTextSearchResult sr1)).

(** [remove]: the call on the plain heading is not in an [else]. *)
Definition removeResult (sr : SearchResult) (matches : list Removable) (ai : bool)
  : option SearchResult :=
  sr1 ← (if ai then
           update sr AI_TEXT_SEARCH_RESULT_ID
             <$> remove (folders sr) (_aiTextSearchResult sr) matches ai
         else Some sr);
  update sr1 PLAIN_TEXT_SEARCH__RESULT_ID
    <$> remove (folders sr1) (_plainTextSearchResult sr1) matches ai.

(** [replaceAll] *)
Definition replaceAllResult (sr : SearchResult) (outcome : Settled)
  : SearchResult * list IFileMatch :=
  let '(r, replaced) := replaceAll (folders sr) (_plainTextSearchResult sr) outcome in
  (update sr PLAIN_TEXT_SEARCH__RESULT_ID r, replaced).

(** [matches(ai?)] *)
Definition matchesOf (sr : SearchResult) (ai : option bool) : list IFileMatch :=
  match ai with
  | None => matches (folders sr) (_plainTextSearchResult sr)
              ++ matches (folders sr) (_aiTextSearchResult sr)
  | Some true => matches (folders sr) (_aiTextSearchResult sr)
  | Some false => matches (folders sr) (_plainTextSearchResult sr)
  end.

(** [RenderableMatch]: what the tree shows and [batchRemove] receives; a
    match of a file, a file of a folder match, a folder match, a heading. *)
Inductive RenderableMatch :=
| ElemHeading (id : HeadingId)
| ElemFolder (l : loc)
| ElemFile (l : loc) (f : IFileMatch)
| ElemMatch (l : loc) (f : IFileMatch) (m : nat).

Global Instance RenderableMatch_eq_dec : EqDecision RenderableMatch.
Proof. solve_decision. Defined.

(** [element.parent()], [None] when the parent is the search result. *)
Definition parent (σ : list FolderMatch) (element : RenderableMatch) : option RenderableMatch :=
  match element with
  | ElemHeading _ => None
  | ElemFolder l => ElemHeading <$> (fm_parent <$> σ !! l)
  | ElemFile l f => Some (ElemFolder l)
  | ElemMatch l f m => Some (ElemFile l f)
  end.

(** Modelled from the spec: [arrayContainsElementOrParent] of
    searchTreeCommon, the ancestor-deduplication rule: the array holds the
    element or one of its ancestors. *)
Fixpoint containsElementOrParent (depth : nat) (σ : list FolderMatch)
    (element : RenderableMatch) (testArray : list RenderableMatch) : bool :=
  bool_decide (element ∈ testArray) ||
  match depth with
  | 0 => false
  | S depth' =>
      match parent σ element with
      | Some p => containsElementOrParent depth' σ p testArray
      | None => false
      end
  end.

(** A match has three ancestors below the search result. *)
Definition arrayContainsElementOrParent (σ : list FolderMatch) (element : RenderableMatch)
    (testArray : list RenderableMatch) : bool :=
  containsElementOrParent 3 σ element testArray.

(** The type guards of searchTreeCommon, on the constructors of
    [RenderableMatch]. *)
Definition isTextSearchHeading (element : RenderableMatch) : bool :=
  match element with ElemHeading _ => true | _ => false end.

Definition isFolderMatch (element : RenderableMatch) : bool :=
  match element with ElemFolder _ => true | _ => false end.

Definition isFolderMatchWithResource (σ : list FolderMatch) (element : RenderableMatch) : bool :=
  match element with
  | ElemFolder l => bool_decide (is_Some (σ !! l ≫= fm_resource))
  | _ => false
  end.

(** The body of the [forEach] of [batchRemove]; the call that would remove
    [currentElement] from its parent is commented out in the source. *)
Definition batchRemoveStep (acc : SearchResult * list RenderableMatch)
    (currentElement : RenderableMatch) : SearchResult * list RenderableMatch :=
  let '(sr, removedElems) := acc in
  if arrayContainsElementOrParent (folders sr) currentElement removedElems then acc
  else
    match currentElement with
    | ElemHeading id => (update sr id (hide (folders sr) (heading sr id)), removedElems)
    | _ =>
        if negb (isFolderMatch currentElement) || isFolderMatchWithResource (folders sr) currentElement
        then (sr, removedElems ++ [currentElement])
        else acc
    end.

Definition withEmitter (e : PauseableEmitter) (sr : SearchResult) : SearchResult :=
  mkResult (folders sr) (_plainTextSearchResult sr) (_aiTextSearchResult sr) e.

Definition batchRemove (sr : SearchResult) (elementsToRemove : list RenderableMatch) : SearchResult :=
  let sr1 := withEmitter (pause (_onChange sr)) sr in
  let '(sr2, _) := foldl batchRemoveStep (sr1, []) elementsToRemove in
  withEmitter (resume (_onChange sr2)) sr2.

(** [dispose] of the search result, as far as the headings go. *)
Definition disposeResult (sr : SearchResult) : SearchResult :=
  let sr1 := update sr AI_TEXT_SEARCH_RESULT_ID (dispose (folders sr) (_aiTextSearchResult sr)) in
  update sr1 PLAIN_TEXT_SEARCH__RESULT_ID (dispose (folders sr1) (_plainTextSearchResult sr1)).

(** *** The states a client can reach

    The methods of the search result, those of its two headings, which
    the getters [plainTextSearchResult] and [aiTextSearchResult] hand
    out, and those of the folder matches, which [folderMatches()] hands
    out. *)
Inductive folderOp :=
| FAddFileMatch (raw : list IFileMatch)
| FRemove (matches : list IFileMatch)
| FClear
| FDispose
| FSetReplacingAll (running : bool).

Definition folderStep (o : folderOp) : FolderMatch → FolderMatch :=
  match o with
  | FAddFileMatch raw => addFileMatch raw
  | FRemove ms => removeFiles ms
  | FClear => clearFolder
  | FDispose => disposeFolder
  | FSetReplacingAll running => setReplacingAll running
  end.

Inductive headingOp :=
| HSetQuery (query : option ITextQuery)
| HAdd (allRaw : list IFileMatch) (searchInstanceID : string) (ai silent : bool)
| HRemove (matches : list Removable) (ai : bool)
| HClear
| HHide
| HHighlight (resource : URI) (range : nat)
| HSetCachedSearchComplete (c : option nat)
| HSetHidden (b : bool)
| HDispose.

Definition headingStep (σ : list FolderMatch) (h : TextSearchHeading) (o : headingOp)
  : option (list FolderMatch * TextSearchHeading) :=
  match o with
  | HSetQuery q => Some (setQuery σ h q)
  | HAdd allRaw searchInstanceID ai silent => add σ h allRaw searchInstanceID ai silent
  | HRemove ms ai => remove σ h ms ai
  | HClear => Some (clear σ h)
  | HHide => Some (hide σ h)
  | HHighlight resource range => Some (σ, highlight h resource range)
  | HSetCachedSearchComplete c => Some (σ, setCachedSearchComplete h c)
  | HSetHidden b => Some (σ, setHidden h b)
  | HDispose => Some (dispose σ h)
  end.

Inductive op :=
| OnFolder (l : loc) (o : folderOp)
| OnHeading (id : HeadingId) (o : headingOp)
| SetQuery (query : option ITextQuery)
| Add (allRaw : list IFileMatch) (searchInstanceID : string) (ai silent : bool)
| Remove (matches : list Removable) (ai : bool)
| Clear
| BatchRemove (elementsToRemove : list RenderableMatch)
| ReplaceAll (outcome : Settled)
| Dispose.

Definition withFolders (σ : list FolderMatch) (sr : SearchResult) : SearchResult :=
  mkResult σ (_plainTextSearchResult sr) (_aiTextSearchResult sr) (_onChange sr).

Definition step (sr : SearchResult) (o : op) : option SearchResult :=
  match o with
  | OnFolder l o => Some (withFolders (alter (folderStep o) l (folders sr)) sr)
  | OnHeading id o => update sr id <$> headingStep (folders sr) (heading sr id) o
  | SetQuery q => Some (setQueryResult sr q)
  | Add allRaw searchInstanceID ai silent => addResult sr allRaw searchInstanceID ai silent
  | Remove ms ai => removeResult sr ms ai
  | Clear => Some (clearResult sr)
  | BatchRemove elems => Some (batchRemove sr elems)
  | ReplaceAll outcome => Some (fst (replaceAllResult sr outcome))
  | Dispose => Some (disposeResult sr)
  end.

(** [None] when a call throws. *)
Definition run (ops : list op) : option SearchResult :=
  foldl (λ acc o, sr ← acc; step sr o) (Some newSearchResult) ops.

(** *** Invariants of the store and of a heading *)

(** The root a folder match was created for, [Some None] for an
    "other files" bucket, [None] where the store has no object. *)
Definition resourceAt (σ : list FolderMatch) (l : loc) : option (option URI) :=
  fm_resource <$> σ !! l.

(** The store only grows, and a folder match keeps its root. *)
Definition evolves (σ σ' : list FolderMatch) : Prop :=
  ∀ l, l < length σ → resourceAt σ' l = resourceAt σ l.

(** A method of a folder match that leaves its root alone. *)
Definition keepsResource (f : FolderMatch → FolderMatch) : Prop :=
  ∀ fm, fm_resource (f fm) = fm_resource fm.

Record hinv (σ : list FolderMatch) (h : TextSearchHeading) : Prop := {
  inv_roots : ∀ l, l ∈ _folderMatches h → ∃ r, resourceAt σ l = Some (Some r);
  inv_other : ∀ o, _otherFilesMatch h = Some o → resourceAt σ o = Some None;
  inv_map : ∀ k l, (k, l) ∈ _folderMatchesMap h →
              l ∈ _folderMatches h ∧ resourceAt σ l = Some (Some k);
  inv_nodup : NoDup (_folderMatches h);
  inv_keys : NoDup (fst <$> _folderMatchesMap h)
}.

Definition sinv (sr : SearchResult) : Prop :=
  hinv (folders sr) (_plainTextSearchResult sr) ∧ hinv (folders sr) (_aiTextSearchResult sr).

(** What the constructor of the search result fixes for its headings. *)
Definition fixed (sr : SearchResult) : Prop :=
  ∀ id, _allowOtherResults (heading sr id) = true ∧ _id (heading sr id) = id.

(** The roots of the folder matches of a heading. *)
Definition rootsOf (σ : list FolderMatch) (h : TextSearchHeading) (r : URI) : Prop :=
  ∃ l, l ∈ _folderMatches h ∧ resourceAt σ l = Some (Some r).

(** How many times a location occurs among the targets of a [forEach]. *)
Definition occurrences (l : loc) (targets : list loc) : nat :=
  length (filter (λ t, t = l) targets).

(** Where [groupFilesByFolder] puts a file match: [None] for a lookup miss,
    [Some None] for the "other" list, [Some (Some r)] for the bucket of the
    root [r]. *)
Definition classify (σ : list FolderMatch) (h : TextSearchHeading) (f : IFileMatch)
  : option (option URI) :=
  getFolderMatch h (resource f) ≫= resourceAt σ.

(** What the folder match at a location holds. *)
Definition clearCallsAt (σ : list FolderMatch) (l : loc) : nat :=
  default 0 (clearCalls <$> σ !! l).
Definition disposeCallsAt (σ : list FolderMatch) (l : loc) : nat :=
  default 0 (disposeCalls <$> σ !! l).
Definition replacingAllAt (σ : list FolderMatch) (l : loc) : option bool :=
  replacingAll <$> σ !! l.

(** A sequence of calls on one heading. *)
Definition runHeading (σ : list FolderMatch) (h : TextSearchHeading) (os : list headingOp)
  : option (list FolderMatch * TextSearchHeading) :=
  foldl (λ acc o, r ← acc; headingStep r.1 r.2 o) (Some (σ, h)) os.

(** The calls that neither set a non-null query nor clear the heading;
    [hide] and [dispose] clear it too. *)
Definition quiet (o : headingOp) : bool :=
  match o with
  | HSetQuery (Some _) | HClear | HHide | HDispose => false
  | _ => true
  end.

Definition addOp (args : list IFileMatch * string * bool * bool) : headingOp :=
  match args with (allRaw, searchInstanceID, ai, silent) => HAdd allRaw searchInstanceID ai silent end.

(** *** Sample data *)

Definition sampleQuery : ITextQuery :=
  mkQuery [["workspace"; "app"]; ["workspace"; "lib"]] "TODO".
Definition nextQuery : ITextQuery := mkQuery [["workspace"; "docs"]] "FIXME".
Definition appFile : IFileMatch := mkFile ["workspace"; "app"; "main.ts"] [1; 2].
Definition libFile : IFileMatch := mkFile ["workspace"; "lib"; "util.ts"] [3].
Definition strayFile : IFileMatch := mkFile ["tmp"; "notes.txt"] [4].

(** A query over two roots, plain results for three files. *)
Definition sampleOps : list op :=
  [SetQuery (Some sampleQuery); Add [appFile; libFile; strayFile] "search-1" false false].

(** The state after [sampleOps]: the plain-text heading has the folder
    matches 0 and 1 and the bucket 2, the AI heading 3, 4 and 5. *)
Definition sampleResult : SearchResult := default newSearchResult (run sampleOps).

(** A second query, then results twice. *)
Definition teardownOps : list op :=
  sampleOps ++ [SetQuery (Some nextQuery); Add [] "search-2" false false;
                Add [] "search-2" false false].

End Search.

(** ** Path strings

    Predicates on path strings, for the properties of [toSegments]. *)
Module PathText.
Import PathTrie.

(** Whether one of the separator characters occurs in a string. *)
Fixpoint hasSeparator (s : string) : bool :=
  match s with
  | EmptyString => false
  | String c rest => isSeparator c || hasSeparator rest
  end.

(** Strings made of separator characters only, the empty string
    included. *)
Fixpoint onlySeparators (s : string) : bool :=
  match s with
  | EmptyString => true
  | String c rest => isSeparator c && onlySeparators rest
  end.

(** Paths that agree character by character, except that one may have a
    slash where the other has a backslash. *)
Fixpoint sameUpToSeparator (p q : string) : bool :=
  match p, q with
  | EmptyString, EmptyString => true
  | String c p', String d q' =>
      (Ascii.eqb c d || (isSeparator c && isSeparator d)) && sameUpToSeparator p' q'
  | _, _ => false
  end.

End PathText.

(** ** PathTrie: [findSuperstr] and [visitAll] *)
Module PathVisit.
Import PathTrie.

Section Visit.

Context {T : Type}.
Variable truthy : T → bool.
(** [node.next.values()] : a [Map] enumerates its values in the order in
    which the keys were first inserted, which the [gmap] of the store does
    not record.  The enumeration is a parameter: [values cur m] lists the
    nodes of the map [m] of the node at [cur] in some order. *)
Variable values : loc → gmap string loc → list loc.

(** [if (node.next) { for (const child of node.next.values()) ... }] *)
Definition childrenOf (h : list (@PathTrieNode T)) (cur : loc) : list loc :=
  match nextOf h cur with
  | Some m => values cur m
  | None => []
  end.

(** The values the generator [visitAll] yields, in the order it yields
    them.  The recursion follows the edges of the store; [fuel] bounds its
    depth. *)
Fixpoint visitAll (fuel : nat) (h : list (@PathTrieNode T)) (node : loc) : list T :=
  match fuel with
  | 0 => []
  | S fuel' =>
      yieldData truthy h node ++ flat_map (visitAll fuel' h) (childrenOf h node)
  end.

(** [findSuperstr]: the walk, then [findNode] once more on the same path,
    then [visitAll] from the node the walk ended at.  Edges lead to nodes
    allocated later, so no chain of edges is longer than the store. *)
Definition findSuperstr (t : PathTrie) (path : string) : list T :=
  match findFrom (nodes t) root (toSegments path) with
  | None => []
  | Some cur =>
      match findNode t path with
      | Some _ => visitAll (length (nodes t)) (nodes t) cur
      | None => []
      end
  end.

(** Edges lead from a node to a node allocated after it. *)
Definition forward (h : list (@PathTrieNode T)) : Prop :=
  ∀ p (s : string) c, child h p s = Some c → p < c.

(** [values] lists the nodes of a map, each once. *)
Definition enumerates : Prop :=
  ∀ cur m, values cur m ≡ₚ (map_to_list m).*2.

End Visit.

(** The enumeration in the order of the [gmap]. *)
Definition byKey (cur : loc) (m : gmap string loc) : list loc := (map_to_list m).*2.

End PathVisit.

(** ** The search result tree: counting, cached completion, ownership *)
Module SearchCounts.
Import Search.

Definition matchCount (f : IFileMatch) : nat := length (results f).



Definition count (σ : list FolderMatch) (h : TextSearchHeading) : nat :=
  foldl (λ prev m, prev + matchCount m) 0 (matches σ h).




(** [setCachedSearchComplete] and [getCachedSearchComplete] of the search
    result. *)
Definition setCachedSearchCompleteResult (sr : SearchResult) (c : option nat) (ai : bool)
  : SearchResult :=
  if ai then
    mkResult (folders sr) (_plainTextSearchResult sr)
      (setCachedSearchComplete (_aiTextSearchResult sr) c) (_onChange sr)
  else
    mkResult (folders sr) (setCachedSearchComplete (_plainTextSearchResult sr) c)
      (_aiTextSearchResult sr) (_onChange sr).

Definition getCachedSearchComplete (sr : SearchResult) (ai : bool) : option nat :=
  if ai then cachedSearchComplete (_aiTextSearchResult sr)
  else cachedSearchComplete (_plainTextSearchResult sr).

(** *** Notions for the properties *)

(** [removedElems] of [batchRemove] holds no heading. *)
Definition noHeadings (removedElems : list RenderableMatch) : Prop :=
  ∀ e, e ∈ removedElems → isTextSearchHeading e = false.

(** A heading that was hidden, and has been empty since. *)
Definition hiddenAway (sr : SearchResult) (id : HeadingId) : Prop :=
  hidden (heading sr id) = true ∧ folderMatches (heading sr id) = [].

(** The folder matches [setQuery] creates for a query: one for each folder
    query, then the one for other files. *)
Definition createdFor (h : TextSearchHeading) (q : ITextQuery) : list FolderMatch :=
  imap (λ index root, createBaseFolderMatch (Some root) (uriToString root) index q (_id h))
       (folderQueries q)
  ++ [createBaseFolderMatch None "otherFiles" (length (folderQueries q) + 1) q (_id h)].

(** [folderMatch.parent()] of the object at a location. *)
Definition parentAt (σ : list FolderMatch) (l : loc) : option HeadingId :=
  fm_parent <$> σ !! l.

(** The folder matches a heading refers to: its list, its bucket for other
    files, the values of its URI tree and what its closure has captured. *)
Definition held (h : TextSearchHeading) : list loc :=
  _folderMatches h ++ option_list (_otherFilesMatch h)
    ++ (snd <$> _folderMatchesMap h) ++ disposePastResults h.

(** A heading refers to folder matches it created only. *)
Definition owns (σ : list FolderMatch) (h : TextSearchHeading) : Prop :=
  ∀ l, l ∈ held h → parentAt σ l = Some (_id h).

Definition sowns (sr : SearchResult) : Prop :=
  ∀ id, owns (folders sr) (heading sr id).

(** A folder match keeps its parent. *)
Definition keepsParents (σ σ' : list FolderMatch) : Prop :=
  ∀ l p, parentAt σ l = Some p → parentAt σ' l = Some p.

End SearchCounts.

(** ** Sticky and unsticky views of an editor group

    [FilteredEditorGroup], [StickyEditorGroupModel] and
    [UnstickyEditorGroupModel]: two read-only views of one editor group,
    one of its sticky editors, one of the others.  The group behind the
    views is an interface; it is a record of what its members return. *)
Module EditorGroups.

Local Open Scope Z_scope.

(** [Array.prototype.slice(start, end)] on integer arguments: a negative
    argument counts from the end, both are clamped to the array. *)
Definition sliceIndex (len relative : Z) : Z :=
  if relative <? 0 then Z.max (len + relative) 0 else Z.min relative len.

Definition slice {A} (l : list A) (start end_ : Z) : list A :=
  let len := Z.of_nat (length l) in
  let k := sliceIndex len start in
  let final := sliceIndex len end_ in
  take (Z.to_nat (final - k)) (drop (Z.to_nat k) l).

Section Views.

(** Editor inputs, match options and editor orders are opaque to the
    views. *)
Context {EditorInput IMatchEditorOptions EditorsOrder : Type}.

(** [{ excludeSticky?: boolean }] *)
Record GetEditorsOptions := mkOptions { excludeSticky : option bool }.

(** [IReadonlyEditorGroup], as far as the two views read the group they
    wrap.  Numbers are integers; [getIndexOfEditor] may be negative. *)
Record IReadonlyEditorGroup := mkGroup {
  count : Z;
  stickyCount : Z;
  editors : list EditorInput;
  activeEditor : option EditorInput;
  previewEditor : option EditorInput;
  isSticky : EditorInput → bool;
  isLast : EditorInput → bool;
  getEditorByIndex : Z → option EditorInput;
  getIndexOfEditor : EditorInput → Z;
  contains : EditorInput → option IMatchEditorOptions → bool;
  getEditors : EditorsOrder → option GetEditorsOptions → list EditorInput
}.

(** [candidate: EditorInput | IUntypedEditorInput]; nothing of an untyped
    input is read. *)
Inductive Candidate :=
| Typed (editor : EditorInput)
| Untyped.

(** What [FilteredEditorGroup] declares abstract or overrides in its
    subclasses, and [getEditors].  [view_contains] is [None] when the
    method throws. *)
Record FilteredEditorGroup := mkView {
  view_count : Z;
  view_isEmpty : bool;
  view_editors : list EditorInput;
  view_activeEditor : option EditorInput;
  view_previewEditor : option EditorInput;
  view_isSticky : EditorInput → bool;
  view_isLast : EditorInput → bool;
  view_getEditorByIndex : Z → option EditorInput;
  view_getIndexOfEditor : EditorInput → Z;
  view_contains : Candidate → option IMatchEditorOptions → option bool;
  view_getEditors : EditorsOrder → option GetEditorsOptions → list EditorInput
}.

(** [FilteredEditorGroup.getEditors]: the editors of the group the view
    contains; [contains] is called without options. *)
Definition filteredGetEditors (group : IReadonlyEditorGroup)
    (contains : Candidate → option IMatchEditorOptions → option bool)
    (order : EditorsOrder) (options : option GetEditorsOptions) : list EditorInput :=
  filter (λ e, contains (Typed e) None = Some true) (getEditors group order options).

(** [this.group.x && this.group.isSticky(this.group.x) ? this.group.x : null] *)
Definition onlyIf (keep : EditorInput → bool) (editor : option EditorInput)
  : option EditorInput :=
  match editor with
  | Some e => if keep e then Some e else None
  | None => None
  end.

Definition stickyContains (group : IReadonlyEditorGroup) (candidate : Candidate)
    (options : option IMatchEditorOptions) : option bool :=
  match candidate with
  | Untyped => None
  | Typed e =>
      Some (contains group e options && (getIndexOfEditor group e <? stickyCount group))
  end.

Definition StickyEditorGroupModel (group : IReadonlyEditorGroup) : FilteredEditorGroup := {|
  view_count := stickyCount group;
  view_isEmpty := stickyCount group =? 0;
  view_editors := slice (editors group) 0 (stickyCount group);
  view_activeEditor := onlyIf (isSticky group) (activeEditor group);
  view_previewEditor := onlyIf (isSticky group) (previewEditor group);
  view_isSticky := λ _, true;
  view_isLast := λ editor, getIndexOfEditor group editor =? stickyCount group - 1;
  view_getEditorByIndex := λ i, getEditorByIndex group i;
  view_getIndexOfEditor := λ e, getIndexOfEditor group e;
  view_contains := stickyContains group;
  view_getEditors := λ order options,
    match options ≫= excludeSticky with
    | Some true => []
    | _ => filteredGetEditors group (stickyContains group) order options
    end
|}.

Definition unstickyContains (group : IReadonlyEditorGroup) (candidate : Candidate)
    (options : option IMatchEditorOptions) : option bool :=
  match candidate with
  | Untyped => None
  | Typed e =>
      Some (contains group e options && (getIndexOfEditor group e >=? stickyCount group))
  end.

Definition UnstickyEditorGroupModel (group : IReadonlyEditorGroup) : FilteredEditorGroup := {|
  view_count := count group - stickyCount group;
  view_isEmpty := stickyCount group =? count group;
  view_editors := slice (editors group) (stickyCount group) (count group);
  view_activeEditor := onlyIf (λ e, negb (isSticky group e)) (activeEditor group);
  view_previewEditor := onlyIf (λ e, negb (isSticky group e)) (previewEditor group);
  view_isSticky := λ _, false;
  view_isLast := λ e, isLast group e;
  view_getEditorByIndex := λ index, getEditorByIndex group (index + stickyCount group);
  view_getIndexOfEditor := λ editor, getIndexOfEditor group editor + stickyCount group;
  view_contains := unstickyContains group;
  view_getEditors := filteredGetEditors group (unstickyContains group)
|}.

(** What a group guarantees about its own fields: [count] is the number of
    its editors, of which the first [stickyCount] are sticky. *)
Definition consistent (group : IReadonlyEditorGroup) : Prop :=
  count group = Z.of_nat (length (editors group)) ∧
  0 ≤ stickyCount group ≤ count group.

(** An editor sits at one index of the group, and the group finds the
    index of each of its editors. *)
Definition indexed (group : IReadonlyEditorGroup) : Prop :=
  (∀ i j e, getEditorByIndex group i = Some e → getEditorByIndex group j = Some e → i = j) ∧
  (∀ e o, contains group e o = true →
          getEditorByIndex group (getIndexOfEditor group e) = Some e).

End Views.

Arguments IReadonlyEditorGroup : clear implicits.
Arguments FilteredEditorGroup : clear implicits.
Arguments Candidate : clear implicits.

(** *** Sample data *)

(** A group of three editors, the first [sticky] of which are sticky. *)
Definition sampleGroup (sticky : Z) : IReadonlyEditorGroup string unit unit :=
  {| count := 3; stickyCount := sticky;
     editors := ["a.ts"; "b.ts"; "c.ts"]%string;
     activeEditor := Some "b.ts"%string; previewEditor := None;
     isSticky := λ e, bool_decide (e = "a.ts"%string) && (0 <? sticky);
     isLast := λ e, bool_decide (e = "c.ts"%string);
     getEditorByIndex := λ i,
       if i =? 0 then Some "a.ts"%string
       else if i =? 1 then Some "b.ts"%string
       else if i =? 2 then Some "c.ts"%string else None;
     getIndexOfEditor := λ e,
       if bool_decide (e = "a.ts"%string) then 0
       else if bool_decide (e = "b.ts"%string) then 1
       else if bool_decide (e = "c.ts"%string) then 2 else -1;
     contains := λ e _, bool_decide (e ∈ ["a.ts"; "b.ts"; "c.ts"]%string);
     getEditors := λ _ _, ["a.ts"; "b.ts"; "c.ts"]%string |}.

End EditorGroups.

(** ** Notebook sticky scroll

    The static helpers of [NotebookStickyScroll] and
    [NotebookStickyLine.getParentCount].  The container element is the
    list of its children. *)
Module StickyScroll.

(** [OutlineEntry], as far as sticky scroll reads it: the cell index, the
    heading level, the label and the parent entry.  The parent pointers of
    an outline form a tree, so an entry is given with its chain of
    parents. *)
#[local] Unset Elimination Schemes.
Inductive OutlineEntry := mkEntry {
  index : Z;
  level : nat;
  label : string;
  parent : option OutlineEntry
}.
#[local] Set Elimination Schemes.

(** A [Map] compares its keys as objects.  Here an entry is told from
    another by its fields and its parents; the entries of one chain of
    parents, which are distinct objects, differ in that sense too. *)
Global Instance OutlineEntry_eq_dec : EqDecision OutlineEntry.
Proof.
  refine (fix go (x y : OutlineEntry) : Decision (x = y) :=
    match x, y with
    | mkEntry i1 l1 s1 p1, mkEntry i2 l2 s2 p2 =>
        cast_if_and4 (decide (i1 = i2)) (decide (l1 = l2)) (decide (s1 = s2))
          (match p1, p2 return Decision (p1 = p2) with
           | Some a, Some b => cast_if (go a b)
           | None, None => left _
           | _, _ => right _
           end)
    end); congruence.
Defined.

(** [NotebookStickyLine.getParentCount], for the line of [entry]. *)
Fixpoint getParentCount (entry : OutlineEntry) : nat :=
  match parent entry with
  | Some p => S (getParentCount p)
  | None => 0
  end.

(** [NotebookStickyScroll.computeStickyHeight] *)
Fixpoint computeStickyHeight (entry : OutlineEntry) : nat :=
  match parent entry with
  | Some p => 22 + computeStickyHeight p
  | None => 0
  end.

(** The elements sticky scroll puts into its container: a line
    ([div.notebook-sticky-scroll-line]) with its text, and the shadow
    ([div.notebook-shadow]). *)
Inductive Element :=
| StickyElement (innerText : string)
| Shadow.

Record NotebookStickyLine := mkLine {
  element : Element;
  entry : OutlineEntry
}.

(** [String.prototype.repeat] *)
Fixpoint repeatString (s : string) (n : nat) : string :=
  match n with
  | 0 => EmptyString
  | S n' => s +:+ repeatString s n'
  end.

(** [createStickyElement]: the text is ['#'.repeat(entry.level) + ' ' +
    entry.label]. *)
Definition createStickyElement (entry : OutlineEntry) : NotebookStickyLine :=
  mkLine (StickyElement (repeatString "#" (level entry) +:+ " " +:+ label entry)) entry.

(** [Map.prototype.set] on a map in insertion order. *)
Fixpoint mapSet (key : OutlineEntry) (value : NotebookStickyLine)
    (m : list (OutlineEntry * NotebookStickyLine)) : list (OutlineEntry * NotebookStickyLine) :=
  match m with
  | [] => [(key, value)]
  | (k, v) :: rest =>
      if decide (k = key) then (key, value) :: rest else (k, v) :: mapSet key value rest
  end.

(** The first loop of [renderStickyLines], from [currentEntry] up the
    parents: level 7 entries are skipped, the others get a line that is put
    into the map and in front of [elementsToRender]. *)
Fixpoint collectFrom (currentEntry : OutlineEntry)
    (newMap : list (OutlineEntry * NotebookStickyLine))
    (elementsToRender : list NotebookStickyLine)
  : list (OutlineEntry * NotebookStickyLine) * list NotebookStickyLine :=
  let '(newMap', elementsToRender') :=
    if level currentEntry =? 7 then (newMap, elementsToRender)
    else
      let lineToRender := createStickyElement currentEntry in
      (mapSet currentEntry lineToRender newMap, lineToRender :: elementsToRender) in
  match parent currentEntry with
  | Some p => collectFrom p newMap' elementsToRender'
  | None => (newMap', elementsToRender')
  end.

(** The second loop: [elementsToRender] holds the lines from position [i]
    on. *)
Fixpoint appendLines (i : nat) (elementsToRender : list NotebookStickyLine)
    (numLinesToRender : Z) (containerElement : list Element) : list Element :=
  match elementsToRender with
  | [] => containerElement
  | line :: rest =>
      if (Z.of_nat i >=? numLinesToRender)%Z then containerElement
      else appendLines (S i) rest numLinesToRender (containerElement ++ [element line])
  end.

(** [renderStickyLines]: the children of the container and the map
    afterwards. *)
Definition renderStickyLines (entry : option OutlineEntry) (containerElement : list Element)
    (numLinesToRender : Z) (newMap : list (OutlineEntry * NotebookStickyLine))
  : list Element * list (OutlineEntry * NotebookStickyLine) :=
  let '(newMap', elementsToRender) :=
    match entry with
    | Some e => collectFrom e newMap []
    | None => (newMap, [])
    end in
  (appendLines 0 elementsToRender numLinesToRender containerElement ++ [Shadow], newMap').

(** [getCurrentStickyHeight], for the map [currentStickyLines]. *)
Definition getCurrentStickyHeight (currentStickyLines : list (OutlineEntry * NotebookStickyLine))
  : nat :=
  length currentStickyLines * 22.

(** [notebookOutlineEntries[mid]]: reading outside the array gives
    [undefined]. *)
Definition at_ (entries : list OutlineEntry) (i : Z) : option OutlineEntry :=
  if (i <? 0)%Z then None else entries !! Z.to_nat i.

(** The loop of [getVisibleOutlineEntry].  [fuel] bounds the number of
    iterations; the result is [None] when it runs out, or when the loop
    reads [.index] of [undefined], which throws. *)
Fixpoint bucketLoop (fuel : nat) (entries : list OutlineEntry) (visibleIndex : Z)
    (left right bucket : Z) : option Z :=
  if (left <=? right)%Z then
    match fuel with
    | 0 => None
    | S fuel' =>
        let mid := ((left + right) `div` 2)%Z in
        match at_ entries mid with
        | None => None
        | Some e =>
            if (index e <? visibleIndex)%Z
            then bucketLoop fuel' entries visibleIndex (mid + 1)%Z right mid
            else bucketLoop fuel' entries visibleIndex left (mid - 1)%Z bucket
        end
    end
  else Some bucket.

Section Outline.

(** [rootEntry.asFlatList(flatList)]: the entries below a root entry, the
    root included, as the outline provider lists them. *)
Variable asFlatList : OutlineEntry → list OutlineEntry.

(** [getVisibleOutlineEntry]: [None] when the call throws, [Some None]
    when it returns [undefined].  The range [left..right] shrinks with
    every iteration, so one iteration more than there are entries is
    enough. *)
Definition getVisibleOutlineEntry (visibleIndex : Z) (notebookOutlineEntries : list OutlineEntry)
  : option (option OutlineEntry) :=
  bucket ← bucketLoop (S (length notebookOutlineEntries)) notebookOutlineEntries visibleIndex
             0 (Z.of_nat (length notebookOutlineEntries) - 1) (-1);
  if (bucket =? -1)%Z then Some None
  else
    rootEntry ← at_ notebookOutlineEntries bucket;
    Some (List.find (λ entry, (index entry =? visibleIndex)%Z) (asFlatList rootEntry)).

End Outline.

(** An entry with its parents, the entry first. *)
Fixpoint chainFrom (entry : OutlineEntry) : list OutlineEntry :=
  entry :: match parent entry with
           | Some p => chainFrom p
           | None => []
           end.

Definition chain (entry : option OutlineEntry) : list OutlineEntry :=
  match entry with
  | Some e => chainFrom e
  | None => []
  end.

(** The entries that stand for a header. *)
Definition isHeader (entry : OutlineEntry) : bool := negb (level entry =? 7).

(** The entries of an outline are in the order of their cells. *)
Definition ascending (entries : list OutlineEntry) : Prop :=
  ∀ i j ei ej, i ≤ j → entries !! i = Some ei → entries !! j = Some ej →
               (index ei ≤ index ej)%Z.

(** *** Sample data *)

Definition h1 : OutlineEntry := mkEntry 0 1 "Intro" None.
Definition h2 : OutlineEntry := mkEntry 2 2 "Setup" (Some h1).
Definition code : OutlineEntry := mkEntry 3 7 "import os" (Some h2).
Definition h1b : OutlineEntry := mkEntry 5 1 "Results" None.

(** The outline lists the root entries; everything below [h1] is in its
    flat list. *)
Definition sampleFlatList (e : OutlineEntry) : list OutlineEntry :=
  if decide (e = h1) then [h1; h2; code] else [e].

End StickyScroll.

Module PathTrieFacts.
Import PathTrie.

Section Store.

Context {T : Type}.
Implicit Types (h : list (@PathTrieNode T)) (p c cur : loc) (segment : string).
Implicit Types (t : @PathTrie T).

Lemma prevOf_None_ge h c : length h ≤ c → prevOf h c = None.
Proof. intros Hc. unfold prevOf. by rewrite (lookup_ge_None_2 h c Hc). Qed.

Lemma dataOf_None_ge h c : length h ≤ c → dataOf h c = None.
Proof. intros Hc. unfold dataOf. by rewrite (lookup_ge_None_2 h c Hc). Qed.

Lemma child_None_ge h p s : length h ≤ p → child h p s = None.
Proof. intros Hp. unfold child, nextOf. by rewrite (lookup_ge_None_2 h p Hp). Qed.

Lemma wf_child_lt h p s c : wf h → child h p s = Some c → c < length h.
Proof.
  intros Hwf Hc. apply (wf_edge h Hwf) in Hc.
  destruct (decide (c < length h)) as [|Hge]; [done|].
  rewrite prevOf_None_ge in Hc; [done | lia].
Qed.

(** *** One allocation step *)

Lemma newChild_length h cur s : length (newChild h cur s) = S (length h).
Proof. unfold newChild. rewrite length_alter, length_app. simpl. lia. Qed.

Lemma newChild_prevOf h cur s c :
  prevOf (newChild h cur s) c = if decide (c = length h) then Some cur else prevOf h c.
Proof.
  unfold newChild, prevOf.
  destruct (decide (cur = c)) as [->|Hne].
  - rewrite list_lookup_alter_eq.
    case_decide as Hc.
    + subst c. rewrite lookup_app_r by lia. by rewrite Nat.sub_diag.
    + destruct (decide (c < length h)).
      * rewrite lookup_app_l by done. by destruct (h !! c).
      * rewrite !lookup_ge_None_2; [done | lia | rewrite length_app; simpl; lia].
  - rewrite list_lookup_alter_ne by done.
    case_decide as Hc.
    + subst c. rewrite lookup_app_r by lia. by rewrite Nat.sub_diag.
    + destruct (decide (c < length h)).
      * by rewrite lookup_app_l.
      * rewrite !lookup_ge_None_2; [done | lia | rewrite length_app; simpl; lia].
Qed.

Lemma newChild_dataOf h cur s c : dataOf (newChild h cur s) c = dataOf h c.
Proof.
  unfold newChild, dataOf.
  assert (Hbase : (h ++ [mkNode (Some cur) None None]) !! c ≫= data = h !! c ≫= data).
  { destruct (decide (c < length h)).
    - by rewrite lookup_app_l.
    - rewrite (lookup_ge_None_2 h c) by lia.
      destruct (decide (c = length h)) as [->|].
      + rewrite lookup_app_r by lia. by rewrite Nat.sub_diag.
      + rewrite lookup_ge_None_2; [done | rewrite length_app; simpl; lia]. }
  destruct (decide (cur = c)) as [->|Hne].
  - rewrite list_lookup_alter_eq, <- Hbase.
    by destruct ((h ++ [mkNode (Some c) None None]) !! c).
  - by rewrite list_lookup_alter_ne.
Qed.

Lemma newChild_child h cur s p s' :
  cur < length h →
  child (newChild h cur s) p s' =
    if decide (p = cur ∧ s' = s) then Some (length h) else child h p s'.
Proof.
  intros Hcur. unfold newChild, child, nextOf.
  destruct (decide (cur = p)) as [->|Hne].
  - rewrite list_lookup_alter_eq, lookup_app_l by done.
    destruct (h !! p) as [n|] eqn:Hn; [|apply lookup_ge_None_1 in Hn; lia].
    simpl. case_decide as Hd.
    + destruct Hd as [_ ->]. by rewrite lookup_insert_eq.
    + rewrite lookup_insert_ne by naive_solver.
      destruct (next n); simpl; [done | by rewrite lookup_empty].
  - rewrite list_lookup_alter_ne by done.
    rewrite decide_False by naive_solver.
    destruct (decide (p < length h)).
    + by rewrite lookup_app_l.
    + rewrite (lookup_ge_None_2 h p) by lia.
      destruct (decide (p = length h)) as [->|].
      * rewrite lookup_app_r by lia. by rewrite Nat.sub_diag.
      * rewrite lookup_ge_None_2; [done | rewrite length_app; simpl; lia].
Qed.

Lemma newChild_wf h cur s :
  wf h → cur < length h → child h cur s = None → wf (newChild h cur s).
Proof.
  intros Hwf Hcur Hnone. split.
  - rewrite newChild_length. pose proof (wf_root_alloc h Hwf). lia.
  - rewrite newChild_prevOf. pose proof (wf_root_alloc h Hwf).
    rewrite decide_False by (unfold root in *; lia). apply Hwf.
  - intros p s' c. rewrite newChild_child, newChild_prevOf by done.
    case_decide as Hd.
    + intros [= <-]. rewrite decide_True by done. by destruct Hd as [-> _].
    + intros Hc. pose proof (wf_child_lt _ _ _ _ Hwf Hc).
      rewrite decide_False by lia. by apply (wf_edge h Hwf) in Hc.
  - intros p s1 s2 c. rewrite !newChild_child by done.
    repeat case_decide; intros H1 H2; simplify_eq.
    + naive_solver.
    + apply (wf_child_lt _ _ _ _ Hwf) in H2. lia.
    + apply (wf_child_lt _ _ _ _ Hwf) in H1. lia.
    + by apply (wf_label h Hwf p s1 s2 c).
Qed.

(** *** Stores that grow *)

Lemma extends_refl h : extends h h.
Proof. split; auto. Qed.

Lemma extends_trans h1 h2 h3 : extends h1 h2 → extends h2 h3 → extends h1 h3.
Proof.
  intros H12 H23. split.
  - pose proof (ext_length _ _ H12). pose proof (ext_length _ _ H23). lia.
  - intros c. by rewrite (ext_data _ _ H23), (ext_data _ _ H12).
  - intros p s c Hc. by apply (ext_child _ _ H23), (ext_child _ _ H12).
  - intros p s c Hc. pose proof (ext_length _ _ H12).
    destruct (ext_new _ _ H23 _ _ _ Hc) as [Hc2|?]; [|right; lia].
    apply (ext_new _ _ H12 _ _ _ Hc2).
Qed.

Lemma newChild_extends h cur s :
  cur < length h → child h cur s = None → extends h (newChild h cur s).
Proof.
  intros Hcur Hnone. split.
  - rewrite newChild_length. lia.
  - intros c. apply newChild_dataOf.
  - intros p s' c Hc. rewrite newChild_child by done.
    rewrite decide_False; [done|]. intros [-> ->]. congruence.
  - intros p s' c. rewrite newChild_child by done.
    case_decide; [intros [= <-]; by right | by left].
Qed.

Lemma ensureFrom_spec segments : ∀ h cur h' c,
  wf h → cur < length h → ensureFrom h cur segments = (h', c) →
  wf h' ∧ extends h h' ∧ findFrom h' cur segments = Some c ∧ c < length h'.
Proof.
  induction segments as [|s rest IH]; intros h cur h' c Hwf Hcur; simpl.
  - intros [= <- <-]. eauto using extends_refl.
  - destruct (child h cur s) as [c1|] eqn:Hc1.
    + intros Hens.
      destruct (IH h c1 h' c Hwf (wf_child_lt _ _ _ _ Hwf Hc1) Hens) as (Hwf' & Hext & Hfind & Hlt).
      by rewrite (ext_child _ _ Hext _ _ _ Hc1).
    + intros Hens.
      pose proof (newChild_wf h cur s Hwf Hcur Hc1) as Hwf1.
      pose proof (newChild_extends h cur s Hcur Hc1) as Hext1.
      assert (Hlt1 : length h < length (newChild h cur s)) by (rewrite newChild_length; lia).
      destruct (IH _ _ h' c Hwf1 Hlt1 Hens) as (Hwf' & Hext & Hfind & Hlt).
      refine (conj Hwf' (conj (extends_trans _ _ _ Hext1 Hext) (conj _ Hlt))).
      assert (Hnew : child (newChild h cur s) cur s = Some (length h)).
      { rewrite newChild_child by done. by rewrite decide_True. }
      by rewrite (ext_child _ _ Hext _ _ _ Hnew).
Qed.

(** *** Walking the store *)

Lemma findFrom_app h cur s1 s2 :
  findFrom h cur (s1 ++ s2) = findFrom h cur s1 ≫= λ c, findFrom h c s2.
Proof.
  revert cur. induction s1 as [|s s1 IH]; intros cur; simpl; [done|].
  destruct (child h cur s); [apply IH | done].
Qed.

Lemma findFrom_snoc_Some h cur segments s c :
  findFrom h cur (segments ++ [s]) = Some c ↔
  ∃ p, findFrom h cur segments = Some p ∧ child h p s = Some c.
Proof.
  rewrite findFrom_app. destruct (findFrom h cur segments) as [p|]; simpl.
  - destruct (child h p s) eqn:Hc; naive_solver.
  - naive_solver.
Qed.

(** A walk only reads the edges. *)
Lemma findFrom_mono h h' segments : ∀ cur c,
  (∀ p s c', child h p s = Some c' → child h' p s = Some c') →
  findFrom h cur segments = Some c → findFrom h' cur segments = Some c.
Proof.
  induction segments as [|s rest IH]; intros cur c Hsub; simpl; [done|].
  destruct (child h cur s) as [c1|] eqn:Hc1; [|done].
  rewrite (Hsub _ _ _ Hc1). by apply IH.
Qed.

Lemma findFrom_ext h h' segments cur :
  (∀ p s, child h' p s = child h p s) →
  findFrom h' cur segments = findFrom h cur segments.
Proof.
  intros Heq. revert cur. induction segments as [|s rest IH]; intros cur; simpl; [done|].
  rewrite Heq. destruct (child h cur s); [apply IH | done].
Qed.

(** The store is a tree: a node is reached from the root by one segment
    sequence only. *)
Lemma findFrom_inj h s1 : ∀ s2 c,
  wf h → findFrom h root s1 = Some c → findFrom h root s2 = Some c → s1 = s2.
Proof.
  induction s1 as [|x s1 IH] using rev_ind; intros s2 c Hwf H1 H2.
  - simpl in H1. injection H1 as <-.
    destruct s2 as [|y s2 _] using rev_ind; [done|].
    apply findFrom_snoc_Some in H2 as (p & _ & Hc).
    apply (wf_edge h Hwf) in Hc. rewrite (wf_root_prev h Hwf) in Hc. done.
  - apply findFrom_snoc_Some in H1 as (p1 & Hp1 & Hc1).
    destruct s2 as [|y s2 _] using rev_ind.
    + simpl in H2. injection H2 as <-.
      apply (wf_edge h Hwf) in Hc1. rewrite (wf_root_prev h Hwf) in Hc1. done.
    + apply findFrom_snoc_Some in H2 as (p2 & Hp2 & Hc2).
      pose proof (wf_edge h Hwf _ _ _ Hc1) as Hprev1.
      pose proof (wf_edge h Hwf _ _ _ Hc2) as Hprev2.
      assert (p1 = p2) as -> by congruence.
      rewrite (wf_label h Hwf _ _ _ _ Hc1 Hc2).
      f_equal. by eapply IH.
Qed.

(** Nodes behind an edge that [ensureNode] added are new, and so is
    everything below them. *)
Lemma findFrom_new h h' segments : ∀ cur c,
  extends h h' → length h ≤ cur → findFrom h' cur segments = Some c → length h ≤ c.
Proof.
  induction segments as [|s rest IH]; intros cur c Hext Hcur; simpl.
  - by intros [= <-].
  - destruct (child h' cur s) as [c1|] eqn:Hc1; [|done].
    destruct (ext_new _ _ Hext _ _ _ Hc1) as [Hold|Hge].
    + by rewrite child_None_ge in Hold.
    + by apply IH.
Qed.

(** What a walk finds after [ensureNode] carries the payload it carried
    before. *)
Lemma findFrom_extends_data h h' segments : ∀ cur,
  extends h h' →
  findFrom h' cur segments ≫= dataOf h' = findFrom h cur segments ≫= dataOf h.
Proof.
  induction segments as [|s rest IH]; intros cur Hext; simpl.
  - apply (ext_data _ _ Hext).
  - destruct (child h' cur s) as [c1|] eqn:Hc1.
    + destruct (child h cur s) as [c0|] eqn:Hc0.
      * rewrite (ext_child _ _ Hext _ _ _ Hc0) in Hc1. injection Hc1 as <-. by apply IH.
      * destruct (ext_new _ _ Hext _ _ _ Hc1) as [?|Hge]; [congruence|].
        destruct (findFrom h' c1 rest) as [c|] eqn:Hc; [|done]. simpl.
        rewrite (ext_data _ _ Hext). apply dataOf_None_ge.
        by eapply findFrom_new.
    + destruct (child h cur s) as [c0|] eqn:Hc0; [|done].
      rewrite (ext_child _ _ Hext _ _ _ Hc0) in Hc1. done.
Qed.

(** *** [set] *)

Lemma withData_child h cur (d : T) p (s : string) :
  child (alter (withData d) cur h) p s = child h p s.
Proof.
  unfold child, nextOf. destruct (decide (cur = p)) as [->|].
  - rewrite list_lookup_alter_eq. by destruct (h !! p).
  - by rewrite list_lookup_alter_ne.
Qed.

Lemma withData_prevOf h cur (d : T) c :
  prevOf (alter (withData d) cur h) c = prevOf h c.
Proof.
  unfold prevOf. destruct (decide (cur = c)) as [->|].
  - rewrite list_lookup_alter_eq. by destruct (h !! c).
  - by rewrite list_lookup_alter_ne.
Qed.

Lemma withData_dataOf h cur (d : T) c :
  cur < length h →
  dataOf (alter (withData d) cur h) c = if decide (c = cur) then Some d else dataOf h c.
Proof.
  intros Hcur. unfold dataOf. case_decide as Hc.
  - subst c. rewrite list_lookup_alter_eq.
    destruct (h !! cur) eqn:Hn; [done|]. apply lookup_ge_None_1 in Hn. lia.
  - by rewrite list_lookup_alter_ne.
Qed.

(** Updates that keep the edges, the parent pointers and the size keep the
    shape. *)
Lemma wf_transfer h h' :
  length h' = length h →
  (∀ c, prevOf h' c = prevOf h c) →
  (∀ p (s : string) c, child h' p s = Some c → child h p s = Some c) →
  wf h → wf h'.
Proof.
  intros Hlen Hprev Hsub Hwf. split.
  - rewrite Hlen. apply Hwf.
  - rewrite Hprev. apply Hwf.
  - intros p s c Hc. rewrite Hprev. apply (wf_edge h Hwf p s c). by apply Hsub.
  - intros p s s' c H1 H2. apply (wf_label h Hwf p s s' c); by apply Hsub.
Qed.

Lemma set_wf t path (d : T) : wf (nodes t) → wf (nodes (set t path d)).
Proof.
  intros Hwf. unfold set, ensureNode.
  destruct (ensureFrom (nodes t) root (toSegments path)) as [h' c] eqn:Hens.
  destruct (ensureFrom_spec _ _ _ _ _ Hwf (wf_root_alloc _ Hwf) Hens) as (Hwf' & _).
  simpl. apply (wf_transfer h'); [apply length_alter | apply withData_prevOf | | done].
  intros p s c'. by rewrite withData_child.
Qed.

Lemma get_getAt t path : get t path = getAt (nodes t) (toSegments path).
Proof. done. Qed.

Lemma set_getAt_eq t path (d : T) :
  wf (nodes t) → getAt (nodes (set t path d)) (toSegments path) = Some d.
Proof.
  intros Hwf. unfold set, ensureNode, getAt.
  destruct (ensureFrom (nodes t) root (toSegments path)) as [h' c] eqn:Hens.
  destruct (ensureFrom_spec _ _ _ _ _ Hwf (wf_root_alloc _ Hwf) Hens) as (_ & _ & Hfind & Hlt).
  simpl. rewrite (findFrom_ext h') by apply withData_child.
  rewrite Hfind. simpl. rewrite withData_dataOf by done. by rewrite decide_True.
Qed.

Lemma set_getAt_ne t path (d : T) segments :
  wf (nodes t) → segments ≠ toSegments path →
  getAt (nodes (set t path d)) segments = getAt (nodes t) segments.
Proof.
  intros Hwf Hne. unfold set, ensureNode, getAt.
  destruct (ensureFrom (nodes t) root (toSegments path)) as [h' c] eqn:Hens.
  destruct (ensureFrom_spec _ _ _ _ _ Hwf (wf_root_alloc _ Hwf) Hens) as (Hwf' & Hext & Hfind & Hlt).
  simpl. rewrite (findFrom_ext h') by apply withData_child.
  rewrite <- (findFrom_extends_data _ _ _ _ Hext).
  destruct (findFrom h' root segments) as [c1|] eqn:Hc1; [|done]. simpl.
  rewrite withData_dataOf by done. rewrite decide_False; [done|].
  intros ->. apply Hne. by eapply findFrom_inj.
Qed.

(** *** [delete] *)

Lemma withNext_prevOf h p m c : prevOf (alter (withNext m) p h) c = prevOf h c.
Proof.
  unfold prevOf. destruct (decide (p = c)) as [->|].
  - rewrite list_lookup_alter_eq. by destruct (h !! c).
  - by rewrite list_lookup_alter_ne.
Qed.

Lemma withNext_dataOf h p m c : dataOf (alter (withNext m) p h) c = dataOf h c.
Proof.
  unfold dataOf. destruct (decide (p = c)) as [->|].
  - rewrite list_lookup_alter_eq. by destruct (h !! c).
  - by rewrite list_lookup_alter_ne.
Qed.

Lemma deleteKey_child h p m key q (s : string) :
  nextOf h p = Some m →
  child (alter (withNext (deleteKey key m)) p h) q s =
    if decide (q = p ∧ key = Some s) then None else child h q s.
Proof.
  intros Hm. unfold child, nextOf in *.
  destruct (decide (p = q)) as [->|Hne].
  - rewrite list_lookup_alter_eq.
    destruct (h !! q) as [n|]; [|done]. simpl in *. rewrite Hm. simpl.
    case_decide as Hd.
    + destruct Hd as [_ ->]. simpl. apply lookup_delete_eq.
    + destruct key as [k|]; simpl; [|done].
      apply lookup_delete_ne. naive_solver.
  - rewrite list_lookup_alter_ne by done. rewrite decide_False; [done | naive_solver].
Qed.

Lemma delete_wf t path : wf (nodes t) → wf (nodes (delete t path)).
Proof.
  intros Hwf. unfold delete.
  destruct (findFrom (nodes t) root (toSegments path)) as [cur|]; [|done].
  destruct (prevOf (nodes t) cur) as [p|]; [|done].
  destruct (nextOf (nodes t) p) as [m|] eqn:Hm; [|done].
  simpl. apply (wf_transfer (nodes t)); [apply length_alter | apply withNext_prevOf | | done].
  intros q s c. rewrite (deleteKey_child _ _ _ _ _ _ Hm). by case_decide.
Qed.

Lemma empty_wf : wf (nodes (empty (T:=T))).
Proof.
  split; simpl; [unfold root; lia | done | |].
  - intros [|p] s c; done.
  - intros [|p] s s' c; done.
Qed.

(** Every trie built from [new PathTrie()] by [set] and [delete] has a
    well shaped store. *)
Lemma run_wf (ops : list (op (T:=T))) : wf (nodes (run ops)).
Proof.
  unfold run. induction ops as [|o ops IH] using rev_ind; [apply empty_wf|].
  rewrite foldl_app. simpl. destruct o; simpl; [by apply set_wf | by apply delete_wf].
Qed.

Lemma delete_getAt t path :
  wf (nodes t) → toSegments path ≠ [] → is_Some (findNode t path) →
  getAt (nodes (delete t path)) (toSegments path) = None.
Proof.
  intros Hwf Hne [cur Hcur]. unfold delete, findNode, getAt in *.
  rewrite Hcur.
  destruct (toSegments path) as [|x segments _] using rev_ind; [done|].
  apply findFrom_snoc_Some in Hcur as Hsplit. destruct Hsplit as (p & Hp & Hc).
  rewrite (wf_edge _ Hwf _ _ _ Hc).
  destruct (nextOf (nodes t) p) as [m|] eqn:Hm; [|by unfold child in Hc; rewrite Hm in Hc].
  simpl. rewrite last_snoc.
  set (h3 := alter _ p (nodes t)).
  destruct (findFrom h3 root (segments ++ [x])) as [c3|] eqn:H3; [|done].
  apply findFrom_snoc_Some in H3 as (p3 & Hp3 & Hc3).
  assert (p3 = p) as ->.
  { apply (findFrom_mono h3 (nodes t)) in Hp3; [congruence|].
    intros q s c'. unfold h3. rewrite (deleteKey_child _ _ _ _ _ _ Hm). by case_decide. }
  unfold h3 in Hc3. rewrite (deleteKey_child _ _ _ _ _ _ Hm) in Hc3.
  by rewrite decide_True in Hc3.
Qed.

(** *** [findSubstr] *)

Variable truthy : T → bool.

Lemma nonEmptyPrefixes_cons (s : string) rest :
  nonEmptyPrefixes (s :: rest) = [s] :: ((s ::.) <$> nonEmptyPrefixes rest).
Proof.
  unfold nonEmptyPrefixes. simpl. f_equal.
  rewrite <- list_fmap_compose, <- fmap_S_seq, <- list_fmap_compose.
  by apply list_fmap_ext.
Qed.

Lemma yieldData_yielded h c :
  yieldData truthy h c = option_list (dataOf h c ≫= yielded truthy).
Proof.
  unfold yieldData, yielded. destruct (dataOf h c) as [d|]; [|done].
  simpl. by destruct (truthy d).
Qed.

Lemma getAtFrom_cons h cur (s : string) q :
  getAtFrom h cur (s :: q) = child h cur s ≫= λ c, getAtFrom h c q.
Proof. unfold getAtFrom. simpl. by destruct (child h cur s). Qed.

Lemma omap_fmap_cons {B} (f : list string → option B) (s : string) (qs : list (list string)) :
  omap f ((s ::.) <$> qs) = omap (λ q, f (s :: q)) qs.
Proof.
  induction qs as [|q qs IH]; [done|]. csimpl. by rewrite IH.
Qed.

Lemma omap_cons_app {A B} (f : A → option B) (x : A) (l : list A) :
  omap f (x :: l) = option_list (f x) ++ omap f l.
Proof. csimpl. by destruct (f x). Qed.

Lemma omap_None {A B} (f : A → option B) (l : list A) :
  (∀ x, f x = None) → omap f l = [].
Proof. intros Hf. induction l as [|x l IH]; [done|]. simpl. by rewrite Hf. Qed.

Lemma findSubstrFrom_prefixes h segments : ∀ cur,
  findSubstrFrom truthy h cur segments =
  omap (λ q, getAtFrom h cur q ≫= yielded truthy) (nonEmptyPrefixes segments).
Proof.
  induction segments as [|s rest IH]; intros cur; [done|].
  rewrite nonEmptyPrefixes_cons.
  rewrite omap_cons_app.
  rewrite omap_fmap_cons. simpl. rewrite getAtFrom_cons.
  destruct (child h cur s) as [c|] eqn:Hc; simpl.
  - rewrite yieldData_yielded, IH. f_equal.
    apply list_omap_ext, Forall2_same_length_lookup_2; [done|].
    intros i q q' Hq Hq'. rewrite getAtFrom_cons, Hc. simpl. congruence.
  - symmetry. apply omap_None. intros q. by rewrite getAtFrom_cons, Hc.
Qed.

Lemma findSubstr_prefixes t path :
  findSubstr truthy t path =
  omap (λ q, getAt (nodes t) q ≫= yielded truthy) (nonEmptyPrefixes (toSegments path)).
Proof. apply findSubstrFrom_prefixes. Qed.

(** The walk of [findSubstr] stops at the first segment without a child:
    segments after it do not matter. *)
Lemma findSubstrFrom_stop h q (s : string) rest : ∀ cur p,
  findFrom h cur q = Some p → child h p s = None →
  findSubstrFrom truthy h cur (q ++ s :: rest) = findSubstrFrom truthy h cur q.
Proof.
  induction q as [|x q IH]; intros cur p; simpl.
  - intros [= <-] Hc. by rewrite Hc.
  - destruct (child h cur x) as [c|]; [|done]. intros Hp Hc. f_equal. by eapply IH.
Qed.

End Store.

(** *** The properties of the specification *)

Section Properties.

Context {T : Type}.

(** C6 (as amended): for every trie, every path [P] with at least one
    non-empty segment and every value [v], [set(P, v)] followed by
    [delete(P)] makes [get(P)] return absent. *)
Theorem set_delete_get (ops : list (op (T:=T))) (P : string) (v : T) :
  toSegments P ≠ [] →
  get (delete (set (run ops) P v) P) P = None.
Proof.
  intros Hne. rewrite get_getAt.
  pose proof (set_wf _ P v (run_wf ops)) as Hwf.
  apply delete_getAt; [done | done |].
  pose proof (set_getAt_eq (run ops) P v (run_wf ops)) as Hget.
  unfold getAt, findNode in *.
  destruct (findFrom (nodes (set (run ops) P v)) root (toSegments P)); [eauto | done].
Qed.

(** The empty path resolves to the root. *)
Lemma findNode_empty_path (t : PathTrie (T:=T)) : findNode t "" = Some root.
Proof. done. Qed.

(** A path without segments names the root, which has no parent to
    delete it from: [delete] leaves the trie as it is. *)
Lemma delete_root (t : PathTrie (T:=T)) (P : string) :
  wf (nodes t) → toSegments P = [] → delete t P = t.
Proof.
  intros Hwf HP. unfold delete. rewrite HP. simpl.
  by rewrite (wf_root_prev _ Hwf).
Qed.

Lemma root_survives_delete (ops : list (op (T:=T))) (P : string) (v : T) :
  toSegments P = [] →
  get (delete (set (run ops) P v) P) P = Some v.
Proof.
  intros HP. pose proof (set_wf _ P v (run_wf ops)) as Hwf.
  rewrite delete_root by done. rewrite get_getAt. by apply set_getAt_eq, run_wf.
Qed.

(** C7 (as amended): for all paths [P1], [P2] with different segment
    sequences and all values, inserting both in either order makes
    [get(P1)] return [v1], and inserting [P2] leaves [get(P1)] as it
    was. *)
Theorem set_set_get (ops : list (op (T:=T))) (P1 P2 : string) (v1 v2 : T) :
  toSegments P1 ≠ toSegments P2 →
  get (set (set (run ops) P1 v1) P2 v2) P1 = Some v1 ∧
  get (set (set (run ops) P2 v2) P1 v1) P1 = Some v1 ∧
  get (set (run ops) P2 v2) P1 = get (run ops) P1.
Proof.
  intros Hne. pose proof (run_wf ops) as Hwf. rewrite !get_getAt.
  split; [|split].
  - rewrite set_getAt_ne by (done || by apply set_wf).
    by apply set_getAt_eq.
  - by apply set_getAt_eq, set_wf.
  - by apply set_getAt_ne.
Qed.

(** Paths with the same segments name the same node: the later [set]
    wins. *)
Lemma same_segments_overwrite (ops : list (op (T:=T))) (P1 P2 : string) (v1 v2 : T) :
  toSegments P1 = toSegments P2 →
  get (set (set (run ops) P1 v1) P2 v2) P1 = Some v2.
Proof.
  intros Heq. rewrite get_getAt, Heq. by apply set_getAt_eq, set_wf, run_wf.
Qed.

(** C8 (as amended): when the payloads stored on the way pass the
    truthiness test of the source, [findSubstr(P)] yields exactly the
    payloads of the nodes reached by the non-empty prefixes of [P]'s
    segments, root to leaf, nodes without payload skipped; the root's own
    payload is not among them, and nothing is yielded for the segments
    after the first one without a child. *)
Theorem findSubstr_payloads (truthy : T → bool) (t : PathTrie) (P : string) :
  (∀ q d, q ∈ nonEmptyPrefixes (toSegments P) → getAt (nodes t) q = Some d → truthy d = true) →
  findSubstr truthy t P = omap (getAt (nodes t)) (nonEmptyPrefixes (toSegments P)) ∧
  (∀ q s rest p, toSegments P = q ++ s :: rest →
     findFrom (nodes t) root q = Some p → child (nodes t) p s = None →
     findSubstr truthy t P = omap (getAt (nodes t)) (nonEmptyPrefixes q)).
Proof.
  intros Htruthy.
  assert (Hall : ∀ qs : list (list string), (∀ q d, q ∈ qs → getAt (nodes t) q = Some d → truthy d = true) →
    omap (λ q, getAt (nodes t) q ≫= yielded truthy) qs = omap (getAt (nodes t)) qs).
  { induction qs as [|q qs IH]; intros Hqs; [done|].
    rewrite !omap_cons_app.
    rewrite IH by (intros q' d Hin; apply Hqs; by right).
    destruct (getAt (nodes t) q) as [d|] eqn:Hd; [|done]. simpl.
    unfold yielded. rewrite (Hqs q d); [done | by left | done]. }
  split.
  - rewrite findSubstr_prefixes. by apply Hall.
  - intros q s rest p HP Hp Hc. unfold findSubstr. rewrite HP.
    rewrite (findSubstrFrom_stop _ _ _ _ _ _ _ Hp Hc).
    rewrite findSubstrFrom_prefixes. apply Hall.
    intros q' d Hin. apply Htruthy. rewrite HP.
    unfold nonEmptyPrefixes in *. apply list_elem_of_fmap in Hin as (k & -> & Hk).
    apply elem_of_seq in Hk. apply list_elem_of_fmap. exists k. split.
    + rewrite take_app_le by lia. done.
    + apply elem_of_seq. rewrite length_app. simpl. lia.
Qed.

End Properties.

(** *** Concrete tries *)


(** C6, the claim as stated fails for the empty path: the root keeps its
    payload. *)
Lemma set_delete_get_empty_path :
  get (delete (set empty "" 7) "") "" = Some 7.
Proof. vm_compute. reflexivity. Qed.

Lemma set_delete_get_witness :
  toSegments "/Users/name" ≠ [] ∧
  get (delete (set (run [Set_ "/Users/name/Desktop" 3]) "/Users/name" 4) "/Users/name") "/Users/name" = None.
Proof.
  split; [vm_compute; discriminate|].
  apply (set_delete_get [Set_ "/Users/name/Desktop" 3] "/Users/name" 4).
  vm_compute; discriminate.
Defined.

(** C7, the claim as stated fails for distinct path strings with the same
    segments. *)
Lemma set_set_get_same_segments :
  "/a" ≠ "a/" ∧ get (set (set empty "/a" 1) "a/" 2) "/a" = Some 2.
Proof. split; [discriminate | vm_compute; reflexivity]. Qed.

Lemma set_set_get_witness :
  toSegments "/Users/name" ≠ toSegments "C:\Users" ∧
  get (set (set (run []) "/Users/name" 1) "C:\Users" 2) "/Users/name" = Some 1 ∧
  get (set (set (run []) "C:\Users" 2) "/Users/name" 1) "/Users/name" = Some 1 ∧
  get (set (run []) "C:\Users" 2) "/Users/name" = get (run []) "/Users/name".
Proof.
  split; [vm_compute; discriminate|].
  apply (set_set_get [] "/Users/name" "C:\Users" 1 2).
  vm_compute; discriminate.
Defined.

(** C8, the claim as stated fails at the root: the node of the empty path
    holds a payload that [findSubstr] does not yield. *)
Lemma findSubstr_skips_root :
  get (set empty "" 7) "" = Some 7 ∧ nonZero 7 = true ∧
  findSubstr nonZero (set empty "" 7) "" = [].
Proof. vm_compute. auto. Qed.

(** A payload that is falsy in the source language is stored and returned
    by [get], and skipped by [findSubstr]. *)
Lemma findSubstr_skips_falsy :
  get (set empty "/a" 0) "/a" = Some 0 ∧ findSubstr nonZero (set empty "/a" 0) "/a" = [].
Proof. vm_compute. auto. Qed.

Lemma findSubstr_payloads_witness :
  findSubstr nonZero sampleTrie "/Users/name/Desktop/test-ts/package.json" = [4; 3; 2; 1].
Proof.
  destruct (findSubstr_payloads nonZero sampleTrie "/Users/name/Desktop/test-ts/package.json") as [-> _].
  - intros q d Hq. vm_compute in Hq.
    repeat (apply elem_of_cons in Hq as [->|Hq]; [vm_compute; by intros [= <-]|]).
    by apply elem_of_nil in Hq.
  - vm_compute. reflexivity.
Defined.

End PathTrieFacts.

Module SearchFacts.
Import Search.

Implicit Types (σ : list FolderMatch) (h : TextSearchHeading) (l o : loc).
Implicit Types (f : FolderMatch → FolderMatch) (targets : list loc).

(** *** The store *)

Lemma resourceAt_lt σ l x : resourceAt σ l = Some x → l < length σ.
Proof.
  unfold resourceAt. destruct (σ !! l) eqn:Hl; [|done].
  intros _. by eapply lookup_lt_Some.
Qed.

Lemma resourceAt_is_Some σ l : l < length σ → is_Some (resourceAt σ l).
Proof.
  intros Hl. unfold resourceAt.
  destruct (lookup_lt_is_Some_2 σ l Hl) as [fm ->]. by eexists.
Qed.

Lemma evolves_length σ σ' : evolves σ σ' → length σ ≤ length σ'.
Proof.
  intros Hev. destruct (decide (length σ ≤ length σ')) as [|Hgt]; [done|].
  assert (Hl : length σ' < length σ) by lia.
  specialize (Hev _ Hl). destruct (resourceAt_is_Some σ _ Hl) as [x Hx].
  rewrite Hx in Hev. apply resourceAt_lt in Hev. lia.
Qed.

Lemma evolves_refl σ : evolves σ σ.
Proof. by intros l _. Qed.

Lemma evolves_trans σ1 σ2 σ3 : evolves σ1 σ2 → evolves σ2 σ3 → evolves σ1 σ3.
Proof.
  intros H12 H23 l Hl. rewrite H23, H12; [done | done |].
  pose proof (evolves_length _ _ H12). lia.
Qed.

Lemma evolves_app σ new : evolves σ (σ ++ new).
Proof. intros l Hl. unfold resourceAt. by rewrite lookup_app_l. Qed.

Lemma resourceAt_alter f l σ l' :
  keepsResource f → resourceAt (alter f l σ) l' = resourceAt σ l'.
Proof.
  intros Hf. unfold resourceAt. destruct (decide (l = l')) as [->|].
  - rewrite list_lookup_alter_eq. destruct (σ !! l'); simpl; [by rewrite Hf | done].
  - by rewrite list_lookup_alter_ne.
Qed.

Lemma evolves_alter f l σ : keepsResource f → evolves σ (alter f l σ).
Proof. intros Hf l' _. by apply resourceAt_alter. Qed.

Lemma forEach_cons f l targets σ :
  forEach f (l :: targets) σ = forEach f targets (alter f l σ).
Proof. done. Qed.

Lemma forEach_length f targets σ : length (forEach f targets σ) = length σ.
Proof.
  revert σ. induction targets as [|l targets IH]; intros σ; [done|].
  rewrite forEach_cons, IH. apply length_alter.
Qed.

Lemma forEach_lookup f targets σ l :
  forEach f targets σ !! l = Nat.iter (occurrences l targets) f <$> σ !! l.
Proof.
  revert σ. induction targets as [|t targets IH]; intros σ.
  - simpl. by destruct (σ !! l).
  - rewrite forEach_cons, IH. unfold occurrences. rewrite filter_cons.
    destruct (decide (t = l)) as [->|Hne].
    + rewrite list_lookup_alter_eq. destruct (σ !! l); [|done].
      cbn -[Nat.iter]. by rewrite Nat.iter_succ_r.
    + by rewrite list_lookup_alter_ne.
Qed.

Lemma forEach_lookup_notin f targets σ l :
  l ∉ targets → forEach f targets σ !! l = σ !! l.
Proof.
  intros Hl. rewrite forEach_lookup.
  assert (occurrences l targets = 0) as ->.
  { unfold occurrences. induction targets as [|t targets IH]; [done|].
    rewrite filter_cons. apply not_elem_of_cons in Hl as [Hne Hl].
    rewrite decide_False by done. by apply IH. }
  simpl. by destruct (σ !! l).
Qed.

Lemma occurrences_NoDup l targets :
  NoDup targets → l ∈ targets → occurrences l targets = 1.
Proof.
  unfold occurrences. induction 1 as [|t targets Hnotin Hnd IH]; [by intros ?%elem_of_nil|].
  rewrite filter_cons. intros [->|Hin]%elem_of_cons.
  - rewrite decide_True by done. simpl. f_equal.
    clear IH Hnd. induction targets as [|t' targets IH]; [done|].
    apply not_elem_of_cons in Hnotin as [Hne Hnotin].
    rewrite filter_cons, decide_False by done. by apply IH.
  - rewrite decide_False; [by apply IH|]. intros ->. done.
Qed.

Lemma iter_keeps {A} (g : FolderMatch → A) f n fm :
  (∀ fm, g (f fm) = g fm) → g (Nat.iter n f fm) = g fm.
Proof. intros Hg. induction n as [|n IH]; [done|]. simpl. by rewrite Hg. Qed.

Lemma resourceAt_forEach f targets σ l :
  keepsResource f → resourceAt (forEach f targets σ) l = resourceAt σ l.
Proof.
  intros Hf. unfold resourceAt. rewrite forEach_lookup.
  destruct (σ !! l); [|done]. simpl. f_equal. by apply iter_keeps.
Qed.

Lemma evolves_forEach f targets σ : keepsResource f → evolves σ (forEach f targets σ).
Proof. intros Hf l _. by apply resourceAt_forEach. Qed.

Lemma keeps_clearFolder : keepsResource clearFolder.
Proof. done. Qed.
Lemma keeps_disposeFolder : keepsResource disposeFolder.
Proof. done. Qed.
Lemma keeps_setReplacingAll b : keepsResource (setReplacingAll b).
Proof. done. Qed.
Lemma keeps_addFileMatch raw : keepsResource (addFileMatch raw).
Proof. done. Qed.
Lemma keeps_removeFiles ms : keepsResource (removeFiles ms).
Proof. done. Qed.

Create HintDb search.

#[local] Hint Resolve keeps_clearFolder keeps_disposeFolder keeps_setReplacingAll
  keeps_addFileMatch keeps_removeFiles evolves_refl evolves_alter evolves_forEach
  evolves_app : search.

(** *** Association lists *)

Section AListFacts.
Context {V : Type}.
Implicit Types (m : list (URI * V)) (k : URI) (v : V).

Lemma alist_get_set_eq k v m : alist_get k (alist_set k v m) = Some v.
Proof.
  induction m as [|[k' v'] m IH]; simpl.
  - by rewrite decide_True.
  - destruct (decide (k' = k)) as [->|Hne]; simpl.
    + by rewrite decide_True.
    + by rewrite decide_False.
Qed.

Lemma alist_get_set_ne k k' v m :
  k ≠ k' → alist_get k' (alist_set k v m) = alist_get k' m.
Proof.
  intros Hne. induction m as [|[k0 v0] m IH]; simpl.
  - by rewrite decide_False.
  - destruct (decide (k0 = k)) as [->|Hne0]; simpl.
    + by rewrite !decide_False.
    + destruct (decide (k0 = k')); [done | apply IH].
Qed.

Lemma alist_get_is_Some k m : is_Some (alist_get k m) ↔ k ∈ fst <$> m.
Proof.
  induction m as [|[k' v'] m IH]; simpl.
  - split; [by intros [? ?] | by intros ?%elem_of_nil].
  - destruct (decide (k' = k)) as [->|Hne].
    + split; [intros _; by left | by eexists].
    + rewrite IH. split; [by right|]. by intros [?|?]%elem_of_cons.
Qed.

Lemma alist_set_keys k v m k' :
  k' ∈ fst <$> alist_set k v m ↔ k' = k ∨ k' ∈ fst <$> m.
Proof.
  induction m as [|[k0 v0] m IH]; simpl.
  - rewrite list_elem_of_singleton. split; [by left|]. by intros [?|?%elem_of_nil].
  - destruct (decide (k0 = k)) as [->|Hne]; simpl.
    + rewrite !elem_of_cons. naive_solver.
    + rewrite !elem_of_cons, IH. naive_solver.
Qed.

Lemma alist_set_elem k v m k' v' :
  (k', v') ∈ alist_set k v m → (k', v') = (k, v) ∨ (k', v') ∈ m.
Proof.
  induction m as [|[k0 v0] m IH]; simpl.
  - rewrite list_elem_of_singleton. by left.
  - destruct (decide (k0 = k)) as [->|Hne]; rewrite !elem_of_cons; naive_solver.
Qed.

Lemma alist_set_NoDup k v m : NoDup (fst <$> m) → NoDup (fst <$> alist_set k v m).
Proof.
  induction m as [|[k0 v0] m IH]; simpl; intros Hnd.
  - apply NoDup_singleton.
  - apply NoDup_cons in Hnd as [Hnotin Hnd].
    destruct (decide (k0 = k)) as [->|Hne]; simpl.
    + by apply NoDup_cons.
    + apply NoDup_cons. split; [|by apply IH].
      rewrite alist_set_keys. naive_solver.
Qed.

Lemma alist_NoDup_inj k v v' m :
  NoDup (fst <$> m) → (k, v) ∈ m → (k, v') ∈ m → v = v'.
Proof.
  induction m as [|[k0 v0] m IH]; simpl; intros Hnd H1 H2; [by apply elem_of_nil in H1|].
  apply NoDup_cons in Hnd as [Hnotin Hnd].
  apply elem_of_cons in H1 as [H1|H1]; apply elem_of_cons in H2 as [H2|H2]; simplify_eq.
  - done.
  - exfalso. apply Hnotin. apply list_elem_of_fmap. by exists (k0, v').
  - exfalso. apply Hnotin. apply list_elem_of_fmap. by exists (k0, v).
  - by apply IH.
Qed.

Lemma findSubstr_elem m uri v : findSubstr m uri = Some v → ∃ k, (k, v) ∈ m.
Proof.
  unfold findSubstr.
  assert (Hgen : ∀ best,
    (∀ e, best = Some e → e ∈ m) →
    ∀ m', m' ⊆ m →
    ∀ e, foldl (λ best entry, if isPrefix entry.1 uri then longer best entry else best) best m'
         = Some e → e ∈ m).
  { intros best Hbest m'. revert best Hbest.
    induction m' as [|e' m' IH]; intros best Hbest Hsub e; simpl; [by apply Hbest|].
    apply IH; [|set_solver].
    intros e0. destruct (isPrefix e'.1 uri); [|by apply Hbest].
    unfold longer. destruct best as [[k0 v0]|].
    - case_decide; [intros [= <-]; set_solver | by apply Hbest].
    - intros [= <-]. set_solver. }
  destruct (foldl _ None m) as [[k v']|] eqn:Hfold; [|done].
  simpl. intros [= ->]. exists k. by eapply (Hgen None); [done | | done].
Qed.

End AListFacts.
Lemma alist_set_keys_same {V} (k : URI) (v : V) (m : list (URI * V)) :
  k ∈ fst <$> m → fst <$> alist_set k v m = fst <$> m.
Proof.
  induction m as [|[k0 v0] m IH]; csimpl; [by intros ?%elem_of_nil|].
  destruct (decide (k0 = k)) as [->|Hne]; csimpl; [done|].
  intros [?|Hin]%elem_of_cons; [congruence|]. by rewrite IH.
Qed.

Lemma findSubstr_nil {V} (uri : URI) : findSubstr ([] : list (URI * V)) uri = None.
Proof. done. Qed.

(** *** Lookups of a heading *)

Lemma hinv_evolves σ σ' h : hinv σ h → evolves σ σ' → hinv σ' h.
Proof.
  intros Hinv Hev. split; try apply Hinv.
  - intros l Hl. destruct (inv_roots _ _ Hinv l Hl) as [r Hr].
    exists r. rewrite Hev; [done | by eapply resourceAt_lt].
  - intros o Ho. pose proof (inv_other _ _ Hinv o Ho) as Hr.
    rewrite Hev; [done | by eapply resourceAt_lt].
  - intros k l Hkl. destruct (inv_map _ _ Hinv k l Hkl) as [Hl Hr].
    split; [done|]. rewrite Hev; [done | by eapply resourceAt_lt].
Qed.

(** What [getFolderMatch] returns is a folder match of the tree of the
    heading under its root, or the "other files" bucket. *)
Lemma getFolderMatch_Some σ h uri l :
  hinv σ h → getFolderMatch h uri = Some l →
  (∃ k, (k, l) ∈ _folderMatchesMap h ∧ l ∈ _folderMatches h ∧ resourceAt σ l = Some (Some k)) ∨
  (findSubstr (_folderMatchesMap h) uri = None ∧ _allowOtherResults h = true ∧
   _otherFilesMatch h = Some l ∧ resourceAt σ l = Some None).
Proof.
  intros Hinv. unfold getFolderMatch.
  destruct (findSubstr (_folderMatchesMap h) uri) as [l'|] eqn:Hfind.
  - intros [= ->]. left. apply findSubstr_elem in Hfind as [k Hk].
    exists k. destruct (inv_map _ _ Hinv k l Hk). done.
  - destruct (_allowOtherResults h); [|done]. intros Ho. right.
    repeat split; [done|]. by apply (inv_other _ _ Hinv).
Qed.

Lemma classify_root σ h file r :
  hinv σ h → classify σ h file = Some (Some r) →
  ∃ l, getFolderMatch h (resource file) = Some l ∧ (r, l) ∈ _folderMatchesMap h ∧
       l ∈ _folderMatches h ∧ resourceAt σ l = Some (Some r).
Proof.
  intros Hinv. unfold classify.
  destruct (getFolderMatch h (resource file)) as [l|] eqn:Hget; [|done]. simpl.
  intros Hr. exists l. split; [done|].
  destruct (getFolderMatch_Some _ _ _ _ Hinv Hget) as [(k & Hk & Hl & Hres)|(_ & _ & _ & Hres)];
    rewrite Hres in Hr; simplify_eq. done.
Qed.

Lemma classify_miss σ h file :
  hinv σ h → classify σ h file = None ↔ getFolderMatch h (resource file) = None.
Proof.
  intros Hinv. unfold classify.
  destruct (getFolderMatch h (resource file)) as [l|] eqn:Hget; [|done]. simpl.
  destruct (getFolderMatch_Some _ _ _ _ Hinv Hget) as [(k & _ & _ & ->)|(_ & _ & _ & ->)]; done.
Qed.

(** *** [groupFilesByFolder] *)

Lemma emptyBuckets_spec σ h :
  hinv σ h →
  ∃ rawPerFolder, emptyBuckets σ h = Some rawPerFolder ∧
    (∀ r, r ∈ fst <$> rawPerFolder ↔ rootsOf σ h r) ∧
    (∀ r bucket, alist_get r rawPerFolder = Some bucket → bucket = []).
Proof.
  intros Hinv. unfold emptyBuckets, rootsOf.
  pose proof (inv_roots _ _ Hinv) as Hroots. revert Hroots.
  generalize (_folderMatches h). intros ls.
  induction ls as [|l ls IH] using rev_ind; intros Hroots.
  - exists []. split; [done|]. split; [|done].
    intros r. split; [by intros ?%elem_of_nil | by intros (l & ?%elem_of_nil & _)].
  - destruct IH as (acc & Hacc & Hkeys & Hempty); [intros l' Hl'; apply Hroots; set_solver|].
    destruct (Hroots l) as [r Hr]; [set_solver|].
    rewrite foldl_app. simpl. rewrite Hacc. simpl.
    unfold resourceAt in Hr. destruct (σ !! l) as [fm|] eqn:Hl; [|done].
    simpl in *. injection Hr as Hr. rewrite Hr. simpl.
    eexists. split; [done|]. split.
    + intros r'. rewrite alist_set_keys, Hkeys. split.
      * intros [->|(l' & Hl' & Hr')].
        -- exists l. split; [set_solver|]. unfold resourceAt. by rewrite Hl; simpl; rewrite Hr.
        -- exists l'. split; [set_solver | done].
      * intros (l' & [Hl'|Hl']%elem_of_app & Hr'); [right; eauto|].
        apply list_elem_of_singleton in Hl' as ->. left. unfold resourceAt in Hr'. rewrite Hl in Hr'. simpl in Hr'. congruence.
    + intros r' bucket. destruct (decide (r = r')) as [->|Hne].
      * rewrite alist_get_set_eq. by intros [= <-].
      * rewrite alist_get_set_ne by done. apply Hempty.
Qed.

Lemma groupStep_spec σ h (rawPerFolder : list (URI * list IFileMatch)) other file :
  hinv σ h →
  (∀ r, rootsOf σ h r → r ∈ fst <$> rawPerFolder) →
  ∃ rawPerFolder' other',
    groupStep σ h (Some (rawPerFolder, other)) file = Some (rawPerFolder', other') ∧
    other' = (if decide (classify σ h file = Some None) then other ++ [file] else other) ∧
    fst <$> rawPerFolder' = fst <$> rawPerFolder ∧
    (∀ r, alist_get r rawPerFolder' =
          if decide (classify σ h file = Some (Some r))
          then (λ b, b ++ [file]) <$> alist_get r rawPerFolder
          else alist_get r rawPerFolder).
Proof.
  intros Hinv Hkeys. unfold groupStep, classify. cbn [mbind option_bind].
  destruct (getFolderMatch h (resource file)) as [l|] eqn:Hget; cbn [mbind option_bind].
  - destruct (getFolderMatch_Some _ _ _ _ Hinv Hget) as [(k & Hk & Hl & Hres)|(_ & _ & _ & Hres)].
    + rewrite Hres. unfold resourceAt in Hres.
      destruct (σ !! l) as [fm|]; [|done]. cbn in Hres. injection Hres as Hres.
      cbn [mbind option_bind]. rewrite Hres.
      assert (Hin : k ∈ fst <$> rawPerFolder).
      { apply Hkeys. exists l. split; [done|]. by apply (inv_map σ h Hinv k l). }
      destruct (proj2 (alist_get_is_Some k rawPerFolder) Hin) as [bucket Hbucket].
      rewrite Hbucket. cbn [mbind option_bind]. eexists _, _. split; [done|].
      rewrite decide_False by done. split; [done|].
      split; [by apply alist_set_keys_same|].
      intros r. destruct (decide (k = r)) as [->|Hne].
      * rewrite alist_get_set_eq, Hbucket, decide_True by done. done.
      * rewrite alist_get_set_ne by done. by rewrite decide_False by congruence.
    + rewrite Hres. unfold resourceAt in Hres.
      destruct (σ !! l) as [fm|]; [|done]. cbn in Hres. injection Hres as Hres.
      cbn [mbind option_bind]. rewrite Hres.
      eexists _, _. split; [done|]. rewrite decide_True by done.
      split; [done|]. split; [done|]. intros r. by rewrite decide_False by done.
  - eexists _, _. split; [done|]. rewrite decide_False by done.
    split; [done|]. split; [done|].
    intros r. by rewrite decide_False by done.
Qed.

Lemma groupFold_spec σ h fileMatches : ∀ (rawPerFolder : list (URI * list IFileMatch)) other,
  hinv σ h →
  (∀ r, rootsOf σ h r → r ∈ fst <$> rawPerFolder) →
  ∃ rawPerFolder' other',
    foldl (groupStep σ h) (Some (rawPerFolder, other)) fileMatches = Some (rawPerFolder', other') ∧
    other' = other ++ filter (λ x, classify σ h x = Some None) fileMatches ∧
    fst <$> rawPerFolder' = fst <$> rawPerFolder ∧
    (∀ r, alist_get r rawPerFolder' =
          (λ b, b ++ filter (λ x, classify σ h x = Some (Some r)) fileMatches)
            <$> alist_get r rawPerFolder).
Proof.
  induction fileMatches as [|file fileMatches IH]; intros rawPerFolder other Hinv Hkeys.
  - exists rawPerFolder, other. split; [done|]. split; [by rewrite app_nil_r|]. split; [done|].
    intros r. destruct (alist_get r rawPerFolder); simpl; [by rewrite app_nil_r | done].
  - destruct (groupStep_spec σ h rawPerFolder other file Hinv Hkeys)
      as (bf1 & ot1 & Hstep & Hot1 & Hk1 & Hb1).
    destruct (IH bf1 ot1 Hinv) as (bf2 & ot2 & Hfold & Hot2 & Hk2 & Hb2).
    { intros r Hr. rewrite Hk1. by apply Hkeys. }
    exists bf2, ot2. cbn [foldl]. rewrite Hstep. split; [done|].
    split.
    { rewrite Hot2, Hot1, filter_cons.
      destruct (decide (classify σ h file = Some None)); [by rewrite <- app_assoc | done]. }
    split; [congruence|].
    intros r. rewrite Hb2, Hb1.
    destruct (alist_get r rawPerFolder) as [b|]; simpl; rewrite ?filter_cons;
      destruct (decide (classify σ h file = Some (Some r))); simpl; try done.
    by rewrite <- app_assoc.
Qed.

(** Under the invariant [groupFilesByFolder] does not throw: there is one
    bucket per root of the heading, each file match is in the bucket of the
    root it resolves to or in [other], in the order given. *)
Lemma groupFilesByFolder_spec σ h fileMatches :
  hinv σ h →
  ∃ byFolder other,
    groupFilesByFolder σ h fileMatches = Some (byFolder, other) ∧
    other = filter (λ x, classify σ h x = Some None) fileMatches ∧
    (∀ r, r ∈ fst <$> byFolder ↔ rootsOf σ h r) ∧
    (∀ r, r ∈ fst <$> byFolder →
          alist_get r byFolder = Some (filter (λ x, classify σ h x = Some (Some r)) fileMatches)).
Proof.
  intros Hinv. unfold groupFilesByFolder.
  destruct (emptyBuckets_spec σ h Hinv) as (bf0 & -> & Hkeys0 & Hempty0). simpl.
  destruct (groupFold_spec σ h fileMatches bf0 [] Hinv) as (bf & ot & -> & Hot & Hk & Hb).
  { intros r Hr. by apply Hkeys0. }
  exists bf, ot. split; [done|]. split; [done|]. split.
  - intros r. rewrite Hk. apply Hkeys0.
  - intros r Hr. rewrite Hb. rewrite Hk in Hr.
    destruct (proj2 (alist_get_is_Some r bf0) Hr) as [b Hb0]. rewrite Hb0.
    by rewrite (Hempty0 _ _ Hb0).
Qed.

(** *** The methods of a heading keep the invariant *)

Lemma hinv_fields σ h h' :
  _folderMatches h' = _folderMatches h →
  _otherFilesMatch h' = _otherFilesMatch h →
  _folderMatchesMap h' = _folderMatchesMap h →
  hinv σ h → hinv σ h'.
Proof.
  intros H1 H2 H3 Hinv. split; rewrite ?H1, ?H2, ?H3; apply Hinv.
Qed.

Lemma hinv_empty σ h :
  _folderMatches h = [] → _folderMatchesMap h = [] →
  (∀ o, _otherFilesMatch h = Some o → resourceAt σ o = Some None) →
  hinv σ h.
Proof.
  intros H1 H3 H2. split; rewrite ?H1, ?H3; try done.
  - by intros l ?%elem_of_nil.
  - by intros k l ?%elem_of_nil.
  - apply NoDup_nil_2.
  - apply NoDup_nil_2.
Qed.

Lemma perFolder_evolves (method : list IFileMatch → FolderMatch → FolderMatch) h byFolder σ :
  (∀ ms, keepsResource (method ms)) → evolves σ (perFolder method h byFolder σ).
Proof.
  intros Hm. unfold perFolder. revert σ.
  induction byFolder as [|[r bucket] byFolder IH]; intros σ; [apply evolves_refl|].
  cbn [foldl]. eapply evolves_trans; [|apply IH]. simpl.
  destruct bucket as [|first rest]; [apply evolves_refl|].
  destruct (getFolderMatch h (resource first)); auto with search.
Qed.

Lemma runDisposePastResults_evolves h σ : evolves σ (runDisposePastResults h σ).
Proof.
  unfold runDisposePastResults.
  apply (evolves_trans _ (forEach clearFolder (disposePastResults h) σ)); auto with search.
Qed.

Lemma add_spec σ h allRaw searchInstanceID ai silent :
  hinv σ h →
  ∃ σ', add σ h allRaw searchInstanceID ai silent = Some (σ', h) ∧ evolves σ σ'.
Proof.
  intros Hinv. unfold add.
  destruct (groupFilesByFolder_spec σ h allRaw Hinv) as (byFolder & other & -> & _).
  simpl. eexists. split; [done|].
  eapply evolves_trans; [|apply runDisposePastResults_evolves].
  eapply evolves_trans; [apply (perFolder_evolves addFileMatch h byFolder); auto with search|].
  destruct ai; [apply evolves_refl|].
  destruct (_otherFilesMatch h); auto with search.
Qed.

Lemma remove_spec σ h ms ai :
  hinv σ h →
  ∃ σ', remove σ h ms ai = Some (σ', h) ∧ evolves σ σ'.
Proof.
  intros Hinv. unfold remove.
  assert (Hev1 : evolves σ (forEach clearFolder (omap folderOf ms) σ)) by auto with search.
  pose proof (hinv_evolves _ _ _ Hinv Hev1) as Hinv1.
  destruct (groupFilesByFolder_spec _ h (omap fileOf ms) Hinv1) as (byFolder & other & -> & _).
  simpl. eexists. split; [done|].
  eapply evolves_trans; [exact Hev1|].
  eapply evolves_trans; [apply (perFolder_evolves removeFiles h byFolder); auto with search|].
  destruct other as [|first rest]; [apply evolves_refl|].
  destruct (getFolderMatch h (resource first)); auto with search.
Qed.

Lemma clear_spec σ h :
  hinv (clear σ h).1 (clear σ h).2 ∧ evolves σ (clear σ h).1.
Proof.
  unfold clear, disposeMatches. simpl. split.
  - by apply hinv_empty.
  - apply (evolves_trans _ (forEach clearFolder (folderMatches h) σ)); auto with search.
Qed.

Lemma dispose_spec σ h :
  hinv σ h → hinv (dispose σ h).1 (dispose σ h).2 ∧ evolves σ (dispose σ h).1.
Proof.
  intros Hinv. unfold dispose, disposeMatches. cbn [fst snd].
  set (σ1 := forEach disposeFolder (folderMatches h) σ).
  set (h1 := mkHeading _ _ _ _ _ _ _ _ _ _).
  assert (Hev : evolves σ (runDisposePastResults h1 σ1)).
  { apply (evolves_trans _ σ1); [apply evolves_forEach, keeps_disposeFolder|].
    apply runDisposePastResults_evolves. }
  split; [|done]. apply hinv_empty; [done | done |].
  intros o Ho. rewrite Hev; [by apply (inv_other σ h Hinv)|].
  eapply resourceAt_lt. by apply (inv_other σ h Hinv).
Qed.

Lemma hide_spec σ h :
  hinv (hide σ h).1 (hide σ h).2 ∧ evolves σ (hide σ h).1.
Proof. unfold hide. apply clear_spec. Qed.

Lemma foldl_alist_set_elem {V} (entries : list (URI * V)) : ∀ (m : list (URI * V)) k v,
  (k, v) ∈ foldl (λ m entry, alist_set entry.1 entry.2 m) m entries →
  (k, v) ∈ m ∨ (k, v) ∈ entries.
Proof.
  induction entries as [|[k0 v0] entries IH]; intros m k v; simpl; [by left|].
  intros [Hin|Hin]%IH; [|right; by right].
  apply alist_set_elem in Hin as [->|Hin]; [right; by left | by left].
Qed.

Lemma foldl_alist_set_NoDup {V} (entries : list (URI * V)) : ∀ (m : list (URI * V)),
  NoDup (fst <$> m) →
  NoDup (fst <$> foldl (λ m entry, alist_set entry.1 entry.2 m) m entries).
Proof.
  induction entries as [|[k0 v0] entries IH]; intros m Hnd; simpl; [done|].
  by apply IH, alist_set_NoDup.
Qed.

Lemma created_resourceAt σ (q : ITextQuery) (id : HeadingId) (roots : list URI) i r :
  roots !! i = Some r →
  resourceAt (σ ++ imap (λ index root,
                createBaseFolderMatch (Some root) (uriToString root) index q id) roots)
             (length σ + i) = Some (Some r).
Proof.
  intros Hi. unfold resourceAt.
  rewrite lookup_app_r by lia.
  replace (length σ + i - length σ) with i by lia.
  by rewrite list_lookup_imap, Hi.
Qed.

Lemma setQuery_spec σ h q :
  hinv σ h →
  hinv (setQuery σ h q).1 (setQuery σ h q).2 ∧ evolves σ (setQuery σ h q).1.
Proof.
  intros Hinv. destruct q as [q|]; simpl.
  2:{ split; [|apply evolves_refl]. split; simpl; try apply Hinv.
      - by intros k l ?%elem_of_nil.
      - apply NoDup_nil_2. }
  set (roots := folderQueries q).
  set (created := imap _ roots).
  set (locs := seq (length σ) (length roots)).
  set (map := foldl _ [] (zip roots locs)).
  assert (Hlocs : ∀ l, l ∈ locs → ∃ r, resourceAt (σ ++ created) l = Some (Some r)).
  { intros l [Hge Hlt]%elem_of_seq.
    destruct (lookup_lt_is_Some_2 roots (l - length σ)) as [r Hr]; [lia|].
    exists r. replace l with (length σ + (l - length σ)) by lia.
    by apply created_resourceAt. }
  assert (Hmap : ∀ k l, (k, l) ∈ map → l ∈ locs ∧ resourceAt (σ ++ created) l = Some (Some k)).
  { intros k l Hkl. apply foldl_alist_set_elem in Hkl as [?%elem_of_nil|Hkl]; [done|].
    apply elem_of_lookup_zip_with in Hkl as (i & k' & l' & [= <- <-] & Hk & Hl).
    split; [by eapply list_elem_of_lookup_2|].
    apply lookup_seq in Hl as [-> _]. by apply created_resourceAt. }
  assert (Hnd : NoDup (fst <$> map)).
  { apply foldl_alist_set_NoDup. apply NoDup_nil_2. }
  destruct (_allowOtherResults h) eqn:Hallow; simpl.
  - split; [|by eapply evolves_trans; apply evolves_app].
    split; simpl.
    + intros l Hl. destruct (Hlocs l Hl) as [r Hr]. exists r.
      rewrite (evolves_app (σ ++ created)); [done | by eapply resourceAt_lt].
    + intros o [= <-]. unfold resourceAt. rewrite lookup_app_r by lia.
      by rewrite Nat.sub_diag.
    + intros k l Hkl. destruct (Hmap k l Hkl) as [Hl Hr]. split; [done|].
      rewrite (evolves_app (σ ++ created)); [done | by eapply resourceAt_lt].
    + apply NoDup_seq.
    + done.
  - split; [|apply evolves_app].
    split; simpl; [done | | done | apply NoDup_seq | done].
    intros o Ho. rewrite (evolves_app σ); [by apply Hinv|].
    eapply resourceAt_lt. by apply (inv_other _ _ Hinv).
Qed.

Lemma headingStep_spec σ h (o : headingOp) :
  hinv σ h →
  ∃ r, headingStep σ h o = Some r ∧ hinv r.1 r.2 ∧ evolves σ r.1.
Proof.
  intros Hinv. destruct o as [q|allRaw searchInstanceID ai silent|ms ai| | |uri range|c|b|]; simpl.
  - eexists. split; [done|]. by apply setQuery_spec.
  - destruct (add_spec σ h allRaw searchInstanceID ai silent Hinv) as (σ' & -> & Hev).
    eexists. split; [done|]. split; [by eapply hinv_evolves | done].
  - destruct (remove_spec σ h ms ai Hinv) as (σ' & -> & Hev).
    eexists. split; [done|]. split; [by eapply hinv_evolves | done].
  - eexists. split; [done|]. apply clear_spec.
  - eexists. split; [done|]. apply hide_spec.
  - eexists. split; [done|]. split; [by apply (hinv_fields σ h) | apply evolves_refl].
  - eexists. split; [done|]. split; [by apply (hinv_fields σ h) | apply evolves_refl].
  - eexists. split; [done|]. split; [by apply (hinv_fields σ h) | apply evolves_refl].
  - eexists. split; [done|]. by apply dispose_spec.
Qed.

(** *** The methods of the search result keep the invariant *)

Lemma update_sinv sr id (r : list FolderMatch * TextSearchHeading) :
  sinv sr → hinv r.1 r.2 → evolves (folders sr) r.1 → sinv (update sr id r).
Proof.
  intros [Hp Ha] Hr Hev. destruct id; split; simpl; try done; by eapply hinv_evolves.
Qed.

Lemma update_evolves sr id (r : list FolderMatch * TextSearchHeading) :
  evolves (folders sr) r.1 → evolves (folders sr) (folders (update sr id r)).
Proof. by destruct id. Qed.

Lemma sinv_heading sr id : sinv sr → hinv (folders sr) (heading sr id).
Proof. intros [Hp Ha]. by destruct id. Qed.

Lemma onHeading_spec sr id (o : headingOp) :
  sinv sr →
  ∃ r, headingStep (folders sr) (heading sr id) o = Some r ∧
       sinv (update sr id r) ∧ evolves (folders sr) (folders (update sr id r)).
Proof.
  intros Hinv.
  destruct (headingStep_spec _ _ o (sinv_heading sr id Hinv)) as (r & Hr & Hh & Hev).
  exists r. split; [done|]. split; [by apply update_sinv | by apply update_evolves].
Qed.

Lemma setQueryResult_sinv sr q : sinv sr → sinv (setQueryResult sr q).
Proof.
  intros Hinv. unfold setQueryResult.
  destruct (onHeading_spec sr PLAIN_TEXT_SEARCH__RESULT_ID (HSetQuery q) Hinv)
    as (r1 & [= <-] & Hinv1 & _).
  destruct (onHeading_spec _ AI_TEXT_SEARCH_RESULT_ID (HSetQuery q) Hinv1)
    as (r2 & [= <-] & Hinv2 & _).
  exact Hinv2.
Qed.

Lemma unhide_sinv sr :
  sinv sr →
  sinv (mkResult (folders sr) (setHidden (_plainTextSearchResult sr) false)
          (setHidden (_aiTextSearchResult sr) false) (_onChange sr)).
Proof.
  intros [Hp Ha]. split; simpl.
  - by apply (hinv_fields _ (_plainTextSearchResult sr)).
  - by apply (hinv_fields _ (_aiTextSearchResult sr)).
Qed.

Lemma addResult_spec sr allRaw searchInstanceID ai silent :
  sinv sr → ∃ sr', addResult sr allRaw searchInstanceID ai silent = Some sr' ∧ sinv sr'.
Proof.
  intros Hinv%unhide_sinv. unfold addResult.
  destruct ai.
  - destruct (onHeading_spec _ AI_TEXT_SEARCH_RESULT_ID
                (HAdd allRaw searchInstanceID true silent) Hinv) as (r & Hr & Hinv' & _).
    cbn [headingStep heading folders _aiTextSearchResult] in Hr.
    cbn [folders _aiTextSearchResult]. rewrite Hr. by eexists.
  - destruct (onHeading_spec _ PLAIN_TEXT_SEARCH__RESULT_ID
                (HAdd allRaw searchInstanceID false silent) Hinv) as (r & Hr & Hinv' & _).
    cbn [headingStep heading folders _plainTextSearchResult] in Hr.
    cbn [folders _plainTextSearchResult]. rewrite Hr. by eexists.
Qed.

Lemma clearResult_sinv sr : sinv sr → sinv (clearResult sr).
Proof.
  intros Hinv. unfold clearResult.
  destruct (onHeading_spec sr AI_TEXT_SEARCH_RESULT_ID HClear Hinv) as (r1 & [= <-] & Hinv1 & _).
  destruct (onHeading_spec _ PLAIN_TEXT_SEARCH__RESULT_ID HClear Hinv1) as (r2 & [= <-] & Hinv2 & _).
  exact Hinv2.
Qed.

Lemma removeResult_spec sr ms ai :
  sinv sr → ∃ sr', removeResult sr ms ai = Some sr' ∧ sinv sr'.
Proof.
  intros Hinv. unfold removeResult.
  assert (∃ sr1, (if ai then update sr AI_TEXT_SEARCH_RESULT_ID
                        <$> remove (folders sr) (_aiTextSearchResult sr) ms ai
                  else Some sr) = Some sr1 ∧ sinv sr1) as (sr1 & -> & Hinv1).
  { destruct ai; [|by eexists].
    destruct (onHeading_spec sr AI_TEXT_SEARCH_RESULT_ID (HRemove ms true) Hinv)
      as (r & Hr & Hinv' & _).
    simpl in Hr. rewrite Hr. by eexists. }
  simpl.
  destruct (onHeading_spec sr1 PLAIN_TEXT_SEARCH__RESULT_ID (HRemove ms ai) Hinv1)
    as (r & Hr & Hinv' & _).
  simpl in Hr. rewrite Hr. by eexists.
Qed.

Lemma disposeResult_sinv sr : sinv sr → sinv (disposeResult sr).
Proof.
  intros Hinv. unfold disposeResult.
  destruct (onHeading_spec sr AI_TEXT_SEARCH_RESULT_ID HDispose Hinv) as (r1 & [= <-] & Hinv1 & _).
  destruct (onHeading_spec _ PLAIN_TEXT_SEARCH__RESULT_ID HDispose Hinv1) as (r2 & [= <-] & Hinv2 & _).
  exact Hinv2.
Qed.

Lemma withEmitter_sinv e sr : sinv sr → sinv (withEmitter e sr).
Proof. done. Qed.

Lemma batchRemoveStep_sinv (acc : SearchResult * list RenderableMatch) element :
  sinv acc.1 → sinv (batchRemoveStep acc element).1.
Proof.
  destruct acc as [sr removed]. simpl. intros Hinv.
  destruct (arrayContainsElementOrParent _ _ _); [done|].
  destruct element; simpl; try done.
  - destruct (onHeading_spec sr id HHide Hinv) as (r & [= <-] & Hinv' & _). done.
  - by destruct (bool_decide _).
Qed.

Lemma batchRemove_sinv sr elements : sinv sr → sinv (batchRemove sr elements).
Proof.
  intros Hinv. unfold batchRemove.
  assert (Hgen : ∀ acc, sinv acc.1 → sinv (foldl batchRemoveStep acc elements).1).
  { induction elements as [|e elements IH]; intros acc Hacc; [done|].
    cbn [foldl]. by apply IH, batchRemoveStep_sinv. }
  specialize (Hgen (withEmitter (pause (_onChange sr)) sr, []) Hinv).
  destruct (foldl _ _ _) as [sr2 removed]. done.
Qed.

Lemma replaceAll_spec σ h outcome :
  hinv σ h →
  hinv (replaceAll σ h outcome).1.1 (replaceAll σ h outcome).1.2 ∧
  evolves σ (replaceAll σ h outcome).1.1.
Proof.
  intros Hinv. unfold replaceAll, replaceAllBegin, replaceAllSettle, setReplacingAllOf. simpl.
  set (σ1 := forEach (setReplacingAll true) (folderMatches h) σ).
  set (σ2 := forEach (setReplacingAll false) (folderMatches h) σ1).
  assert (Hev : evolves σ σ2).
  { apply (evolves_trans _ σ1); unfold σ1, σ2; auto with search. }
  destruct outcome; simpl.
  - destruct (clear_spec σ2 h) as [Hc Hevc]. split; [done | by eapply evolves_trans].
  - split; [by eapply hinv_evolves | done].
Qed.

Lemma replaceAllResult_sinv sr outcome : sinv sr → sinv (replaceAllResult sr outcome).1.
Proof.
  intros Hinv. unfold replaceAllResult.
  destruct (replaceAll_spec (folders sr) (_plainTextSearchResult sr) outcome) as [Hh Hev];
    [apply Hinv|].
  destruct (replaceAll _ _ _) as [r replaced]. cbn [fst snd] in *.
  by apply (update_sinv sr PLAIN_TEXT_SEARCH__RESULT_ID r).
Qed.

Lemma step_spec sr (o : op) : sinv sr → ∃ sr', step sr o = Some sr' ∧ sinv sr'.
Proof.
  intros Hinv. destruct o as [l o|id o|q|allRaw searchInstanceID ai silent|ms ai| |elements|outcome|];
    simpl.
  - eexists. split; [done|]. destruct Hinv as [Hp Ha].
    assert (Hev : evolves (folders sr) (alter (folderStep o) l (folders sr)))
      by (apply evolves_alter; by destruct o).
    split; simpl; by eapply hinv_evolves.
  - destruct (onHeading_spec sr id o Hinv) as (r & -> & Hinv' & _). by eexists.
  - eexists. split; [done|]. by apply setQueryResult_sinv.
  - by apply addResult_spec.
  - by apply removeResult_spec.
  - eexists. split; [done|]. by apply clearResult_sinv.
  - eexists. split; [done|]. by apply batchRemove_sinv.
  - eexists. split; [done|]. by apply replaceAllResult_sinv.
  - eexists. split; [done|]. by apply disposeResult_sinv.
Qed.

Lemma newSearchResult_sinv : sinv newSearchResult.
Proof. split; by apply hinv_empty. Qed.

(** No call throws, and every state a client reaches satisfies the
    invariant. *)
Lemma run_spec (ops : list op) : ∃ sr, run ops = Some sr ∧ sinv sr.
Proof.
  unfold run. induction ops as [|o ops IH] using rev_ind.
  - exists newSearchResult. split; [done | apply newSearchResult_sinv].
  - destruct IH as (sr & Hsr & Hinv). rewrite foldl_app. simpl. rewrite Hsr. simpl.
    by apply step_spec.
Qed.

Lemma run_sinv (ops : list op) sr : run ops = Some sr → sinv sr.
Proof. intros Hrun. destruct (run_spec ops) as (sr' & Hsr' & Hinv). congruence. Qed.

(** *** Fields that a method leaves alone *)

Lemma alter_keeps {A} (g : FolderMatch → A) f l σ l' :
  (∀ fm, g (f fm) = g fm) → g <$> alter f l σ !! l' = g <$> σ !! l'.
Proof.
  intros Hg. destruct (decide (l = l')) as [->|].
  - rewrite list_lookup_alter_eq. destruct (σ !! l'); simpl; [by rewrite Hg | done].
  - by rewrite list_lookup_alter_ne.
Qed.

Lemma forEach_keeps {A} (g : FolderMatch → A) f targets σ l :
  (∀ fm, g (f fm) = g fm) → g <$> forEach f targets σ !! l = g <$> σ !! l.
Proof.
  intros Hg. rewrite forEach_lookup. destruct (σ !! l); [|done].
  simpl. f_equal. by apply iter_keeps.
Qed.

Lemma perFolder_keeps {A} (g : FolderMatch → A)
    (method : list IFileMatch → FolderMatch → FolderMatch) h byFolder σ l :
  (∀ ms fm, g (method ms fm) = g fm) →
  g <$> perFolder method h byFolder σ !! l = g <$> σ !! l.
Proof.
  intros Hg. unfold perFolder. revert σ.
  induction byFolder as [|[r bucket] byFolder IH]; intros σ; [done|].
  cbn [foldl]. rewrite IH. simpl.
  destruct bucket as [|first rest]; [done|].
  destruct (getFolderMatch h (resource first)); [|done].
  by apply alter_keeps.
Qed.

(** A [forEach] of [perFolder] that does not aim at [l] leaves [l] as it
    is. *)
Lemma perFolder_lookup_other (method : list IFileMatch → FolderMatch → FolderMatch)
    h byFolder σ l :
  (∀ r first rest l', (r, first :: rest) ∈ byFolder →
     getFolderMatch h (resource first) = Some l' → l' ≠ l) →
  perFolder method h byFolder σ !! l = σ !! l.
Proof.
  unfold perFolder. revert σ.
  induction byFolder as [|[r bucket] byFolder IH]; intros σ Hne; [done|].
  cbn [foldl]. rewrite IH by (intros r0 f0 rest0 l0 Hin; apply (Hne r0 f0 rest0 l0); by right). simpl.
  destruct bucket as [|first rest]; [done|].
  destruct (getFolderMatch h (resource first)) as [l'|] eqn:Hget; [|done].
  apply list_lookup_alter_ne. apply (Hne r first rest l'); [by left | done].
Qed.

Lemma iter_clearFolder n fm :
  clearCalls (Nat.iter n clearFolder fm) = clearCalls fm + n ∧
  disposeCalls (Nat.iter n clearFolder fm) = disposeCalls fm ∧
  fileMatches (Nat.iter n clearFolder fm) = (if n is 0 then fileMatches fm else []).
Proof.
  induction n as [|n (IH1 & IH2 & IH3)]; simpl; [by rewrite Nat.add_0_r|].
  rewrite IH1, IH2. split; [lia | done].
Qed.

Lemma iter_disposeFolder n fm :
  clearCalls (Nat.iter n disposeFolder fm) = clearCalls fm ∧
  disposeCalls (Nat.iter n disposeFolder fm) = disposeCalls fm + n ∧
  fileMatches (Nat.iter n disposeFolder fm) = fileMatches fm.
Proof.
  induction n as [|n (IH1 & IH2 & IH3)]; simpl; [by rewrite Nat.add_0_r|].
  rewrite IH1, IH2, IH3. split; [done | split; [lia | done]].
Qed.

(** What calling [disposePastResults] does to the folder match at [l]. *)
Lemma runDisposePastResults_at h σ l :
  l < length σ →
  clearCallsAt (runDisposePastResults h σ) l
    = clearCallsAt σ l + occurrences l (disposePastResults h) ∧
  disposeCallsAt (runDisposePastResults h σ) l
    = disposeCallsAt σ l + occurrences l (disposePastResults h) ∧
  filesAt (runDisposePastResults h σ) l
    = (if occurrences l (disposePastResults h) is 0 then filesAt σ l else []).
Proof.
  intros Hl. unfold clearCallsAt, disposeCallsAt, filesAt, runDisposePastResults.
  rewrite !forEach_lookup.
  destruct (lookup_lt_is_Some_2 σ l Hl) as [fm ->]. simpl.
  destruct (iter_disposeFolder (occurrences l (disposePastResults h))
              (Nat.iter (occurrences l (disposePastResults h)) clearFolder fm)) as (-> & -> & ->).
  destruct (iter_clearFolder (occurrences l (disposePastResults h)) fm) as (-> & -> & ->).
  done.
Qed.

Lemma occurrences_0 l targets : occurrences l targets = 0 ↔ l ∉ targets.
Proof.
  unfold occurrences. induction targets as [|t targets IH].
  - split; [intros _; apply not_elem_of_nil | done].
  - rewrite filter_cons, not_elem_of_cons. destruct (decide (t = l)) as [->|Hne]; simpl.
    + split; [done | by intros [? _]].
    + rewrite IH. naive_solver.
Qed.

(** *** Buckets of [groupFilesByFolder] *)

Lemma alist_get_elem {V} (k : URI) (v : V) (m : list (URI * V)) :
  alist_get k m = Some v → (k, v) ∈ m.
Proof.
  induction m as [|[k0 v0] m IH]; simpl; [done|].
  destruct (decide (k0 = k)) as [->|Hne].
  - intros [= ->]. by left.
  - intros Hget. right. by apply IH.
Qed.

Lemma alist_elem_get {V} (k : URI) (v : V) (m : list (URI * V)) :
  NoDup (fst <$> m) → (k, v) ∈ m → alist_get k m = Some v.
Proof.
  intros Hnd Hin. destruct (alist_get k m) as [v'|] eqn:Hget.
  - apply alist_get_elem in Hget. f_equal. by eapply alist_NoDup_inj.
  - assert (Hsome : is_Some (alist_get k m)).
    { apply alist_get_is_Some, list_elem_of_fmap. by exists (k, v). }
    rewrite Hget in Hsome. by destruct Hsome.
Qed.

Lemma emptyBuckets_NoDup σ h rawPerFolder :
  emptyBuckets σ h = Some rawPerFolder → NoDup (fst <$> rawPerFolder).
Proof.
  unfold emptyBuckets. generalize (_folderMatches h). intros ls. revert rawPerFolder.
  induction ls as [|l ls IH] using rev_ind; intros bf.
  - intros [= <-]. apply NoDup_nil_2.
  - rewrite foldl_app. simpl.
    destruct (foldl _ _ ls) as [acc|]; [|done]. simpl.
    destruct (σ !! l) as [fm|]; [|done]. simpl.
    destruct (fm_resource fm) as [r|]; [|done]. simpl.
    intros [= <-]. by apply alist_set_NoDup, IH.
Qed.

Lemma groupFilesByFolder_buckets σ h fileMatches byFolder other :
  hinv σ h → groupFilesByFolder σ h fileMatches = Some (byFolder, other) →
  other = filter (λ x, classify σ h x = Some None) fileMatches ∧
  (∀ r, rootsOf σ h r → r ∈ fst <$> byFolder) ∧
  (∀ r bucket, (r, bucket) ∈ byFolder ↔
     alist_get r byFolder = Some bucket) ∧
  (∀ r bucket, alist_get r byFolder = Some bucket →
     bucket = filter (λ x, classify σ h x = Some (Some r)) fileMatches).
Proof.
  intros Hinv Hgroup.
  destruct (groupFilesByFolder_spec σ h fileMatches Hinv) as (bf & ot & Heq & Hot & Hkeys & Hb).
  rewrite Hgroup in Heq. injection Heq as <- <-.
  assert (Hnd : NoDup (fst <$> byFolder)).
  { unfold groupFilesByFolder in Hgroup.
    destruct (emptyBuckets σ h) as [bf0|] eqn:Hbf0; [|done]. simpl in Hgroup.
    destruct (groupFold_spec σ h fileMatches bf0 [] Hinv) as (bf & ot & Hfold & _ & Hk & _).
    { destruct (emptyBuckets_spec σ h Hinv) as (bf0' & Hbf0' & Hk0 & _).
      rewrite Hbf0 in Hbf0'. injection Hbf0' as <-. intros r Hr. by apply Hk0. }
    rewrite Hgroup in Hfold. injection Hfold as <- <-. rewrite Hk.
    by eapply emptyBuckets_NoDup. }
  split; [done|]. split; [intros r Hr; by apply Hkeys|]. split.
  - intros r bucket. split; [by apply alist_elem_get | apply alist_get_elem].
  - intros r bucket Hget.
    assert (Hin : r ∈ fst <$> byFolder) by (apply alist_get_is_Some; eauto).
    rewrite (Hb r Hin) in Hget. by injection Hget as <-.
Qed.

Lemma foldl_None (σ : list FolderMatch) (h : TextSearchHeading) (fileMatches : list IFileMatch) :
  foldl (groupStep σ h) None fileMatches = None.
Proof. by induction fileMatches. Qed.

Lemma groupStep_other σ h (rawPerFolder : list (URI * list IFileMatch)) other x :
  classify σ h x = Some None →
  groupStep σ h (Some (rawPerFolder, other)) x = Some (rawPerFolder, other ++ [x]).
Proof.
  unfold classify, groupStep, resourceAt. cbn [mbind option_bind].
  destruct (getFolderMatch h (resource x)) as [l|]; [|done]. cbn [mbind option_bind].
  destruct (σ !! l) as [fm|]; [|done]. cbn.
  by destruct (fm_resource fm).
Qed.

Lemma groupStep_not_other σ h (rawPerFolder : list (URI * list IFileMatch)) x :
  classify σ h x ≠ Some None →
  ∃ res : option (list (URI * list IFileMatch)),
    ∀ other, groupStep σ h (Some (rawPerFolder, other)) x = (λ bf, (bf, other)) <$> res.
Proof.
  unfold classify, groupStep, resourceAt. cbn [mbind option_bind].
  destruct (getFolderMatch h (resource x)) as [l|]; cbn [mbind option_bind].
  - destruct (σ !! l) as [fm|]; cbn; [|by exists None].
    destruct (fm_resource fm) as [r|]; [|done]. intros _.
    destruct (alist_get r rawPerFolder) as [bucket|]; cbn; [|by exists None].
    by eexists (Some _).
  - intros _. by exists (Some rawPerFolder).
Qed.

(** File matches for the "other" list change nothing but that list. *)
Lemma groupFold_without_other σ h fileMatches :
  ∀ (rawPerFolder : list (URI * list IFileMatch)) other other',
  fst <$> foldl (groupStep σ h) (Some (rawPerFolder, other)) fileMatches =
  fst <$> foldl (groupStep σ h) (Some (rawPerFolder, other'))
            (filter (λ x, classify σ h x ≠ Some None) fileMatches).
Proof.
  induction fileMatches as [|x fileMatches IH]; intros bf ot ot'; [done|].
  rewrite filter_cons. cbn [foldl].
  destruct (decide (classify σ h x ≠ Some None)) as [Hne|Heq].
  - cbn [foldl]. destruct (groupStep_not_other σ h bf x Hne) as [[bf'|] Hres].
    + rewrite !Hres. simpl. apply IH.
    + rewrite !Hres. simpl. by rewrite !foldl_None.
  - assert (Hother : classify σ h x = Some None).
    { destruct (decide (classify σ h x = Some None)); [done | by destruct Heq]. }
    rewrite groupStep_other by done. apply IH.
Qed.

Lemma groupFilesByFolder_without_other σ h fileMatches :
  fst <$> groupFilesByFolder σ h fileMatches =
  fst <$> groupFilesByFolder σ h (filter (λ x, classify σ h x ≠ Some None) fileMatches).
Proof.
  unfold groupFilesByFolder. destruct (emptyBuckets σ h); simpl; [|done].
  apply groupFold_without_other.
Qed.

(** With [ai] set, [add] does not read the "other" list. *)
Lemma add_ai_byFolder σ h allRaw searchInstanceID silent :
  add σ h allRaw searchInstanceID true silent =
  (λ byFolder, (runDisposePastResults h (perFolder addFileMatch h byFolder σ), h))
    <$> (fst <$> groupFilesByFolder σ h allRaw).
Proof.
  unfold add. destruct (groupFilesByFolder σ h allRaw) as [[byFolder other]|]; done.
Qed.

(** The fields of a heading the constructor fixes. *)
Lemma headingStep_fixed σ h (o : headingOp) r :
  headingStep σ h o = Some r →
  _allowOtherResults r.2 = _allowOtherResults h ∧ _id r.2 = _id h.
Proof.
  destruct o as [[q|]|allRaw searchInstanceID ai silent|ms ai| | |uri range|c|b|]; simpl.
  - intros [= <-]. by destruct (_allowOtherResults h).
  - by intros [= <-].
  - unfold add. destruct (groupFilesByFolder _ _ _) as [[??]|]; [|done]. by intros [= <-].
  - unfold remove. destruct (groupFilesByFolder _ _ _) as [[??]|]; [|done]. by intros [= <-].
  - by intros [= <-].
  - by intros [= <-].
  - by intros [= <-].
  - by intros [= <-].
  - by intros [= <-].
  - by intros [= <-].
Qed.

Lemma update_fixed sr id (r : list FolderMatch * TextSearchHeading) :
  fixed sr → _allowOtherResults r.2 = _allowOtherResults (heading sr id) →
  _id r.2 = _id (heading sr id) → fixed (update sr id r).
Proof.
  intros Hf Ha Hi id'. destruct (Hf id) as [Ha0 Hi0]. specialize (Hf id').
  destruct id, id'; simpl in *; try done; by rewrite ?Ha, ?Hi.
Qed.

Lemma onHeading_fixed sr id (o : headingOp) r :
  fixed sr → headingStep (folders sr) (heading sr id) o = Some r → fixed (update sr id r).
Proof.
  intros Hf Hr. apply headingStep_fixed in Hr as [Ha Hi]. by apply update_fixed.
Qed.

Lemma batchRemoveStep_fixed (acc : SearchResult * list RenderableMatch) element :
  fixed acc.1 → fixed (batchRemoveStep acc element).1.
Proof.
  destruct acc as [sr removed]. simpl. intros Hf.
  destruct (arrayContainsElementOrParent _ _ _); [done|].
  destruct element; simpl; try done.
  - by apply (onHeading_fixed sr id HHide).
  - by destruct (bool_decide _).
Qed.

Lemma step_fixed sr (o : op) sr' : fixed sr → step sr o = Some sr' → fixed sr'.
Proof.
  intros Hf.
  destruct o as [l o|id o|q|allRaw searchInstanceID ai silent|ms ai| |elements|outcome|]; simpl.
  - intros [= <-]. intros id. specialize (Hf id). by destruct id.
  - destruct (headingStep _ _ o) as [r|] eqn:Hr; [|done]. intros [= <-].
    by eapply onHeading_fixed.
  - intros [= <-]. unfold setQueryResult.
    apply (onHeading_fixed _ AI_TEXT_SEARCH_RESULT_ID (HSetQuery q)); [|done].
    by apply (onHeading_fixed _ PLAIN_TEXT_SEARCH__RESULT_ID (HSetQuery q)).
  - unfold addResult.
    set (sr1 := mkResult _ _ _ _).
    assert (Hf1 : fixed sr1) by (intros id; specialize (Hf id); by destruct id).
    destruct ai.
    + destruct (add _ _ _ _ _ _) as [r|] eqn:Hr; [|done]. intros [= <-].
      by apply (onHeading_fixed sr1 AI_TEXT_SEARCH_RESULT_ID (HAdd allRaw searchInstanceID true silent)).
    + destruct (add _ _ _ _ _ _) as [r|] eqn:Hr; [|done]. intros [= <-].
      by apply (onHeading_fixed sr1 PLAIN_TEXT_SEARCH__RESULT_ID (HAdd allRaw searchInstanceID false silent)).
  - unfold removeResult.
    assert (∀ sr1, (if ai then update sr AI_TEXT_SEARCH_RESULT_ID
                          <$> remove (folders sr) (_aiTextSearchResult sr) ms ai
                    else Some sr) = Some sr1 → fixed sr1) as Hfirst.
    { intros sr1. destruct ai; [|by intros [= <-]].
      destruct (remove _ _ _ _) as [r|] eqn:Hr; [|done]. intros [= <-].
      by apply (onHeading_fixed sr AI_TEXT_SEARCH_RESULT_ID (HRemove ms true)). }
    destruct (if ai then _ else _) as [sr1|]; [|done]. specialize (Hfirst sr1 eq_refl).
    simpl. destruct (remove _ _ _ _) as [r|] eqn:Hr; [|done]. intros [= <-].
    by apply (onHeading_fixed sr1 PLAIN_TEXT_SEARCH__RESULT_ID (HRemove ms ai)).
  - intros [= <-]. unfold clearResult.
    apply (onHeading_fixed _ PLAIN_TEXT_SEARCH__RESULT_ID HClear); [|done].
    by apply (onHeading_fixed _ AI_TEXT_SEARCH_RESULT_ID HClear).
  - intros [= <-]. unfold batchRemove.
    assert (Hgen : ∀ acc, fixed acc.1 → fixed (foldl batchRemoveStep acc elements).1).
    { induction elements as [|e elements IH]; intros acc Hacc; [done|].
      cbn [foldl]. by apply IH, batchRemoveStep_fixed. }
    specialize (Hgen (withEmitter (pause (_onChange sr)) sr, []) Hf).
    destruct (foldl _ _ _) as [sr2 removed]. done.
  - intros [= <-]. unfold replaceAllResult, replaceAll, replaceAllBegin. cbn [fst snd].
    apply (update_fixed sr PLAIN_TEXT_SEARCH__RESULT_ID); [done | |]; by destruct outcome.
  - intros [= <-]. unfold disposeResult.
    apply (onHeading_fixed _ PLAIN_TEXT_SEARCH__RESULT_ID HDispose); [|done].
    by apply (onHeading_fixed _ AI_TEXT_SEARCH_RESULT_ID HDispose).
Qed.

Lemma run_fixed (ops : list op) sr : run ops = Some sr → fixed sr.
Proof.
  unfold run. revert sr. induction ops as [|o ops IH] using rev_ind; intros sr.
  - intros [= <-]. by intros [].
  - rewrite foldl_app. simpl. destruct (foldl _ _ ops) as [sr0|]; [|done]. simpl.
    apply step_fixed. by apply IH.
Qed.

(** *** The properties of the specification *)

(** C5: in every state a client can reach, for every heading and every
    list of file matches, [groupFilesByFolder] returns: a file match whose
    URI resolves to a folder match with a root is in the bucket of that
    root, one that resolves to the folder match without resource is in
    [other], and one that resolves to no folder match is in neither. *)
Theorem groupFilesByFolder_total (ops : list op) (sr : SearchResult) (id : HeadingId)
    (fileMatches : list IFileMatch) :
  run ops = Some sr →
  ∃ byFolder other,
    groupFilesByFolder (folders sr) (heading sr id) fileMatches = Some (byFolder, other) ∧
    ∀ x, x ∈ fileMatches →
      match getFolderMatch (heading sr id) (resource x) with
      | Some l =>
          match resourceAt (folders sr) l with
          | Some (Some r) =>
              (∃ bucket, alist_get r byFolder = Some bucket ∧ x ∈ bucket) ∧ x ∉ other
          | Some None =>
              x ∈ other ∧ (∀ r bucket, alist_get r byFolder = Some bucket → x ∉ bucket)
          | None => False
          end
      | None => (x ∉ other) ∧ (∀ r bucket, alist_get r byFolder = Some bucket → x ∉ bucket)
      end.
Proof.
  intros Hrun. pose proof (sinv_heading sr id (run_sinv ops sr Hrun)) as Hinv.
  set (σ := folders sr) in *. set (h := heading sr id) in *.
  destruct (groupFilesByFolder_spec σ h fileMatches Hinv) as (byFolder & other & Hgroup & _).
  exists byFolder, other. split; [done|].
  destruct (groupFilesByFolder_buckets σ h fileMatches byFolder other Hinv Hgroup)
    as (Hother & Hkeys & _ & Hbuckets).
  intros x Hx.
  assert (Hnot : ∀ c r bucket, classify σ h x = c → c ≠ Some (Some r) →
            alist_get r byFolder = Some bucket → x ∉ bucket).
  { intros c r bucket Hc Hne Hget. rewrite (Hbuckets r bucket Hget).
    rewrite list_elem_of_filter. intros [Hcx _]. congruence. }
  destruct (getFolderMatch h (resource x)) as [l|] eqn:Hget.
  - assert (Hc : classify σ h x = resourceAt σ l) by (unfold classify; by rewrite Hget).
    destruct (getFolderMatch_Some σ h _ l Hinv Hget) as [(k & Hk & Hl & Hres)|(_ & _ & _ & Hres)];
      rewrite Hres in *.
    + split.
      * assert (Hin : k ∈ fst <$> byFolder) by (apply Hkeys; by exists l).
        apply alist_get_is_Some in Hin as [bucket Hbucket]. exists bucket. split; [done|].
        rewrite (Hbuckets k bucket Hbucket). by apply list_elem_of_filter.
      * rewrite Hother, list_elem_of_filter. intros [Hcx _]. congruence.
    + split.
      * rewrite Hother. by apply list_elem_of_filter.
      * intros r bucket. by apply (Hnot (Some None)).
  - assert (Hc : classify σ h x = None) by (unfold classify; by rewrite Hget).
    split.
    + rewrite Hother, list_elem_of_filter. intros [Hcx _]. congruence.
    + intros r bucket. by apply (Hnot None).
Qed.

Lemma findSubstr_None {V} (m : list (URI * V)) (uri : URI) :
  (∀ k v, (k, v) ∈ m → isPrefix k uri = false) → findSubstr m uri = None.
Proof.
  intros Hm. unfold findSubstr.
  assert (foldl (λ best entry, if isPrefix entry.1 uri then longer best entry else best) None m
          = None) as ->; [|done].
  induction m as [|[k v] m IH]; [done|]. cbn [foldl fst].
  rewrite (Hm k v) by (by left). apply IH. intros k' v' Hin. apply (Hm k' v'). by right.
Qed.

(** A URI under none of the roots resolves to the "other files" bucket,
    where there is one. *)
Lemma classify_other σ h x :
  hinv σ h → _allowOtherResults h = true → is_Some (_otherFilesMatch h) →
  (∀ k l, (k, l) ∈ _folderMatchesMap h → isPrefix k (resource x) = false) →
  classify σ h x = Some None.
Proof.
  intros Hinv Hallow [o Ho] Hroots. unfold classify, getFolderMatch.
  rewrite (findSubstr_None _ _ Hroots), Hallow, Ho. simpl.
  by apply (inv_other σ h Hinv).
Qed.

(** C10: in every state a client can reach both headings allow other
    results, a raw match whose URI is under none of the roots is grouped
    under "other" where the heading has that bucket, and [add] with [ai]
    set returns and adds nothing to the "other files" bucket, which keeps
    its file matches or, when the pending teardown covers it, loses them;
    the raw matches grouped under "other" are discarded, the outcome is the
    one of the call without them. *)
Theorem add_ai_skips_other (ops : list op) (sr : SearchResult) (id : HeadingId)
    (allRaw : list IFileMatch) (searchInstanceID : string) (silent : bool) :
  run ops = Some sr →
  _allowOtherResults (_plainTextSearchResult sr) = true ∧
  _allowOtherResults (_aiTextSearchResult sr) = true ∧
  (∀ x, is_Some (_otherFilesMatch (heading sr id)) →
     (∀ k l, (k, l) ∈ _folderMatchesMap (heading sr id) → isPrefix k (resource x) = false) →
     classify (folders sr) (heading sr id) x = Some None) ∧
  ∃ σ', add (folders sr) (heading sr id) allRaw searchInstanceID true silent
          = Some (σ', heading sr id) ∧
    (∀ o, _otherFilesMatch (heading sr id) = Some o →
       filesAt σ' o = if decide (o ∈ disposePastResults (heading sr id)) then []
                      else filesAt (folders sr) o) ∧
    add (folders sr) (heading sr id)
        (filter (λ x, classify (folders sr) (heading sr id) x ≠ Some None) allRaw)
        searchInstanceID true silent = Some (σ', heading sr id).
Proof.
  intros Hrun. pose proof (sinv_heading sr id (run_sinv ops sr Hrun)) as Hinv.
  pose proof (run_fixed ops sr Hrun) as Hfixed.
  split; [apply (Hfixed PLAIN_TEXT_SEARCH__RESULT_ID)|].
  split; [apply (Hfixed AI_TEXT_SEARCH_RESULT_ID)|].
  split; [intros x; apply classify_other; [done | apply (Hfixed id)]|].
  set (σ := folders sr) in *. set (h := heading sr id) in *.
  destruct (add_spec σ h allRaw searchInstanceID true silent Hinv) as (σ' & Hadd & Hev).
  exists σ'. split; [done|]. split.
  - intros o Ho. pose proof (inv_other σ h Hinv o Ho) as Hres.
    rewrite add_ai_byFolder in Hadd.
    destruct (groupFilesByFolder σ h allRaw) as [[byFolder other]|] eqn:Hgroup; [|done].
    simpl in Hadd. injection Hadd as <-.
    destruct (groupFilesByFolder_buckets σ h allRaw byFolder other Hinv Hgroup)
      as (_ & _ & Helem & Hbuckets).
    assert (Hsame : perFolder addFileMatch h byFolder σ !! o = σ !! o).
    { apply perFolder_lookup_other. intros r first rest l' Hin Hget ->.
      apply Helem in Hin. pose proof (Hbuckets _ _ Hin) as Hb.
      assert (Hfirst : first ∈ filter (λ x, classify σ h x = Some (Some r)) allRaw)
        by (rewrite <- Hb; by left).
      apply list_elem_of_filter in Hfirst as [Hc _].
      unfold classify in Hc. rewrite Hget in Hc. simpl in Hc. congruence. }
    destruct (runDisposePastResults_at h (perFolder addFileMatch h byFolder σ) o) as (_ & _ & ->).
    { apply lookup_lt_is_Some. rewrite Hsame. apply lookup_lt_is_Some.
      by eapply resourceAt_lt. }
    unfold filesAt. rewrite Hsame.
    destruct (occurrences o (disposePastResults h)) eqn:Hocc.
    + apply occurrences_0 in Hocc. by rewrite decide_False.
    + rewrite decide_True; [done|].
      destruct (decide (o ∈ disposePastResults h)) as [|Hnotin]; [done|].
      apply occurrences_0 in Hnotin. lia.
  - rewrite add_ai_byFolder, <- groupFilesByFolder_without_other.
    by rewrite <- (add_ai_byFolder σ h allRaw searchInstanceID silent).
Qed.

Lemma folderMatches_elem h l :
  l ∈ folderMatches h → l ∈ _folderMatches h ∨ _otherFilesMatch h = Some l.
Proof.
  unfold folderMatches. destruct (_otherFilesMatch h) as [o|]; [|by left].
  destruct (_allowOtherResults h); [|by left].
  intros [?|Hl%list_elem_of_singleton]%elem_of_app; [by left | right; by subst].
Qed.

Lemma folderMatches_valid σ h l : hinv σ h → l ∈ folderMatches h → l < length σ.
Proof.
  intros Hinv [Hl|Hl]%folderMatches_elem.
  - destruct (inv_roots σ h Hinv l Hl) as [r Hr]. by eapply resourceAt_lt.
  - eapply resourceAt_lt. by apply (inv_other σ h Hinv).
Qed.

Lemma folderMatches_NoDup σ h : hinv σ h → NoDup (folderMatches h).
Proof.
  intros Hinv. unfold folderMatches.
  destruct (_otherFilesMatch h) as [o|] eqn:Ho; [|apply Hinv].
  destruct (_allowOtherResults h); [|apply Hinv].
  apply NoDup_app. split; [apply Hinv|]. split; [|apply NoDup_singleton].
  intros l Hl Hlo%list_elem_of_singleton. subst l.
  destruct (inv_roots σ h Hinv o Hl) as [r Hr].
  rewrite (inv_other σ h Hinv o Ho) in Hr. done.
Qed.

Lemma quiet_step σ h (o : headingOp) r :
  quiet o = true → headingStep σ h o = Some r →
  query r.2 = query h ∧ folderMatches r.2 = folderMatches h.
Proof.
  destruct o as [[q|]|allRaw searchInstanceID ai silent|ms ai| | |uri range|c|b|];
    simpl; try done; intros _.
  - by intros [= <-].
  - unfold add. destruct (groupFilesByFolder _ _ _) as [[??]|]; [|done]. by intros [= <-].
  - unfold remove. destruct (groupFilesByFolder _ _ _) as [[??]|]; [|done]. by intros [= <-].
  - by intros [= <-].
  - by intros [= <-].
  - by intros [= <-].
Qed.

Lemma runHeading_snoc σ h os (o : headingOp) :
  runHeading σ h (os ++ [o]) = runHeading σ h os ≫= λ r, headingStep r.1 r.2 o.
Proof. unfold runHeading. by rewrite foldl_app. Qed.

Lemma runHeading_quiet σ h os :
  hinv σ h → forallb quiet os = true →
  ∃ r, runHeading σ h os = Some r ∧ hinv r.1 r.2 ∧
       query r.2 = query h ∧ folderMatches r.2 = folderMatches h.
Proof.
  intros Hinv. induction os as [|o os IH] using rev_ind; intros Hquiet.
  - by exists (σ, h).
  - rewrite forallb_app in Hquiet. apply andb_prop in Hquiet as [Hos Ho].
    simpl in Ho. rewrite andb_true_r in Ho.
    destruct (IH Hos) as (r & Hr & Hinvr & Hq & Hf).
    destruct (headingStep_spec r.1 r.2 o Hinvr) as (r' & Hr' & Hinv' & _).
    exists r'. rewrite runHeading_snoc, Hr. split; [done|]. split; [done|].
    destruct (quiet_step _ _ _ _ Ho Hr') as [Hq' Hf']. split; congruence.
Qed.

(** C9: in every state a client can reach, setting the query of a heading
    to null leaves the store as it is, clears the cached search
    completion, the highlight and the URI lookup map, and keeps the stored
    query and the list of folder matches; they stay as they were through
    every sequence of calls that neither sets a non-null query nor clears
    the heading. *)
Theorem setQuery_null_frame (ops : list op) (sr : SearchResult) (id : HeadingId)
    (os : list headingOp) :
  run ops = Some sr → forallb quiet os = true →
  let h := heading sr id in
  let r0 := setQuery (folders sr) h None in
  r0.1 = folders sr ∧
  cachedSearchComplete r0.2 = None ∧ highlightRange r0.2 = None ∧ _folderMatchesMap r0.2 = [] ∧
  query r0.2 = query h ∧ folderMatches r0.2 = folderMatches h ∧
  ∃ r, runHeading r0.1 r0.2 os = Some r ∧
       query r.2 = query h ∧ folderMatches r.2 = folderMatches h.
Proof.
  intros Hrun Hquiet h r0.
  pose proof (sinv_heading sr id (run_sinv ops sr Hrun)) as Hinv. fold h in Hinv.
  destruct (setQuery_spec (folders sr) h None Hinv) as [Hinv0 _]. fold r0 in Hinv0.
  repeat (split; [done|]).
  destruct (runHeading_quiet r0.1 r0.2 os Hinv0 Hquiet) as (r & Hr & _ & Hq & Hf).
  exists r. split; [done|]. by split.
Qed.

(** *** [replaceAll] *)

Lemma filesAt_forEach f targets σ l :
  (∀ fm, fileMatches (f fm) = fileMatches fm) →
  filesAt (forEach f targets σ) l = filesAt σ l.
Proof. intros Hf. unfold filesAt. by rewrite forEach_keeps. Qed.

Lemma matches_ext σ σ' h :
  (∀ l, filesAt σ' l = filesAt σ l) → matches σ' h = matches σ h.
Proof.
  intros Heq. unfold matches. f_equal. apply list_fmap_ext. intros _ l _. apply Heq.
Qed.

Lemma iter_setReplacingAll n b fm :
  0 < n → replacingAll (Nat.iter n (setReplacingAll b) fm) = b.
Proof. destruct n; [lia | done]. Qed.

Lemma occurrences_pos l targets : l ∈ targets → 0 < occurrences l targets.
Proof.
  intros Hin. destruct (occurrences l targets) eqn:Hocc; [|lia].
  by apply occurrences_0 in Hocc.
Qed.

Lemma replacingAllAt_forEach b targets σ l :
  l ∈ targets → l < length σ →
  replacingAllAt (forEach (setReplacingAll b) targets σ) l = Some b.
Proof.
  intros Hin Hl. unfold replacingAllAt. rewrite forEach_lookup.
  destruct (lookup_lt_is_Some_2 σ l Hl) as [fm ->]. simpl. f_equal.
  by apply iter_setReplacingAll, occurrences_pos.
Qed.

Lemma filesAt_forEach_clear targets σ l :
  l ∈ targets → filesAt (forEach clearFolder targets σ) l = [].
Proof.
  intros Hin. unfold filesAt. rewrite forEach_lookup.
  destruct (σ !! l) as [fm|]; [|done]. simpl.
  destruct (iter_clearFolder (occurrences l targets) fm) as (_ & _ & ->).
  apply occurrences_pos in Hin. by destruct (occurrences l targets); [lia|].
Qed.

(** C3: in every state a client can reach, [replaceAll] of the plain-text
    heading hands the matches of the heading to the replace collaborator;
    when the promise rejects the heading is as it was, no folder match
    has lost a file match and the replacing flag of every folder match of
    the heading is reset; when it resolves the flag is reset and the
    heading is cleared. *)
Theorem replaceAll_settles (ops : list op) (sr : SearchResult) :
  run ops = Some sr →
  let σ := folders sr in
  let h := _plainTextSearchResult sr in
  let rejected := replaceAll σ h Rejected in
  let resolved := replaceAll σ h Resolved in
  rejected.2 = matches σ h ∧ resolved.2 = matches σ h ∧
  (rejected.1.2 = h ∧ matches rejected.1.1 h = matches σ h ∧
   (∀ l, filesAt rejected.1.1 l = filesAt σ l) ∧
   (∀ l, l ∈ folderMatches h → replacingAllAt rejected.1.1 l = Some false)) ∧
  (folderMatches resolved.1.2 = [] ∧ matches resolved.1.1 resolved.1.2 = [] ∧
   cachedSearchComplete resolved.1.2 = None ∧
   (∀ l, l ∈ folderMatches h →
      replacingAllAt resolved.1.1 l = Some false ∧ filesAt resolved.1.1 l = [])).
Proof.
  intros Hrun σ h rejected resolved.
  pose proof (sinv_heading sr PLAIN_TEXT_SEARCH__RESULT_ID (run_sinv ops sr Hrun)) as Hinv.
  change (hinv σ h) in Hinv.
  unfold rejected, resolved, replaceAll, replaceAllBegin, replaceAllSettle, setReplacingAllOf.
  cbn [fst snd].
  set (σ1 := forEach (setReplacingAll true) (folderMatches h) σ).
  set (σ2 := forEach (setReplacingAll false) (folderMatches h) σ1).
  assert (Hfiles1 : ∀ l, filesAt σ1 l = filesAt σ l) by (intros l; by apply filesAt_forEach).
  assert (Hfiles2 : ∀ l, filesAt σ2 l = filesAt σ l).
  { intros l. unfold σ2. by rewrite filesAt_forEach. }
  assert (Hflag2 : ∀ l, l ∈ folderMatches h → replacingAllAt σ2 l = Some false).
  { intros l Hl. apply replacingAllAt_forEach; [done|].
    unfold σ1. rewrite forEach_length. by eapply folderMatches_valid. }
  split; [by apply matches_ext|]. split; [by apply matches_ext|]. split.
  - split; [done|]. split; [by apply matches_ext|]. split; done.
  - unfold clear, disposeMatches. cbn [fst snd].
    split; [done|]. split; [done|]. split; [done|].
    intros l Hl. split.
    + unfold replacingAllAt. rewrite !forEach_keeps by done. by apply Hflag2.
    + rewrite filesAt_forEach by done. by apply filesAt_forEach_clear.
Qed.

(** *** The teardown of the folder matches of the previous query *)

Lemma clearCallsAt_keeps f l σ l' :
  (∀ fm, clearCalls (f fm) = clearCalls fm) → clearCallsAt (alter f l σ) l' = clearCallsAt σ l'.
Proof. intros Hf. unfold clearCallsAt. by rewrite alter_keeps. Qed.

Lemma disposeCallsAt_keeps f l σ l' :
  (∀ fm, disposeCalls (f fm) = disposeCalls fm) →
  disposeCallsAt (alter f l σ) l' = disposeCallsAt σ l'.
Proof. intros Hf. unfold disposeCallsAt. by rewrite alter_keeps. Qed.

(** [add] calls [clear] and [dispose] on a folder match once for each time
    the pending teardown lists it, and not otherwise. *)
Lemma add_counts σ h allRaw searchInstanceID ai silent σ' l :
  add σ h allRaw searchInstanceID ai silent = Some (σ', h) → l < length σ →
  clearCallsAt σ' l = clearCallsAt σ l + occurrences l (disposePastResults h) ∧
  disposeCallsAt σ' l = disposeCallsAt σ l + occurrences l (disposePastResults h).
Proof.
  unfold add. destruct (groupFilesByFolder σ h allRaw) as [[byFolder other]|]; [|done].
  simpl. intros [= <-] Hl.
  set (σ1 := perFolder addFileMatch h byFolder σ).
  set (σ2 := if ai then σ1 else _).
  assert (Hc1 : ∀ {A} (g : FolderMatch → A), (∀ ms fm, g (addFileMatch ms fm) = g fm) →
            g <$> σ2 !! l = g <$> σ !! l).
  { intros A g Hg. unfold σ2, σ1. destruct ai; [by apply perFolder_keeps|].
    destruct (_otherFilesMatch h); [|by apply perFolder_keeps].
    rewrite alter_keeps by apply Hg. by apply perFolder_keeps. }
  assert (Hlen : l < length σ2).
  { apply lookup_lt_is_Some. pose proof (Hc1 _ fm_resource (λ _ _, eq_refl)) as Hres.
    destruct (lookup_lt_is_Some_2 σ l Hl) as [fm Hfm]. rewrite Hfm in Hres.
    destruct (σ2 !! l); [by eexists | done]. }
  destruct (runDisposePastResults_at h σ2 l Hlen) as (-> & -> & _).
  unfold clearCallsAt, disposeCallsAt.
  by rewrite (Hc1 _ clearCalls (λ _ _, eq_refl)), (Hc1 _ disposeCalls (λ _ _, eq_refl)).
Qed.

(** The same for a sequence of [add] calls. *)
Lemma adds_counts adds : ∀ σ h l,
  hinv σ h → l < length σ →
  ∃ σ', runHeading σ h (addOp <$> adds) = Some (σ', h) ∧ hinv σ' h ∧ evolves σ σ' ∧
    clearCallsAt σ' l = clearCallsAt σ l + length adds * occurrences l (disposePastResults h) ∧
    disposeCallsAt σ' l = disposeCallsAt σ l + length adds * occurrences l (disposePastResults h).
Proof.
  induction adds as [|[[[allRaw searchInstanceID] ai] silent] adds IH] using rev_ind;
    intros σ h l Hinv Hl.
  - exists σ. split; [done|]. split; [done|]. split; [apply evolves_refl|]. simpl. lia.
  - destruct (IH σ h l Hinv Hl) as (σ1 & Hrun & Hinv1 & Hev1 & Hc & Hd).
    destruct (add_spec σ1 h allRaw searchInstanceID ai silent Hinv1) as (σ2 & Hadd & Hev).
    exists σ2. rewrite fmap_app. cbn [fmap list_fmap]. rewrite runHeading_snoc, Hrun.
    split; [done|]. split; [by eapply hinv_evolves|]. split; [by eapply evolves_trans|].
    assert (Hl1 : l < length σ1) by (apply evolves_length in Hev1; lia).
    destruct (add_counts _ _ _ _ _ _ _ l Hadd Hl1) as [-> ->].
    rewrite length_app. simpl. lia.
Qed.

(** C4 (as amended): in every state a client can reach, setting a
    non-null query on a heading leaves no folder match of the previous
    query in [folderMatches()] and touches none of them; every [add] that
    follows calls [clear] and [dispose] once on each of them, so that they
    are torn down by the first [add] and again by each later one; the
    disposal of the heading tears them down as well. *)
Theorem setQuery_teardown (ops : list op) (sr : SearchResult) (id : HeadingId)
    (q : ITextQuery) (adds : list (list IFileMatch * string * bool * bool)) :
  run ops = Some sr →
  let σ := folders sr in
  let h := heading sr id in
  let r := setQuery σ h (Some q) in
  ∀ l, l ∈ folderMatches h →
    (l ∉ folderMatches r.2) ∧
    r.1 !! l = σ !! l ∧
    (∃ σ', runHeading r.1 r.2 (addOp <$> adds) = Some (σ', r.2) ∧
       clearCallsAt σ' l = clearCallsAt σ l + length adds ∧
       disposeCallsAt σ' l = disposeCallsAt σ l + length adds) ∧
    clearCallsAt σ l < clearCallsAt (dispose r.1 r.2).1 l ∧
    disposeCallsAt σ l < disposeCallsAt (dispose r.1 r.2).1 l.
Proof.
  intros Hrun σ h r l Hl.
  pose proof (sinv_heading sr id (run_sinv ops sr Hrun)) as Hinv. change (hinv σ h) in Hinv.
  destruct (setQuery_spec σ h (Some q) Hinv) as [Hinvr Hevr]. fold r in Hinvr, Hevr.
  pose proof (folderMatches_valid σ h l Hinv Hl) as Hlt.
  assert (Hpast : disposePastResults r.2 = folderMatches h).
  { unfold r. simpl. by destruct (_allowOtherResults h). }
  assert (Hocc : occurrences l (disposePastResults r.2) = 1).
  { rewrite Hpast. apply occurrences_NoDup; [by eapply folderMatches_NoDup | done]. }
  assert (Hnew : ∀ l', l' ∈ folderMatches r.2 → length σ ≤ l').
  { intros l'. unfold r, folderMatches. simpl.
    destruct (_allowOtherResults h) eqn:Hallow; simpl; rewrite ?Hallow.
    - intros [[? _]%elem_of_seq|Hl'%list_elem_of_singleton]%elem_of_app; [lia|].
      subst l'. rewrite length_app. lia.
    - destruct (_otherFilesMatch h); intros [? _]%elem_of_seq; lia. }
  assert (Hsame : r.1 !! l = σ !! l).
  { unfold r. simpl. destruct (_allowOtherResults h); simpl.
    - rewrite <- app_assoc. by apply lookup_app_l.
    - by apply lookup_app_l. }
  split; [intros Hin; apply Hnew in Hin; lia|]. split; [done|].
  assert (Hlt' : l < length r.1) by (apply evolves_length in Hevr; lia).
  assert (Hc0 : clearCallsAt r.1 l = clearCallsAt σ l) by (unfold clearCallsAt; by rewrite Hsame).
  assert (Hd0 : disposeCallsAt r.1 l = disposeCallsAt σ l) by (unfold disposeCallsAt; by rewrite Hsame).
  split.
  - destruct (adds_counts adds r.1 r.2 l Hinvr Hlt') as (σ' & Hadds & _ & _ & Hc & Hd).
    exists σ'. split; [done|]. rewrite Hc, Hd, Hocc, Hc0, Hd0. lia.
  - unfold dispose, disposeMatches. cbn [fst snd].
    set (σd := forEach disposeFolder (folderMatches r.2) r.1).
    set (hd := mkHeading _ _ _ _ _ _ _ _ _ _).
    assert (Hld : l < length σd) by (unfold σd; by rewrite forEach_length).
    destruct (runDisposePastResults_at hd σd l Hld) as (-> & -> & _).
    change (disposePastResults hd) with (disposePastResults r.2). rewrite Hocc.
    unfold clearCallsAt, disposeCallsAt, σd. rewrite !forEach_lookup.
    destruct (r.1 !! l) as [fm|] eqn:Hfm; [|apply lookup_ge_None_1 in Hfm; lia].
    simpl.
    destruct (iter_disposeFolder (occurrences l (folderMatches r.2)) fm) as (-> & -> & _).
    unfold clearCallsAt, disposeCallsAt in Hc0, Hd0. rewrite Hfm in Hc0, Hd0. simpl in *. lia.
Qed.

(** *** [remove] *)

Lemma alter_filesAt_pres (P : list IFileMatch → Prop) f l' σ l :
  (∀ fm, P (fileMatches fm) → P (fileMatches (f fm))) →
  P (filesAt σ l) → P (filesAt (alter f l' σ) l).
Proof.
  intros Hf. unfold filesAt. destruct (decide (l' = l)) as [->|Hne].
  - rewrite list_lookup_alter_eq. destruct (σ !! l); simpl; [apply Hf | done].
  - by rewrite list_lookup_alter_ne.
Qed.

Lemma perFolder_filesAt_pres (P : list IFileMatch → Prop)
    (method : list IFileMatch → FolderMatch → FolderMatch) h byFolder σ l :
  (∀ ms fm, P (fileMatches fm) → P (fileMatches (method ms fm))) →
  P (filesAt σ l) → P (filesAt (perFolder method h byFolder σ) l).
Proof.
  intros Hm. unfold perFolder. revert σ.
  induction byFolder as [|[r bucket] byFolder IH]; intros σ HP; [done|].
  cbn [foldl]. apply IH. simpl.
  destruct bucket as [|first rest]; [done|].
  destruct (getFolderMatch h (resource first)); [|done].
  apply alter_filesAt_pres; [intros fm; apply Hm | done].
Qed.

Lemma removeFiles_nil ms fm : fileMatches fm = [] → fileMatches (removeFiles ms fm) = [].
Proof. simpl. by intros ->. Qed.

Lemma removeFiles_absent_keep ms fm (u : URI) :
  u ∉ resource <$> fileMatches fm → u ∉ resource <$> fileMatches (removeFiles ms fm).
Proof.
  simpl. intros Hu (y & -> & Hy)%list_elem_of_fmap.
  apply list_elem_of_filter in Hy as [_ Hy]. apply Hu, list_elem_of_fmap. by exists y.
Qed.

Lemma removeFiles_absent ms fm x :
  x ∈ ms → resource x ∉ resource <$> fileMatches (removeFiles ms fm).
Proof.
  simpl. intros Hx (y & Heq & Hy)%list_elem_of_fmap.
  apply list_elem_of_filter in Hy as [Hnot _]. apply Hnot.
  rewrite <- Heq. apply list_elem_of_fmap. by exists x.
Qed.

Lemma alter_removeFiles_absent ms l σ x :
  x ∈ ms → resource x ∉ resource <$> filesAt (alter (removeFiles ms) l σ) l.
Proof.
  intros Hx. unfold filesAt. rewrite list_lookup_alter_eq.
  destruct (σ !! l) as [fm|]; simpl; [by apply removeFiles_absent | apply not_elem_of_nil].
Qed.

(** After the [forEach] over the buckets, no file match of a bucket is left
    in the folder match the bucket was sent to. *)
Lemma perFolder_removes h byFolder : ∀ σ r first rest l x,
  (r, first :: rest) ∈ byFolder → getFolderMatch h (resource first) = Some l →
  x ∈ first :: rest →
  resource x ∉ resource <$> filesAt (perFolder removeFiles h byFolder σ) l.
Proof.
  induction byFolder as [|[r0 bucket0] byFolder IH]; intros σ r first rest l x Hin Hget Hx.
  - by apply elem_of_nil in Hin.
  - apply elem_of_cons in Hin as [[= <- <-]|Hin].
    + unfold perFolder. cbn [foldl]. simpl. rewrite Hget.
      apply (perFolder_filesAt_pres (λ fs, resource x ∉ resource <$> fs)).
      * intros ms fm. apply removeFiles_absent_keep.
      * by apply alter_removeFiles_absent.
    + unfold perFolder. cbn [foldl]. by eapply IH.
Qed.

(** C1: in every state a client can reach, [remove] of the search result
    with [ai] set calls [remove] of the AI heading and then [remove] of the
    plain-text heading with the same matches; afterwards every folder
    match among the matches is empty, and no file match among them is left
    in the folder match the plain-text heading resolves its URI to. *)
Theorem remove_ai_reaches_plain (ops : list op) (sr : SearchResult) (ms : list Removable) :
  run ops = Some sr →
  let ai := _aiTextSearchResult sr in
  let plain := _plainTextSearchResult sr in
  ∃ σ1 σ2,
    remove (folders sr) ai ms true = Some (σ1, ai) ∧
    remove σ1 plain ms true = Some (σ2, plain) ∧
    removeResult sr ms true = Some (mkResult σ2 plain ai (_onChange sr)) ∧
    (∀ l, RFolder l ∈ ms → filesAt σ2 l = []) ∧
    (∀ x l, RFile x ∈ ms → getFolderMatch plain (resource x) = Some l →
       resource x ∉ resource <$> filesAt σ2 l).
Proof.
  intros Hrun ai plain.
  destruct (run_sinv ops sr Hrun) as [Hplain Hai]. fold ai in Hai. fold plain in Hplain.
  destruct (remove_spec (folders sr) ai ms true Hai) as (σ1 & Hrem1 & Hev1).
  pose proof (hinv_evolves _ _ _ Hplain Hev1) as Hplain1.
  destruct (remove_spec σ1 plain ms true Hplain1) as (σ2 & Hrem2 & Hev2).
  exists σ1, σ2. split; [done|]. split; [done|]. split.
  { unfold removeResult. fold ai. rewrite Hrem1. simpl. fold plain. by rewrite Hrem2. }
  unfold remove in Hrem2.
  set (σc := forEach clearFolder (omap folderOf ms) σ1) in *.
  assert (Hinvc : hinv σc plain).
  { eapply hinv_evolves; [exact Hplain1 | apply evolves_forEach, keeps_clearFolder]. }
  destruct (groupFilesByFolder σc plain (omap fileOf ms)) as [[byFolder other]|] eqn:Hgroup;
    [|done].
  simpl in Hrem2. injection Hrem2 as <-.
  destruct (groupFilesByFolder_buckets σc plain _ byFolder other Hinvc Hgroup)
    as (Hother & Hkeys & Helem & Hbuckets).
  set (σp := perFolder removeFiles plain byFolder σc).
  assert (Hlast : ∀ P : list IFileMatch → Prop, ∀ l,
    (∀ ms' fm, P (fileMatches fm) → P (fileMatches (removeFiles ms' fm))) →
    P (filesAt σp l) →
    P (filesAt match other with
               | [] => σp
               | first :: _ =>
                   match getFolderMatch plain (resource first) with
                   | Some l' => alter (removeFiles other) l' σp
                   | None => σp
                   end
               end l)).
  { intros P l HP Hl. destruct other as [|first rest]; [done|].
    destruct (getFolderMatch plain (resource first)); [|done].
    apply alter_filesAt_pres; [intros fm; apply HP | done]. }
  split.
  - intros l Hl. apply (Hlast (λ fs, fs = [])); [apply removeFiles_nil|].
    apply (perFolder_filesAt_pres (λ fs, fs = [])); [apply removeFiles_nil|].
    apply filesAt_forEach_clear, list_elem_of_omap. by exists (RFolder l).
  - intros x l Hx Hget.
    assert (Hxin : x ∈ omap fileOf ms) by (apply list_elem_of_omap; by exists (RFile x)).
    assert (Hc : classify σc plain x = resourceAt σc l) by (unfold classify; by rewrite Hget).
    destruct (getFolderMatch_Some σc plain _ l Hinvc Hget) as [(k & Hk & Hl & Hres)|(_ & _ & Ho & Hres)];
      rewrite Hres in Hc.
    + apply (Hlast (λ fs, resource x ∉ resource <$> fs)); [intros ??; apply removeFiles_absent_keep|].
      assert (Hin : k ∈ fst <$> byFolder) by (apply Hkeys; by exists l).
      apply alist_get_is_Some in Hin as [bucket Hbucket].
      pose proof (Hbuckets k bucket Hbucket) as Hb.
      assert (Hxb : x ∈ bucket) by (rewrite Hb; by apply list_elem_of_filter).
      destruct bucket as [|first rest]; [by apply elem_of_nil in Hxb|].
      assert (Hfirst : classify σc plain first = Some (Some k)).
      { assert (Hf : first ∈ first :: rest) by (by left).
        rewrite Hb in Hf. by apply list_elem_of_filter in Hf as [? _]. }
      destruct (classify_root σc plain first k Hinvc Hfirst) as (l0 & Hget0 & Hk0 & _).
      assert (l0 = l) as ->.
      { apply (alist_NoDup_inj k l0 l (_folderMatchesMap plain)); [apply Hinvc | done | done]. }
      apply (perFolder_removes plain byFolder σc k first rest l x); [by apply Helem | done | done].
    + assert (Hxo : x ∈ other) by (rewrite Hother; by apply list_elem_of_filter).
      destruct other as [|first rest]; [by apply elem_of_nil in Hxo|].
      assert (Hfirst : classify σc plain first = Some None).
      { assert (Hf : first ∈ first :: rest) by (by left).
        rewrite Hother in Hf. by apply list_elem_of_filter in Hf as [? _]. }
      unfold classify in Hfirst.
      destruct (getFolderMatch plain (resource first)) as [l0|] eqn:Hget0; [|done].
      simpl in Hfirst.
      destruct (getFolderMatch_Some σc plain _ l0 Hinvc Hget0) as [(k & _ & _ & Hres0)|(_ & _ & Ho0 & _)];
        [congruence|].
      assert (l0 = l) as -> by congruence.
      by apply alter_removeFiles_absent.
Qed.

(** *** [batchRemove] *)

Lemma batchRemoveStep_emitter (acc : SearchResult * list RenderableMatch) element :
  _onChange (batchRemoveStep acc element).1 = _onChange acc.1.
Proof.
  destruct acc as [sr removed]. simpl.
  destruct (arrayContainsElementOrParent _ _ _); [done|].
  destruct element as [id|l|l x|l x m]; simpl; try done.
  - by destruct id.
  - by destruct (bool_decide _).
Qed.

(** Change notifications are paused while the elements are processed, and
    resumed afterwards. *)
Lemma batchRemove_paused sr elements :
  isPaused (_onChange (foldl batchRemoveStep
                         (withEmitter (pause (_onChange sr)) sr, []) elements).1) = true ∧
  isPaused (_onChange (batchRemove sr elements)) = false.
Proof.
  split.
  - assert (Hgen : ∀ acc, _onChange (foldl batchRemoveStep acc elements).1 = _onChange acc.1).
    { induction elements as [|e elements IH]; intros acc; [done|].
      cbn [foldl]. by rewrite IH, batchRemoveStep_emitter. }
    by rewrite Hgen.
  - unfold batchRemove. by destruct (foldl _ _ _).
Qed.

(** An element that is not a heading is put on the local list at most;
    nothing is removed from the tree. *)
Lemma batchRemoveStep_no_heading sr removed element :
  isTextSearchHeading element = false →
  ∃ removed', batchRemoveStep (sr, removed) element = (sr, removed').
Proof.
  intros Hh. simpl.
  destruct (arrayContainsElementOrParent _ _ _); [by eexists|].
  destruct element as [id|l|l x|l x m]; simpl; try done; try by eexists.
  destruct (bool_decide _); by eexists.
Qed.

Lemma batchRemove_no_heading sr elements :
  forallb (λ e, negb (isTextSearchHeading e)) elements = true →
  batchRemove sr elements = withEmitter (mkEmitter false) sr.
Proof.
  intros Hall. unfold batchRemove.
  assert (Hgen : ∀ sr0 removed, ∃ removed',
            foldl batchRemoveStep (sr0, removed) elements = (sr0, removed')).
  { induction elements as [|e elements IH]; intros sr0 removed; [by eexists|].
    simpl in Hall. apply andb_prop in Hall as [He Hall].
    apply negb_true_iff in He.
    destruct (batchRemoveStep_no_heading sr0 removed e He) as [removed1 Hstep].
    cbn [foldl]. rewrite Hstep. by apply IH. }
  destruct (Hgen (withEmitter (pause (_onChange sr)) sr) []) as [removed' ->].
  done.
Qed.

(** C2: the source does not remove: after [batchRemove] of a file match of
    the plain-text heading the file match is where it was, in its folder
    match and among the matches of the result. *)
Theorem batchRemove_keeps_file :
  run sampleOps = Some sampleResult ∧
  filesAt (folders sampleResult) 0 = [appFile] ∧
  filesAt (folders (batchRemove sampleResult [ElemFile 0 appFile])) 0 = [appFile] ∧
  matchesOf (batchRemove sampleResult [ElemFile 0 appFile]) None
    = [appFile; libFile; strayFile].
Proof. vm_compute. auto. Qed.

(** *** Concrete states *)

Lemma remove_ai_reaches_plain_witness :
  run sampleOps = Some sampleResult ∧
  ∃ σ1 σ2,
    remove (folders sampleResult) (_aiTextSearchResult sampleResult) [RFile appFile; RFolder 1] true
      = Some (σ1, _aiTextSearchResult sampleResult) ∧
    remove σ1 (_plainTextSearchResult sampleResult) [RFile appFile; RFolder 1] true
      = Some (σ2, _plainTextSearchResult sampleResult) ∧
    filesAt σ2 1 = [].
Proof.
  split; [reflexivity|].
  destruct (remove_ai_reaches_plain sampleOps sampleResult [RFile appFile; RFolder 1] eq_refl)
    as (σ1 & σ2 & H1 & H2 & _ & Hfolders & _).
  exists σ1, σ2. split; [done|]. split; [done|].
  apply Hfolders. right. by left.
Defined.

(** A removal aimed at the AI heading takes the file match out of the
    plain-text results. *)
Lemma remove_ai_empties_plain :
  appFile ∈ matchesOf sampleResult (Some false) ∧
  (λ sr, matchesOf sr (Some false)) <$> removeResult sampleResult [RFile appFile] true
    = Some [libFile; strayFile].
Proof. split; [by left | vm_compute; reflexivity]. Qed.

Lemma replaceAll_settles_witness :
  run sampleOps = Some sampleResult ∧
  (replaceAll (folders sampleResult) (_plainTextSearchResult sampleResult) Rejected).2
    = [appFile; libFile; strayFile] ∧
  matches (replaceAll (folders sampleResult) (_plainTextSearchResult sampleResult) Rejected).1.1
    (_plainTextSearchResult sampleResult) = [appFile; libFile; strayFile].
Proof.
  split; [reflexivity|].
  destruct (replaceAll_settles sampleOps sampleResult eq_refl) as (H1 & _ & (_ & H2 & _) & _).
  split; [exact H1 | exact H2].
Defined.

(** C4, the claim as stated fails: after a second query and two batches of
    results the folder match 0 of the first query has been cleared twice
    and disposed twice. *)
Lemma teardown_twice :
  0 ∈ folderMatchesOf sampleResult false ∧
  (λ sr, (clearCallsAt (folders sr) 0, disposeCallsAt (folders sr) 0)) <$> run teardownOps
    = Some (2, 2).
Proof. split; [by left | vm_compute; reflexivity]. Qed.

Lemma setQuery_teardown_witness :
  run sampleOps = Some sampleResult ∧
  0 ∉ folderMatches
        (setQuery (folders sampleResult) (_plainTextSearchResult sampleResult) (Some nextQuery)).2.
Proof.
  split; [reflexivity|].
  destruct (setQuery_teardown sampleOps sampleResult PLAIN_TEXT_SEARCH__RESULT_ID nextQuery
              [([], "search-2", false, false)] eq_refl 0) as (H & _).
  - by left.
  - exact H.
Defined.

Lemma groupFilesByFolder_total_witness :
  run (sampleOps ++ [Clear]) = Some (clearResult sampleResult) ∧
  ∃ byFolder other,
    groupFilesByFolder (folders (clearResult sampleResult))
      (_plainTextSearchResult (clearResult sampleResult)) [appFile; strayFile]
      = Some (byFolder, other) ∧
    appFile ∉ other.
Proof.
  split; [reflexivity|].
  destruct (groupFilesByFolder_total (sampleOps ++ [Clear]) (clearResult sampleResult)
              PLAIN_TEXT_SEARCH__RESULT_ID [appFile; strayFile] eq_refl)
    as (byFolder & other & Hgroup & Hall).
  exists byFolder, other. split; [exact Hgroup|].
  specialize (Hall appFile ltac:(by left)). simpl in Hall. apply Hall.
Defined.

(** After a clear the heading resolves no URI: the file matches are
    dropped, nothing is thrown. *)
Lemma groupFilesByFolder_drops :
  groupFilesByFolder (folders (clearResult sampleResult))
    (_plainTextSearchResult (clearResult sampleResult)) [appFile; strayFile] = Some ([], []).
Proof. vm_compute. reflexivity. Qed.

Lemma setQuery_null_frame_witness :
  run sampleOps = Some sampleResult ∧
  forallb quiet [HAdd [appFile] "search-3" false false; HSetQuery None] = true ∧
  query (setQuery (folders sampleResult) (_plainTextSearchResult sampleResult) None).2
    = Some sampleQuery ∧
  folderMatches (setQuery (folders sampleResult) (_plainTextSearchResult sampleResult) None).2
    = [0; 1; 2].
Proof.
  split; [reflexivity|]. split; [reflexivity|].
  destruct (setQuery_null_frame sampleOps sampleResult PLAIN_TEXT_SEARCH__RESULT_ID
              [HAdd [appFile] "search-3" false false; HSetQuery None] eq_refl eq_refl)
    as (_ & _ & _ & _ & Hq & Hf & _).
  split; [exact Hq | exact Hf].
Defined.

Lemma add_ai_skips_other_witness :
  run sampleOps = Some sampleResult ∧
  _otherFilesMatch (_aiTextSearchResult sampleResult) = Some 5 ∧
  ∃ σ', add (folders sampleResult) (_aiTextSearchResult sampleResult)
          [appFile; strayFile] "search-4" true false
          = Some (σ', _aiTextSearchResult sampleResult) ∧
        filesAt σ' 5 = [].
Proof.
  split; [reflexivity|]. split; [reflexivity|].
  destruct (add_ai_skips_other sampleOps sampleResult AI_TEXT_SEARCH_RESULT_ID
              [appFile; strayFile] "search-4" false eq_refl)
    as (_ & _ & _ & σ' & Hadd & Hother & _).
  exists σ'. split; [exact Hadd|].
  rewrite (Hother 5 eq_refl). reflexivity.
Defined.

End SearchFacts.

(** ** More properties of [PathTrie] *)

Module PathTextFacts.
Import PathTrie PathText.

Lemma split_pieces path : Forall (λ piece, hasSeparator piece = false) (split path).
Proof.
  induction path as [|c rest IH]; simpl; [by repeat constructor|].
  destruct (isSeparator c) eqn:Hc; [by constructor|].
  destruct (split rest) as [|piece pieces]; [repeat constructor; simpl; by rewrite Hc|].
  inversion_clear IH. constructor; [|done]. simpl. by rewrite Hc.
Qed.

Lemma split_same p : ∀ q, sameUpToSeparator p q = true → split p = split q.
Proof.
  induction p as [|c p IH]; intros [|d q]; simpl; try done.
  intros [Hcd Hpq]%andb_prop. rewrite (IH q Hpq).
  apply orb_prop in Hcd as [Hcd|[Hc Hd]%andb_prop].
  - apply Ascii.eqb_eq in Hcd as ->. done.
  - by rewrite Hc, Hd.
Qed.

Lemma split_only path :
  Forall (λ piece, piece = EmptyString) (split path) ↔ onlySeparators path = true.
Proof.
  induction path as [|c rest IH]; simpl.
  - split; [done | by repeat constructor].
  - destruct (isSeparator c); simpl.
    + rewrite <- IH. split; [by inversion 1 | by constructor].
    + split; [|done]. destruct (split rest); by inversion 1.
Qed.

(** X1: no segment that [toSegments] returns is empty, and none contains
    a slash or a backslash. *)
Theorem toSegments_clean (P segment : string) :
  segment ∈ toSegments P → segment ≠ EmptyString ∧ hasSeparator segment = false.
Proof.
  unfold toSegments. intros [Hne Hin]%list_elem_of_filter. split; [done|].
  pose proof (split_pieces P) as Hall. rewrite Forall_forall in Hall. by apply Hall.
Qed.

(** X2: paths that differ only in which of the two separators they use
    have the same segments, so they name the same node of a trie. *)
Theorem toSegments_separator_agnostic (P Q : string) :
  sameUpToSeparator P Q = true → toSegments P = toSegments Q.
Proof. intros H. unfold toSegments. by rewrite (split_same P Q H). Qed.

(** X3: the paths without segments, which name the root of a trie, are
    exactly the strings made of separators only, the empty string
    included. *)
Theorem toSegments_nil (P : string) :
  toSegments P = [] ↔ onlySeparators P = true.
Proof.
  rewrite <- split_only. unfold toSegments.
  induction (split P) as [|piece pieces IH]; [done|].
  rewrite filter_cons. case_decide as Hp.
  - split; [done|]. inversion 1; done.
  - rewrite IH. split; [by constructor | by inversion 1].
Qed.

Lemma toSegments_clean_witness :
  "name" ∈ toSegments "/Users\name/" ∧
  "name" ≠ EmptyString ∧ hasSeparator "name" = false.
Proof.
  assert (Hin : "name" ∈ toSegments "/Users\name/").
  { change (toSegments "/Users\name/") with ["Users"; "name"]. by repeat constructor. }
  split; [exact Hin | exact (toSegments_clean "/Users\name/" "name" Hin)].
Defined.

Lemma toSegments_separator_agnostic_witness :
  sameUpToSeparator "C:\Users\name" "C:/Users/name" = true ∧
  toSegments "C:\Users\name" = toSegments "C:/Users/name".
Proof.
  split; [reflexivity|].
  apply (toSegments_separator_agnostic "C:\Users\name" "C:/Users/name"). reflexivity.
Defined.

End PathTextFacts.

Module PathTrieLaws.
Import PathTrie PathTrieFacts.

Section Laws.

Context {T : Type}.
Implicit Types (h : list (@PathTrieNode T)) (p c cur : loc).
Implicit Types (t : @PathTrie T).

(** [ensureNode] on a path that has a node finds it and allocates
    nothing. *)
Lemma ensureFrom_found h segments : ∀ cur c,
  findFrom h cur segments = Some c → ensureFrom h cur segments = (h, c).
Proof.
  induction segments as [|s rest IH]; intros cur c; simpl; [by intros [= <-]|].
  destruct (child h cur s) as [c1|]; [apply IH | done].
Qed.

Lemma ensureFrom_length segments : ∀ h cur,
  length (ensureFrom h cur segments).1 ≤ length h + length segments.
Proof.
  induction segments as [|s rest IH]; intros h cur; simpl; [lia|].
  destruct (child h cur s) as [c1|].
  - specialize (IH h c1). lia.
  - specialize (IH (newChild h cur s) (length h)). rewrite newChild_length in IH. lia.
Qed.

(** The edges of the store after [delete] of a path that has a node below
    the root: the edge into that node is gone, all others are kept. *)
Lemma delete_edges t path q (x : string) p c :
  wf (nodes t) → toSegments path = q ++ [x] →
  findFrom (nodes t) root q = Some p → child (nodes t) p x = Some c →
  ∀ p' (s : string), child (nodes (delete t path)) p' s =
    if decide (p' = p ∧ s = x) then None else child (nodes t) p' s.
Proof.
  intros Hwf Hsegs Hp Hc. unfold delete. rewrite Hsegs.
  assert (Hcur : findFrom (nodes t) root (q ++ [x]) = Some c).
  { apply findFrom_snoc_Some. eauto. }
  rewrite Hcur, (wf_edge _ Hwf _ _ _ Hc).
  destruct (nextOf (nodes t) p) as [m|] eqn:Hm; [|by unfold child in Hc; rewrite Hm in Hc].
  simpl. rewrite last_snoc.
  intros p' s. rewrite (deleteKey_child _ _ _ _ _ _ Hm).
  repeat case_decide; naive_solver.
Qed.

(** A walk that does not pass through the node of the deleted path is not
    affected by [delete]. *)
Lemma delete_findFrom_other t path segments :
  wf (nodes t) → ¬ toSegments path `prefix_of` segments →
  findFrom (nodes (delete t path)) root segments = findFrom (nodes t) root segments.
Proof.
  intros Hwf Hpre.
  destruct (findFrom (nodes t) root (toSegments path)) as [cur|] eqn:Hcur;
    [|by unfold delete; rewrite Hcur].
  destruct (toSegments path) as [|x q _] eqn:Hsegs using rev_ind.
  { destruct Hpre. apply prefix_nil. }
  apply findFrom_snoc_Some in Hcur as (p & Hp & Hc).
  pose proof (delete_edges t path q x p cur Hwf Hsegs Hp Hc) as Hedges.
  clear Hsegs. induction segments as [|s segments IH] using rev_ind; [done|].
  rewrite !findFrom_app. rewrite IH.
  - destruct (findFrom (nodes t) root segments) as [b|] eqn:Hb; [|done]. simpl.
    rewrite Hedges. rewrite decide_False; [done|]. intros [-> ->].
    apply Hpre. rewrite (findFrom_inj _ _ _ _ Hwf Hb Hp). done.
  - intros Hq. apply Hpre. by apply prefix_app_r.
Qed.

(** After [delete], nothing is found at the deleted path or below it. *)
Lemma delete_findFrom_under t path rest :
  wf (nodes t) → toSegments path ≠ [] →
  findFrom (nodes (delete t path)) root (toSegments path ++ rest) = None.
Proof.
  intros Hwf Hne. rewrite findFrom_app.
  destruct (findFrom (nodes t) root (toSegments path)) as [cur|] eqn:Hcur;
    [|by unfold delete; rewrite Hcur; simpl; rewrite Hcur].
  destruct (toSegments path) as [|x q _] eqn:Hsegs using rev_ind; [done|].
  apply findFrom_snoc_Some in Hcur as (p & Hp & Hc).
  pose proof (delete_edges t path q x p cur Hwf Hsegs Hp Hc) as Hedges.
  rewrite findFrom_app.
  destruct (findFrom (nodes (delete t path)) root q) as [p'|] eqn:Hp'; [|done]. simpl.
  assert (p' = p) as ->.
  { apply (findFrom_mono _ (nodes t)) in Hp'; [congruence|].
    intros b s c'. rewrite Hedges. by case_decide. }
  rewrite Hedges. by rewrite decide_True.
Qed.

Lemma delete_dataOf t path c : dataOf (nodes (delete t path)) c = dataOf (nodes t) c.
Proof.
  unfold delete.
  destruct (findFrom (nodes t) root (toSegments path)) as [cur|]; [|done].
  destruct (prevOf (nodes t) cur) as [p|]; [|done].
  destruct (nextOf (nodes t) p) as [m|]; [|done].
  apply withNext_dataOf.
Qed.

(** X4: [get(P)] right after [set(P, v)] returns [v], for every path, the
    paths that name the root included, and whatever the trie held
    before. *)
Theorem get_after_set (ops : list (op (T:=T))) (P : string) (v : T) :
  get (set (run ops) P v) P = Some v.
Proof. rewrite get_getAt. apply set_getAt_eq, run_wf. Qed.

(** X5: [delete(P)] leaves [get(Q)] as it was for every path [Q] that is
    not [P] or below [P]. *)
Theorem delete_keeps_other_paths (ops : list (op (T:=T))) (P Q : string) :
  ¬ toSegments P `prefix_of` toSegments Q →
  get (delete (run ops) P) Q = get (run ops) Q.
Proof.
  intros Hpre. unfold get, findNode.
  rewrite delete_findFrom_other by (apply run_wf || done).
  destruct (findFrom (nodes (run ops)) root (toSegments Q)) as [c|]; [|done].
  apply delete_dataOf.
Qed.

(** X6: [delete(P)] detaches the whole subtree: for a path [P] with at
    least one segment, [get] returns absent afterwards for [P] and for
    every path below [P]. *)
Theorem delete_detaches_subtree (ops : list (op (T:=T))) (P Q : string) :
  toSegments P ≠ [] → toSegments P `prefix_of` toSegments Q →
  get (delete (run ops) P) Q = None.
Proof.
  intros Hne [rest HQ]. unfold get, findNode. rewrite HQ.
  by rewrite delete_findFrom_under by (apply run_wf || done).
Qed.

(** X7: [set] on a path that has a node allocates nothing and changes
    nothing but the payload of that node. *)
Theorem set_on_existing_node (t : PathTrie (T:=T)) (P : string) (v : T) (c : loc) :
  findNode t P = Some c →
  nodes (set t P v) = alter (withData v) c (nodes t) ∧
  length (nodes (set t P v)) = length (nodes t).
Proof.
  intros Hc. unfold set, ensureNode. rewrite (ensureFrom_found _ _ _ _ Hc).
  simpl. by rewrite length_alter.
Qed.

(** X8: [set] allocates at most one node for each segment of the path. *)
Theorem set_allocates_per_segment (t : PathTrie (T:=T)) (P : string) (v : T) :
  length (nodes (set t P v)) ≤ length (nodes t) + length (toSegments P).
Proof.
  unfold set, ensureNode.
  pose proof (ensureFrom_length (toSegments P) (nodes t) root) as Hlen.
  destruct (ensureFrom (nodes t) root (toSegments P)) as [h c].
  simpl in *. by rewrite length_alter.
Qed.

(** X9: in every trie built by [set] and [delete], the node behind an
    edge of a [next] map has the source of the edge as its [prev], is not
    the root, and is a node of the trie. *)
Theorem parent_pointers (ops : list (op (T:=T))) (p c : loc) (segment : string) :
  child (nodes (run ops)) p segment = Some c →
  prevOf (nodes (run ops)) c = Some p ∧ c ≠ root ∧ c < length (nodes (run ops)).
Proof.
  intros Hc. pose proof (run_wf ops) as Hwf.
  pose proof (wf_edge _ Hwf _ _ _ Hc) as Hprev.
  split; [done|]. split; [|by eapply wf_child_lt].
  intros ->. by rewrite (wf_root_prev _ Hwf) in Hprev.
Qed.

(** X10: after [set(P, v)] with a truthy [v] and a path [P] with at least
    one segment, [findSubstr(Q)] yields [v] for [P] itself and for every
    path [Q] below [P]. *)
Theorem findSubstr_finds_ancestor (truthy : T → bool) (ops : list (op (T:=T)))
    (P Q : string) (v : T) :
  truthy v = true → toSegments P ≠ [] → toSegments P `prefix_of` toSegments Q →
  v ∈ findSubstr truthy (set (run ops) P v) Q.
Proof.
  intros Hv Hne Hpre. rewrite findSubstr_prefixes.
  apply list_elem_of_omap. exists (toSegments P). split.
  - unfold nonEmptyPrefixes. apply list_elem_of_fmap.
    exists (length (toSegments P)). destruct Hpre as [rest ->]. split.
    + by rewrite take_app_length.
    + apply elem_of_seq. rewrite length_app.
      destruct (toSegments P); [done|]. simpl. lia.
  - rewrite set_getAt_eq by apply run_wf. simpl. unfold yielded. by rewrite Hv.
Qed.

End Laws.

(** *** Concrete tries *)

Lemma delete_keeps_other_paths_witness :
  ¬ toSegments "/Users/name/Desktop" `prefix_of` toSegments "/Users/name" ∧
  get (delete sampleTrie "/Users/name/Desktop") "/Users/name" = get sampleTrie "/Users/name".
Proof.
  assert (Hpre : ¬ toSegments "/Users/name/Desktop" `prefix_of` toSegments "/Users/name").
  { intros [k Hk]. vm_compute in Hk. discriminate. }
  split; [exact Hpre|]. exact (delete_keeps_other_paths _ _ _ Hpre).
Defined.

Lemma delete_detaches_subtree_witness :
  toSegments "/Users/name" ≠ [] ∧
  toSegments "/Users/name" `prefix_of` toSegments "\Users\name\Desktop\test-ts" ∧
  get (delete sampleTrie "/Users/name") "\Users\name\Desktop\test-ts" = None.
Proof.
  assert (Hne : toSegments "/Users/name" ≠ []) by (vm_compute; discriminate).
  assert (Hpre : toSegments "/Users/name" `prefix_of` toSegments "\Users\name\Desktop\test-ts")
    by (exists ["Desktop"; "test-ts"]; reflexivity).
  split; [exact Hne|]. split; [exact Hpre|].
  exact (delete_detaches_subtree _ "/Users/name" "\Users\name\Desktop\test-ts" Hne Hpre).
Defined.

Lemma set_on_existing_node_witness :
  findNode sampleTrie "/Users/name" = Some 2 ∧
  nodes (set sampleTrie "/Users/name" 9) = alter (withData 9) 2 (nodes sampleTrie) ∧
  length (nodes (set sampleTrie "/Users/name" 9)) = length (nodes sampleTrie).
Proof.
  split; [reflexivity|].
  apply (set_on_existing_node sampleTrie "/Users/name" 9 2). reflexivity.
Defined.

Lemma parent_pointers_witness :
  child (nodes sampleTrie) 1 "name" = Some 2 ∧
  prevOf (nodes sampleTrie) 2 = Some 1 ∧ 2 ≠ root ∧ 2 < length (nodes sampleTrie).
Proof.
  split; [reflexivity|].
  apply (parent_pointers
           [Set_ "/Users/name/Desktop/test-ts/package.json" 1;
            Set_ "/Users/name/Desktop/test-ts" 2;
            Set_ "/Users/name/Desktop" 3;
            Set_ "/Users/name" 4] 1 2 "name").
  reflexivity.
Defined.

Lemma findSubstr_finds_ancestor_witness :
  nonZero 5 = true ∧ toSegments "/Users" ≠ [] ∧
  toSegments "/Users" `prefix_of` toSegments "/Users/name" ∧
  5 ∈ findSubstr nonZero (set (run []) "/Users" 5) "/Users/name".
Proof.
  assert (Hne : toSegments "/Users" ≠ []) by (vm_compute; discriminate).
  assert (Hpre : toSegments "/Users" `prefix_of` toSegments "/Users/name")
    by (exists ["name"]; reflexivity).
  split; [reflexivity|]. split; [exact Hne|]. split; [exact Hpre|].
  exact (findSubstr_finds_ancestor nonZero [] "/Users" "/Users/name" 5 eq_refl Hne Hpre).
Defined.

End PathTrieLaws.

Module PathVisitFacts.
Import PathTrie PathTrieFacts PathVisit.

Section Facts.

Context {T : Type}.
Variable truthy : T → bool.
Variable values : loc → gmap string loc → list loc.
Hypothesis Hvalues : enumerates values.
Implicit Types (h : list (@PathTrieNode T)) (p c cur : loc).
Implicit Types (t : @PathTrie T).

Lemma childrenOf_spec h cur c :
  c ∈ childrenOf values h cur ↔ ∃ s : string, child h cur s = Some c.
Proof.
  unfold childrenOf, child. destruct (nextOf h cur) as [m|]; simpl.
  - rewrite (Hvalues cur m). rewrite list_elem_of_fmap. split.
    + intros ([s c'] & -> & Hin). exists s. by apply elem_of_map_to_list in Hin.
    + intros (s & Hs). exists (s, c). split; [done|]. by apply elem_of_map_to_list.
  - split; [intros []%elem_of_nil | by intros [? ?]].
Qed.

Lemma newChild_forward h cur (s : string) :
  cur < length h → forward h → forward (newChild h cur s).
Proof.
  intros Hcur Hfw p s' c. rewrite newChild_child by done.
  case_decide as Hd; [|apply Hfw]. intros [= <-]. by destruct Hd as [-> _].
Qed.

Lemma ensureFrom_forward segments : ∀ h cur,
  wf h → cur < length h → forward h → forward (ensureFrom h cur segments).1.
Proof.
  induction segments as [|s rest IH]; intros h cur Hwf Hcur Hfw; simpl; [done|].
  destruct (child h cur s) as [c1|] eqn:Hc1.
  - apply IH; [done | by eapply wf_child_lt | done].
  - apply IH.
    + by apply newChild_wf.
    + rewrite newChild_length. lia.
    + by apply newChild_forward.
Qed.

(** In every trie built by [set] and [delete], an edge leads to a node
    allocated after its source. *)
Lemma run_forward (ops : list (op (T:=T))) : forward (nodes (run ops)).
Proof.
  unfold run. induction ops as [|o ops IH] using rev_ind.
  { intros [|p] s c; done. }
  rewrite foldl_app. simpl. fold (run ops) in *.
  pose proof (run_wf ops) as Hwf. destruct o as [path d|path]; simpl.
  - unfold set, ensureNode.
    pose proof (ensureFrom_forward (toSegments path) _ _ Hwf (wf_root_alloc _ Hwf) IH) as Hfw.
    destruct (ensureFrom (nodes (run ops)) root (toSegments path)) as [h' c'].
    simpl in *. intros p s c. rewrite withData_child. apply Hfw.
  - unfold delete.
    destruct (findFrom (nodes (run ops)) root (toSegments path)) as [cur|]; [|done].
    destruct (prevOf (nodes (run ops)) cur) as [p|]; [|done].
    destruct (nextOf (nodes (run ops)) p) as [m|] eqn:Hm; [|done].
    simpl. intros q s c. rewrite (deleteKey_child _ _ _ _ _ _ Hm).
    case_decide; [done | apply IH].
Qed.

Lemma yieldData_elem h c d :
  d ∈ yieldData truthy h c ↔ dataOf h c = Some d ∧ truthy d = true.
Proof.
  unfold yieldData. destruct (dataOf h c) as [d'|].
  - destruct (truthy d') eqn:Hd'.
    + rewrite list_elem_of_singleton. split; [by intros -> | by intros [[= ->] _]].
    + rewrite elem_of_nil. split; [done | intros [[= ->] Ht]; congruence].
  - rewrite elem_of_nil. split; [done | by intros [? _]].
Qed.

(** What [visitAll] yields is stored at a node below the start. *)
Lemma visitAll_sound h d fuel : ∀ cur,
  d ∈ visitAll truthy values fuel h cur →
  ∃ rest c, findFrom h cur rest = Some c ∧ dataOf h c = Some d ∧ truthy d = true.
Proof.
  induction fuel as [|fuel IH]; intros cur; simpl; [intros []%elem_of_nil|].
  rewrite elem_of_app. intros [Hd|Hd].
  - apply yieldData_elem in Hd as [Hd Ht]. by exists [], cur.
  - apply list_elem_of_In, in_flat_map in Hd as (c1 & Hc1 & Hd).
    apply list_elem_of_In, childrenOf_spec in Hc1 as [s Hs].
    apply list_elem_of_In, IH in Hd as (rest & c & Hf & Hd & Ht).
    exists (s :: rest), c. simpl. by rewrite Hs.
Qed.

(** With enough fuel [visitAll] reaches every node below the start. *)
Lemma visitAll_complete h d : forward h → ∀ rest fuel cur c,
  length h ≤ fuel + cur →
  findFrom h cur rest = Some c → dataOf h c = Some d → truthy d = true →
  d ∈ visitAll truthy values fuel h cur.
Proof.
  intros Hfw. induction rest as [|s rest IH]; intros fuel cur c Hfuel; simpl.
  - intros [= <-] Hd Ht. destruct fuel as [|fuel].
    + rewrite dataOf_None_ge in Hd by (simpl in *; lia). done.
    + simpl. apply elem_of_app. left. by apply yieldData_elem.
  - destruct (child h cur s) as [c1|] eqn:Hc1; [|done]. intros Hf Hd Ht.
    pose proof (Hfw _ _ _ Hc1) as Hlt.
    destruct fuel as [|fuel].
    + rewrite child_None_ge in Hc1 by (simpl in *; lia). done.
    + simpl. apply elem_of_app. right.
      apply list_elem_of_In, in_flat_map. exists c1. split.
      * apply list_elem_of_In, childrenOf_spec. eauto.
      * apply list_elem_of_In. apply (IH fuel c1 c); [lia | done..].
Qed.

(** X11: whatever the order in which a node's children are enumerated,
    [findSuperstr(P)] yields exactly the truthy payloads stored at [P] and
    below [P]; it yields nothing when [P] has no node. *)
Theorem findSuperstr_payloads (ops : list (op (T:=T))) (P : string) (d : T) :
  d ∈ findSuperstr truthy values (run ops) P ↔
  ∃ rest, getAt (nodes (run ops)) (toSegments P ++ rest) = Some d ∧ truthy d = true.
Proof.
  unfold findSuperstr, findNode, getAt.
  split.
  - destruct (findFrom (nodes (run ops)) root (toSegments P)) as [cur|] eqn:Hcur;
      [|intros []%elem_of_nil].
    intros (rest & c & Hf & Hd & Ht)%visitAll_sound.
    exists rest. rewrite findFrom_app, Hcur. simpl. rewrite Hf. done.
  - intros (rest & Hget & Ht). rewrite findFrom_app in Hget.
    destruct (findFrom (nodes (run ops)) root (toSegments P)) as [cur|] eqn:Hcur; [|done].
    simpl in Hget. destruct (findFrom (nodes (run ops)) cur rest) as [c|] eqn:Hc; [|done].
    simpl in Hget. eapply visitAll_complete; eauto using run_forward. lia.
Qed.

End Facts.

Lemma byKey_enumerates : enumerates byKey.
Proof. intros cur m. reflexivity. Qed.

Lemma findSuperstr_payloads_witness :
  enumerates byKey ∧
  (1 ∈ findSuperstr nonZero byKey sampleTrie "/Users/name" ↔
   ∃ rest, getAt (nodes sampleTrie) (toSegments "/Users/name" ++ rest) = Some 1 ∧
           nonZero 1 = true).
Proof.
  split; [exact byKey_enumerates|].
  exact (findSuperstr_payloads nonZero byKey byKey_enumerates
           [Set_ "/Users/name/Desktop/test-ts/package.json" 1;
            Set_ "/Users/name/Desktop/test-ts" 2;
            Set_ "/Users/name/Desktop" 3;
            Set_ "/Users/name" 4] "/Users/name" 1).
Defined.

End PathVisitFacts.

(** ** More properties of the search result tree *)

Module SearchLaws.
Import Search SearchFacts SearchCounts.

Implicit Types (σ : list FolderMatch) (h : TextSearchHeading) (sr : SearchResult).
Implicit Types (l : loc) (uri : URI).

(** *** Lookup *)

(** The key under which [findSubstr] finds a value is a prefix of the URI
    looked up. *)
Lemma findSubstr_key {V} (m : list (URI * V)) uri (v : V) :
  findSubstr m uri = Some v → ∃ k, (k, v) ∈ m ∧ isPrefix k uri = true.
Proof.
  unfold findSubstr.
  assert (Hfold : ∀ (m : list (URI * V)) best,
    (∀ e, best = Some e → isPrefix e.1 uri = true) →
    ∀ e, foldl (λ best entry, if isPrefix entry.1 uri then longer best entry else best) best m
           = Some e →
         isPrefix e.1 uri = true ∧ (best = Some e ∨ e ∈ m)).
  { clear m. induction m as [|entry m IH]; intros best Hbest e; simpl.
    - intros ->. split; [by apply Hbest | by left].
    - intros He. apply IH in He as [Hpre [He|He]].
      + split; [done|]. destruct (isPrefix entry.1 uri) eqn:Hentry; [|by left].
        unfold longer in He. destruct best as [[k b]|].
        * case_decide; simplify_eq; [right; by left | by left].
        * simplify_eq. right. by left.
      + split; [done|]. right. by right.
      + intros e'. destruct (isPrefix entry.1 uri) eqn:Hentry; [|apply Hbest].
        unfold longer. destruct best as [[k b]|].
        * case_decide; [by intros [= <-] | apply Hbest].
        * by intros [= <-]. }
  destruct (foldl _ None m) as [[k v']|] eqn:Hf; [|done].
  simpl. intros [= ->]. apply Hfold in Hf as [Hpre [?|Hin]]; [done | | done].
  exists k. done.
Qed.

(** X12: in every state a client can reach, the folder match that
    [getFolderMatch] returns for a URI is one of [folderMatches()] of the
    heading, and when it has a root, the root is a prefix of the URI. *)
Theorem getFolderMatch_within (ops : list op) sr (id : HeadingId) uri l :
  run ops = Some sr → getFolderMatch (heading sr id) uri = Some l →
  l ∈ folderMatches (heading sr id) ∧ l < length (folders sr) ∧
  ∀ r, resourceAt (folders sr) l = Some (Some r) → isPrefix r uri = true.
Proof.
  intros Hrun Hget.
  pose proof (sinv_heading sr id (run_sinv _ _ Hrun)) as Hinv.
  destruct (run_fixed _ _ Hrun id) as [Hallow _].
  assert (Hin : l ∈ folderMatches (heading sr id)).
  { destruct (getFolderMatch_Some _ _ _ _ Hinv Hget)
      as [(k & _ & Hl & _)|(_ & _ & Ho & _)]; unfold folderMatches.
    - destruct (_otherFilesMatch (heading sr id)); [|done].
      rewrite Hallow. apply elem_of_app. by left.
    - rewrite Ho, Hallow. apply elem_of_app. right. by left. }
  split; [done|]. split; [by eapply folderMatches_valid|].
  intros r Hr. unfold getFolderMatch in Hget.
  destruct (findSubstr (_folderMatchesMap (heading sr id)) uri) as [l'|] eqn:Hfind.
  - injection Hget as ->. apply findSubstr_key in Hfind as (k & Hk & Hpre).
    destruct (inv_map _ _ Hinv _ _ Hk) as [_ Hres]. congruence.
  - rewrite Hallow in Hget. rewrite (inv_other _ _ Hinv _ Hget) in Hr. done.
Qed.

(** *** A heading that was cleared *)

Lemma groupFilesByFolder_cleared σ h fileMatches :
  _folderMatches h = [] → _folderMatchesMap h = [] → _otherFilesMatch h = None →
  groupFilesByFolder σ h fileMatches = Some ([], []).
Proof.
  intros Hf Hm Ho. unfold groupFilesByFolder, emptyBuckets. rewrite Hf. simpl.
  induction fileMatches as [|x xs IH]; [done|]. simpl.
  unfold getFolderMatch at 1. rewrite Hm, Ho. simpl. by destruct (_allowOtherResults h).
Qed.

Lemma add_cleared σ h allRaw searchInstanceID ai silent :
  _folderMatches h = [] → _folderMatchesMap h = [] → _otherFilesMatch h = None →
  add σ h allRaw searchInstanceID ai silent = Some (runDisposePastResults h σ, h).
Proof.
  intros Hf Hm Ho. unfold add. rewrite groupFilesByFolder_cleared by done.
  simpl. rewrite Ho. by destruct ai.
Qed.

Lemma clear_fields σ h :
  _folderMatches (clear σ h).2 = [] ∧ _folderMatchesMap (clear σ h).2 = [] ∧
  _otherFilesMatch (clear σ h).2 = None ∧ hidden (clear σ h).2 = hidden h.
Proof. done. Qed.

Lemma matches_no_folders σ h : folderMatches h = [] → matches σ h = [].
Proof. unfold matches. by intros ->. Qed.

Lemma folderMatches_cleared h :
  _folderMatches h = [] → _otherFilesMatch h = None → folderMatches h = [].
Proof. unfold folderMatches. by intros -> ->. Qed.

(** X14: results added after [clear()] are dropped: the heading has no
    folder match left to take them, so [matches()] stays empty until a
    query is set. *)
Theorem clear_then_add_drops sr (allRaw : list IFileMatch) (searchInstanceID : string)
    (ai silent : bool) :
  ∃ sr', addResult (clearResult sr) allRaw searchInstanceID ai silent = Some sr' ∧
         matchesOf sr' None = [] ∧
         folderMatchesOf sr' false = [] ∧ folderMatchesOf sr' true = [].
Proof.
  unfold addResult. destruct ai; simpl.
  - rewrite add_cleared by done. simpl. eexists. split; [done|]. done.
  - rewrite add_cleared by done. simpl. eexists. split; [done|]. done.
Qed.

(** *** Results added after a null query *)

Lemma filesAt_runDisposePastResults h σ l :
  l ∈ disposePastResults h → filesAt (runDisposePastResults h σ) l = [].
Proof.
  intros Hl. unfold runDisposePastResults.
  rewrite filesAt_forEach by done. by apply filesAt_forEach_clear.
Qed.

Lemma matches_nil σ h : (∀ l, l ∈ folderMatches h → filesAt σ l = []) → matches σ h = [].
Proof.
  unfold matches. induction (folderMatches h) as [|l ls IH]; intros Hall; [done|].
  simpl. rewrite Hall by (by left). simpl. apply IH. intros l' Hl'. apply Hall. by right.
Qed.

Lemma add_store σ h allRaw searchInstanceID ai silent σ' h' :
  add σ h allRaw searchInstanceID ai silent = Some (σ', h') →
  h' = h ∧ ∃ σ2, σ' = runDisposePastResults h σ2.
Proof.
  unfold add. destruct (groupFilesByFolder σ h allRaw) as [[byFolder other]|]; [|done].
  simpl. intros [= <- <-]. eauto.
Qed.

(** An [add] on a heading whose closure has captured all its current
    folder matches leaves all of them empty. *)
Lemma add_wipes σ h allRaw searchInstanceID ai silent :
  hinv σ h → (∀ l, l ∈ folderMatches h → l ∈ disposePastResults h) →
  ∃ σ', add σ h allRaw searchInstanceID ai silent = Some (σ', h) ∧ matches σ' h = [].
Proof.
  intros Hinv Hpast.
  destruct (add_spec σ h allRaw searchInstanceID ai silent Hinv) as (σ' & Hadd & Hev).
  exists σ'. split; [done|].
  apply add_store in Hadd as [_ [σ2 ->]].
  apply matches_nil. intros l Hl. by apply filesAt_runDisposePastResults, Hpast.
Qed.

Lemma unhide_null_query_hinv σ h :
  hinv σ h → hinv σ (setHidden (setQuery σ h None).2 false).
Proof.
  intros Hinv. eapply hinv_fields; [..|exact (proj1 (setQuery_spec σ h None Hinv))]; done.
Qed.

(** X15: [add] after a null query keeps the folder matches of the
    heading and leaves all of them empty: the closure the setter installed
    clears them at the end of [add], the results just added included. *)
Theorem null_query_then_add_wipes (ops : list op) sr (allRaw : list IFileMatch)
    (searchInstanceID : string) (ai silent : bool) :
  run ops = Some sr →
  ∃ sr', addResult (setQueryResult sr None) allRaw searchInstanceID ai silent = Some sr' ∧
         folderMatchesOf sr' ai = folderMatchesOf sr ai ∧
         matchesOf sr' (Some ai) = [].
Proof.
  intros Hrun. pose proof (run_sinv _ _ Hrun) as [Hp Ha].
  unfold addResult, setQueryResult. destruct ai.
  - destruct (add_wipes (folders sr) _ allRaw searchInstanceID true silent
                (unhide_null_query_hinv _ _ Ha)) as (σ' & Hadd & Hm); [done|].
    simpl in *. rewrite Hadd. simpl. eexists. split; [done|]. by split.
  - destruct (add_wipes (folders sr) _ allRaw searchInstanceID false silent
                (unhide_null_query_hinv _ _ Hp)) as (σ' & Hadd & Hm); [done|].
    simpl in *. rewrite Hadd. simpl. eexists. split; [done|]. by split.
Qed.

(** *** [batchRemove] and headings *)

Lemma hide_fields σ h :
  hidden (hide σ h).2 = true ∧ folderMatches (hide σ h).2 = [].
Proof. done. Qed.

Lemma heading_update_eq sr id (r : list FolderMatch * TextSearchHeading) :
  heading (update sr id r) id = r.2.
Proof. by destruct id. Qed.

Lemma heading_update_ne sr id id' (r : list FolderMatch * TextSearchHeading) :
  id ≠ id' → heading (update sr id r) id' = heading sr id'.
Proof. by destruct id, id'. Qed.

Lemma heading_not_contained σ id removedElems :
  noHeadings removedElems →
  arrayContainsElementOrParent σ (ElemHeading id) removedElems = false.
Proof.
  intros Hno. unfold arrayContainsElementOrParent. simpl.
  rewrite bool_decide_eq_false_2; [done|]. intros Hin. by apply Hno in Hin.
Qed.

Lemma batchRemoveStep_noHeadings (acc : SearchResult * list RenderableMatch) element :
  noHeadings acc.2 → noHeadings (batchRemoveStep acc element).2.
Proof.
  destruct acc as [sr removed]. simpl. intros Hno.
  destruct (arrayContainsElementOrParent (folders sr) element removed); [done|].
  destruct element as [id|l|l f|l f m]; simpl; try done.
  - destruct (bool_decide _); [|done].
    simpl. intros e [He| ->%list_elem_of_singleton]%elem_of_app; [by apply Hno | done].
  - intros e [He| ->%list_elem_of_singleton]%elem_of_app; [by apply Hno | done].
  - intros e [He| ->%list_elem_of_singleton]%elem_of_app; [by apply Hno | done].
Qed.

Lemma batchRemoveStep_hiddenAway (acc : SearchResult * list RenderableMatch) element id :
  noHeadings acc.2 →
  (hiddenAway acc.1 id ∨ element = ElemHeading id) →
  hiddenAway (batchRemoveStep acc element).1 id.
Proof.
  destruct acc as [sr removed]. simpl. intros Hno Hcase.
  destruct element as [id'|l|l f|l f m].
  - simpl. rewrite heading_not_contained by done. simpl.
    destruct (decide (id' = id)) as [->|Hne].
    + unfold hiddenAway. rewrite heading_update_eq. apply hide_fields.
    + unfold hiddenAway. rewrite heading_update_ne by done.
      destruct Hcase as [?|?]; [done | congruence].
  - destruct Hcase as [Hh|?]; [|done]. simpl.
    destruct (arrayContainsElementOrParent _ _ _); [done|].
    simpl. by destruct (bool_decide _).
  - destruct Hcase as [Hh|?]; [|done]. simpl.
    by destruct (arrayContainsElementOrParent _ _ _).
  - destruct Hcase as [Hh|?]; [|done]. simpl.
    by destruct (arrayContainsElementOrParent _ _ _).
Qed.

Lemma batchRemove_fold_hiddenAway elements id : ∀ (acc : SearchResult * list RenderableMatch),
  noHeadings acc.2 →
  (hiddenAway acc.1 id ∨ ElemHeading id ∈ elements) →
  hiddenAway (foldl batchRemoveStep acc elements).1 id.
Proof.
  induction elements as [|element elements IH]; intros acc Hno Hcase; simpl.
  - destruct Hcase as [?|Hin]; [done | by apply elem_of_nil in Hin].
  - apply IH; [by apply batchRemoveStep_noHeadings|].
    destruct Hcase as [Hh|[Heq|Hin]%elem_of_cons].
    + left. apply batchRemoveStep_hiddenAway; auto.
    + left. apply batchRemoveStep_hiddenAway; auto.
    + by right.
Qed.

(** X16: [batchRemove] hides every heading among the elements, whatever
    else the batch holds: the heading is hidden and has no folder matches
    afterwards, and the emitter is resumed. *)
Theorem batchRemove_hides_headings sr (elementsToRemove : list RenderableMatch)
    (id : HeadingId) :
  ElemHeading id ∈ elementsToRemove →
  hidden (heading (batchRemove sr elementsToRemove) id) = true ∧
  folderMatches (heading (batchRemove sr elementsToRemove) id) = [] ∧
  isPaused (_onChange (batchRemove sr elementsToRemove)) = false.
Proof.
  intros Hin.
  pose proof (batchRemove_fold_hiddenAway elementsToRemove id
                (withEmitter (pause (_onChange sr)) sr, [])) as Hfold.
  unfold batchRemove.
  destruct (foldl batchRemoveStep _ elementsToRemove) as [sr2 removed].
  simpl in *. destruct Hfold as [Hh Hf].
  - by intros e ?%elem_of_nil.
  - by right.
  - by destruct id.
Qed.

(** *** Counting *)






(** X19: [getCachedSearchComplete(ai)] returns what
    [setCachedSearchComplete] stored for that heading and is not affected
    by the other heading's; the query setter (with any query, null
    included) and [clear()] reset both. *)
Theorem cachedSearchComplete_lifetime sr (c : option nat) (ai ai' : bool)
    (q : option ITextQuery) :
  getCachedSearchComplete (setCachedSearchCompleteResult sr c ai) ai'
    = (if bool_decide (ai = ai') then c else getCachedSearchComplete sr ai') ∧
  getCachedSearchComplete (setQueryResult sr q) ai' = None ∧
  getCachedSearchComplete (clearResult sr) ai' = None.
Proof.
  split; [by destruct ai, ai'|]. split.
  - unfold setQueryResult. destruct ai', q as [q|]; simpl; try done.
    + by destruct (_allowOtherResults (_aiTextSearchResult sr)).
    + by destruct (_allowOtherResults (_plainTextSearchResult sr)).
  - by destruct ai'.
Qed.

(** *** A non-null query *)

Lemma setQuery_Some σ h q :
  _allowOtherResults h = true →
  (setQuery σ h (Some q)).1 = σ ++ createdFor h q ∧
  folderMatches (setQuery σ h (Some q)).2 = seq (length σ) (length (createdFor h q)) ∧
  query (setQuery σ h (Some q)).2 = Some q.
Proof.
  intros Hallow. unfold createdFor. simpl. rewrite Hallow. simpl.
  rewrite length_seq.
  split; [by rewrite <- app_assoc|]. split; [|done].
  unfold folderMatches. simpl.
  rewrite !length_app, !length_imap. simpl.
  by rewrite seq_app.
Qed.

Lemma lookup_fresh (σ new σext : list FolderMatch) i :
  i < length new → (σ ++ new ++ σext) !! (length σ + i) = new !! i.
Proof.
  intros Hi. rewrite lookup_app_r by lia. rewrite lookup_app_l by lia.
  f_equal. lia.
Qed.

Lemma fresh_resources (σ new σext : list FolderMatch) :
  resourceAt (σ ++ new ++ σext) <$> seq (length σ) (length new) = (Some ∘ fm_resource) <$> new.
Proof.
  apply list_eq. intros i. rewrite !list_lookup_fmap.
  destruct (decide (i < length new)) as [Hi|Hi].
  - rewrite lookup_seq_lt by done. simpl. unfold resourceAt. rewrite lookup_fresh by done.
    by destruct (lookup_lt_is_Some_2 new i Hi) as [fm ->].
  - rewrite lookup_seq_ge by lia. by rewrite lookup_ge_None_2 by lia.
Qed.

Lemma createdFor_resources h q :
  (Some ∘ fm_resource) <$> createdFor h q = (Some ∘ Some <$> folderQueries q) ++ [Some None].
Proof.
  unfold createdFor. rewrite fmap_app. f_equal.
  apply list_eq. intros i. rewrite !list_lookup_fmap, list_lookup_imap.
  by destruct (folderQueries q !! i).
Qed.

Lemma createdFor_files h q fm : fm ∈ createdFor h q → fileMatches fm = [].
Proof.
  unfold createdFor. intros [Hin| ->%list_elem_of_singleton]%elem_of_app; [|done].
  apply list_elem_of_lookup in Hin as [i Hi]. rewrite list_lookup_imap in Hi.
  destruct (folderQueries q !! i); simpl in Hi; [|done]. by injection Hi as <-.
Qed.

Lemma fresh_files (σ new σext : list FolderMatch) l :
  (∀ fm, fm ∈ new → fileMatches fm = []) →
  l ∈ seq (length σ) (length new) → filesAt (σ ++ new ++ σext) l = [].
Proof.
  intros Hnew [Hge Hlt]%elem_of_seq. unfold filesAt.
  replace l with (length σ + (l - length σ)) by lia.
  rewrite lookup_fresh by lia.
  destruct (new !! (l - length σ)) as [fm|] eqn:Hfm; [|done].
  simpl. apply Hnew. by eapply list_elem_of_lookup_2.
Qed.

(** X13: after the query of the search result is set to a non-null
    query, each heading reports that query and has one new folder match
    for each folder query, in the order of the folder queries, followed by
    a new one for other files; all are empty, so [matches()] is empty. *)
Theorem setQuery_fresh_folders (ops : list op) sr (q : ITextQuery) (id : HeadingId) :
  run ops = Some sr →
  query (heading (setQueryResult sr (Some q)) id) = Some q ∧
  resourceAt (folders (setQueryResult sr (Some q)))
    <$> folderMatches (heading (setQueryResult sr (Some q)) id)
    = (Some ∘ Some <$> folderQueries q) ++ [Some None] ∧
  (∀ l, l ∈ folderMatches (heading (setQueryResult sr (Some q)) id) →
        length (folders sr) ≤ l ∧ filesAt (folders (setQueryResult sr (Some q))) l = []) ∧
  matchesOf (setQueryResult sr (Some q)) None = [].
Proof.
  intros Hrun. pose proof (run_fixed _ _ Hrun) as Hfixed.
  destruct (Hfixed PLAIN_TEXT_SEARCH__RESULT_ID) as [Hallowp _].
  destruct (Hfixed AI_TEXT_SEARCH_RESULT_ID) as [Hallowa _]. simpl in Hallowp, Hallowa.
  destruct (setQuery_Some (folders sr) (_plainTextSearchResult sr) q Hallowp)
    as (Hσp & Hfp & Hqp).
  set (σ1 := (setQuery (folders sr) (_plainTextSearchResult sr) (Some q)).1) in *.
  destruct (setQuery_Some σ1 (_aiTextSearchResult sr) q Hallowa) as (Hσa & Hfa & Hqa).
  assert (Hstore : folders (setQueryResult sr (Some q))
                   = folders sr ++ createdFor (_plainTextSearchResult sr) q
                       ++ createdFor (_aiTextSearchResult sr) q).
  { unfold setQueryResult. cbn [update folders fst snd _aiTextSearchResult]. fold σ1.
    rewrite Hσa, Hσp. by rewrite <- app_assoc. }
  assert (Hstore' : folders (setQueryResult sr (Some q))
                    = σ1 ++ createdFor (_aiTextSearchResult sr) q ++ []).
  { rewrite Hstore, Hσp. by rewrite app_nil_r, <- app_assoc. }
  assert (Hplain : _plainTextSearchResult (setQueryResult sr (Some q))
                   = (setQuery (folders sr) (_plainTextSearchResult sr) (Some q)).2) by done.
  assert (Hai : _aiTextSearchResult (setQueryResult sr (Some q))
                = (setQuery σ1 (_aiTextSearchResult sr) (Some q)).2) by done.
  assert (Heach : ∀ id',
    query (heading (setQueryResult sr (Some q)) id') = Some q ∧
    resourceAt (folders (setQueryResult sr (Some q)))
      <$> folderMatches (heading (setQueryResult sr (Some q)) id')
      = (Some ∘ Some <$> folderQueries q) ++ [Some None] ∧
    (∀ l, l ∈ folderMatches (heading (setQueryResult sr (Some q)) id') →
          length (folders sr) ≤ l ∧ filesAt (folders (setQueryResult sr (Some q))) l = [])).
  { intros [|]; cbn [heading].
    - rewrite Hplain, Hqp, Hfp, Hstore. split; [done|]. split.
      + by rewrite fresh_resources, createdFor_resources.
      + intros l Hl. split; [by apply elem_of_seq in Hl as [? _]|].
        apply fresh_files; [apply createdFor_files | done].
    - rewrite Hai, Hqa, Hfa, Hstore'. split; [done|]. split.
      + by rewrite fresh_resources, createdFor_resources.
      + intros l Hl. split.
        * apply elem_of_seq in Hl as [Hl _]. rewrite Hσp, length_app in Hl. lia.
        * apply fresh_files; [apply createdFor_files | done]. }
  destruct (Heach id) as (Hq & Hres & Hfiles). split; [done|]. split; [done|]. split; [done|].
  unfold matchesOf. rewrite !matches_nil; [done | |].
  - intros l Hl. by apply (Heach AI_TEXT_SEARCH_RESULT_ID).
  - intros l Hl. by apply (Heach PLAIN_TEXT_SEARCH__RESULT_ID).
Qed.

(** *** Folder matches keep their parent *)

Lemma keepsParents_refl σ : keepsParents σ σ.
Proof. by intros l p. Qed.

Lemma keepsParents_trans σ1 σ2 σ3 :
  keepsParents σ1 σ2 → keepsParents σ2 σ3 → keepsParents σ1 σ3.
Proof. intros H12 H23 l p Hp. by apply H23, H12. Qed.

Lemma keepsParents_app σ new : keepsParents σ (σ ++ new).
Proof.
  intros l p. unfold parentAt. destruct (σ !! l) as [fm|] eqn:Hfm; [|done].
  by rewrite (lookup_app_l_Some _ _ _ _ Hfm).
Qed.

Lemma keepsParents_eq σ σ' :
  (∀ l, fm_parent <$> σ' !! l = fm_parent <$> σ !! l) → keepsParents σ σ'.
Proof. intros Heq l p. unfold parentAt. by rewrite Heq. Qed.

Lemma keepsParents_alter f l σ :
  (∀ fm, fm_parent (f fm) = fm_parent fm) → keepsParents σ (alter f l σ).
Proof. intros Hf. apply keepsParents_eq. intros l'. by apply alter_keeps. Qed.

Lemma keepsParents_forEach f targets σ :
  (∀ fm, fm_parent (f fm) = fm_parent fm) → keepsParents σ (forEach f targets σ).
Proof. intros Hf. apply keepsParents_eq. intros l'. by apply forEach_keeps. Qed.

Lemma keepsParents_perFolder (method : list IFileMatch → FolderMatch → FolderMatch)
    h byFolder σ :
  (∀ ms fm, fm_parent (method ms fm) = fm_parent fm) →
  keepsParents σ (perFolder method h byFolder σ).
Proof. intros Hf. apply keepsParents_eq. intros l'. by apply perFolder_keeps. Qed.

Lemma keepsParents_runDisposePastResults h σ : keepsParents σ (runDisposePastResults h σ).
Proof.
  unfold runDisposePastResults.
  eapply keepsParents_trans; by apply keepsParents_forEach.
Qed.

Lemma keepsParents_clear σ h : keepsParents σ (clear σ h).1.
Proof.
  unfold clear, disposeMatches. simpl.
  eapply keepsParents_trans; by apply keepsParents_forEach.
Qed.

Lemma add_parents σ h allRaw searchInstanceID ai silent r :
  add σ h allRaw searchInstanceID ai silent = Some r → keepsParents σ r.1.
Proof.
  unfold add. destruct (groupFilesByFolder σ h allRaw) as [[byFolder other]|]; [|done].
  intros [= <-]. cbn [fst].
  set (σ1 := perFolder addFileMatch h byFolder σ).
  assert (H1 : keepsParents σ σ1) by by apply keepsParents_perFolder.
  eapply keepsParents_trans; [|apply keepsParents_runDisposePastResults].
  eapply keepsParents_trans; [exact H1|].
  destruct ai; [apply keepsParents_refl|].
  destruct (_otherFilesMatch h); [by apply keepsParents_alter | apply keepsParents_refl].
Qed.

Lemma remove_parents σ h ms ai r :
  remove σ h ms ai = Some r → keepsParents σ r.1.
Proof.
  unfold remove. destruct (groupFilesByFolder _ h _) as [[byFolder other]|]; [|done].
  intros [= <-]. cbn [fst].
  set (σ1 := forEach clearFolder (omap folderOf ms) σ).
  set (σ2 := perFolder removeFiles h byFolder σ1).
  assert (H1 : keepsParents σ σ1) by by apply keepsParents_forEach.
  assert (H2 : keepsParents σ1 σ2) by by apply keepsParents_perFolder.
  eapply keepsParents_trans; [exact H1|].
  eapply keepsParents_trans; [exact H2|].
  destruct other as [|first rest]; [apply keepsParents_refl|].
  destruct (getFolderMatch h (resource first)); [by apply keepsParents_alter | apply keepsParents_refl].
Qed.

Lemma setQuery_parents σ h q : keepsParents σ (setQuery σ h q).1.
Proof.
  destruct q as [q|]; simpl; [|apply keepsParents_refl].
  destruct (_allowOtherResults h); simpl.
  - eapply keepsParents_trans; apply keepsParents_app.
  - apply keepsParents_app.
Qed.

Lemma dispose_parents σ h : keepsParents σ (dispose σ h).1.
Proof.
  apply (keepsParents_trans _ (forEach disposeFolder (folderMatches h) σ));
    [by apply keepsParents_forEach|].
  apply (keepsParents_runDisposePastResults (disposeMatches σ h).2).
Qed.

Lemma headingStep_parents σ h (o : headingOp) r :
  headingStep σ h o = Some r → keepsParents σ r.1.
Proof.
  destruct o as [q|allRaw searchInstanceID ai silent|ms ai| | |uri range|c|b|]; simpl.
  - intros [= <-]. apply setQuery_parents.
  - apply add_parents.
  - apply remove_parents.
  - intros [= <-]. apply keepsParents_clear.
  - intros [= <-]. apply keepsParents_clear.
  - intros [= <-]. apply keepsParents_refl.
  - intros [= <-]. apply keepsParents_refl.
  - intros [= <-]. apply keepsParents_refl.
  - intros [= <-]. apply dispose_parents.
Qed.

(** *** A heading refers to its own folder matches *)

Lemma owns_mono σ σ' h h' :
  owns σ h → keepsParents σ σ' → _id h' = _id h →
  (∀ l, l ∈ held h' → l ∈ held h) → owns σ' h'.
Proof. intros Hown Hkeep Hid Hsub l Hl. rewrite Hid. by apply Hkeep, Hown, Hsub. Qed.

Lemma held_folderMatches h l : l ∈ folderMatches h → l ∈ held h.
Proof.
  intros [Hl|Hl]%folderMatches_elem; unfold held.
  - apply elem_of_app. by left.
  - rewrite Hl. apply elem_of_app. right. apply elem_of_app. left. by left.
Qed.

Lemma held_past h l : l ∈ disposePastResults h → l ∈ held h.
Proof. intros Hl. unfold held. rewrite !elem_of_app. auto. Qed.

Lemma held_getFolderMatch h uri l : getFolderMatch h uri = Some l → l ∈ held h.
Proof.
  unfold getFolderMatch, held.
  destruct (findSubstr (_folderMatchesMap h) uri) as [l'|] eqn:Hfind.
  - intros [= <-]. apply findSubstr_elem in Hfind as [k Hk].
    rewrite !elem_of_app. right. right. left.
    apply list_elem_of_fmap. by exists (k, l').
  - destruct (_allowOtherResults h); [|done]. intros ->.
    rewrite !elem_of_app. right. left. by left.
Qed.

Lemma setQuery_owns σ h q : owns σ h → owns (setQuery σ h q).1 (setQuery σ h q).2.
Proof.
  intros Hown. destruct q as [q|].
  2:{ simpl. apply (owns_mono σ σ h); [done | apply keepsParents_refl | done |].
      intros l. unfold held. simpl. rewrite !elem_of_app.
      intros [?|[?|Hl]]; auto.
      apply held_folderMatches in Hl. unfold held in Hl. by rewrite !elem_of_app in Hl. }
  pose proof (setQuery_parents σ h (Some q)) as Hkeep.
  simpl in *.
  set (roots := folderQueries q) in *.
  set (created := imap _ roots) in *.
  set (locs := seq (length σ) (length roots)) in *.
  set (map := foldl _ [] (zip roots locs)) in *.
  assert (Hlocs : ∀ σext l, l ∈ locs → parentAt ((σ ++ created) ++ σext) l = Some (_id h)).
  { intros σext l [Hge Hlt]%elem_of_seq. unfold parentAt.
    rewrite <- app_assoc. replace l with (length σ + (l - length σ)) by lia.
    rewrite lookup_fresh by (unfold created; rewrite length_imap; lia).
    unfold created. rewrite list_lookup_imap.
    destruct (lookup_lt_is_Some_2 roots (l - length σ)) as [r ->]; [lia|]. done. }
  assert (Hmap : ∀ l, l ∈ snd <$> map → l ∈ locs).
  { intros l ([k l'] & -> & Hkl)%list_elem_of_fmap.
    apply foldl_alist_set_elem in Hkl as [[]%elem_of_nil|Hkl].
    apply elem_of_lookup_zip_with in Hkl as (i & k' & l'' & [= <- <-] & Hk & Hl).
    by eapply list_elem_of_lookup_2. }
  assert (Hpast : ∀ σ', keepsParents σ σ' → ∀ l, l ∈ folderMatches h → parentAt σ' l = Some (_id h)).
  { intros σ' Hk l Hl. by apply Hk, Hown, held_folderMatches. }
  destruct (_allowOtherResults h) eqn:Hallow; simpl in *.
  - intros l. unfold held.
    cbn [_folderMatches _otherFilesMatch _folderMatchesMap disposePastResults option_list _id
         fst snd].
    rewrite !elem_of_app.
    intros [Hl|[Hl|[Hl|Hl]]].
    + by apply Hlocs.
    + apply list_elem_of_singleton in Hl as ->. unfold parentAt.
      rewrite lookup_app_r by lia. by rewrite Nat.sub_diag.
    + by apply Hlocs, Hmap.
    + by apply Hpast.
  - intros l. unfold held.
    cbn [_folderMatches _otherFilesMatch _folderMatchesMap disposePastResults option_list _id
         fst snd].
    rewrite !elem_of_app.
    intros [Hl|[Hl|[Hl|Hl]]].
    + rewrite <- (app_nil_r (σ ++ created)). by apply Hlocs.
    + apply Hkeep, Hown. unfold held. rewrite !elem_of_app. auto.
    + rewrite <- (app_nil_r (σ ++ created)). by apply Hlocs, Hmap.
    + by apply Hpast.
Qed.

Lemma clear_owns σ h : owns σ h → owns (clear σ h).1 (clear σ h).2.
Proof.
  intros Hown. apply (owns_mono σ _ h); [done | apply keepsParents_clear | done |].
  intros l Hl. by apply held_past.
Qed.

Lemma dispose_owns σ h : owns σ h → owns (dispose σ h).1 (dispose σ h).2.
Proof.
  intros Hown. apply (owns_mono σ _ h); [done | apply dispose_parents | done |].
  intros l. unfold held. simpl. rewrite !elem_of_app. intros [Hl|Hl]; auto.
Qed.

Lemma headingStep_owns σ h (o : headingOp) r :
  owns σ h → headingStep σ h o = Some r → owns r.1 r.2.
Proof.
  intros Hown Hstep.
  pose proof (headingStep_parents _ _ _ _ Hstep) as Hkeep.
  destruct o as [q|allRaw searchInstanceID ai silent|ms ai| | |uri range|c|b|]; simpl in Hstep.
  - injection Hstep as <-. by apply setQuery_owns.
  - destruct r as [σ' h']. apply add_store in Hstep as [-> _].
    by apply (owns_mono σ σ' h).
  - unfold remove in Hstep.
    destruct (groupFilesByFolder _ h _) as [[byFolder other]|]; [|done].
    simpl in Hstep. injection Hstep as <-. by apply (owns_mono σ _ h).
  - injection Hstep as <-. by apply clear_owns.
  - injection Hstep as <-. unfold hide.
    apply clear_owns. by apply (owns_mono σ σ h); [|apply keepsParents_refl|..].
  - injection Hstep as <-. by apply (owns_mono σ σ h).
  - injection Hstep as <-. by apply (owns_mono σ σ h).
  - injection Hstep as <-. by apply (owns_mono σ σ h).
  - injection Hstep as <-. by apply dispose_owns.
Qed.

(** *** The search result *)

Lemma update_sowns sr id (r : list FolderMatch * TextSearchHeading) :
  sowns sr → owns r.1 r.2 → keepsParents (folders sr) r.1 → sowns (update sr id r).
Proof.
  intros Hs Hown Hkeep id'.
  pose proof (Hs PLAIN_TEXT_SEARCH__RESULT_ID) as Hp.
  pose proof (Hs AI_TEXT_SEARCH_RESULT_ID) as Ha.
  destruct id, id'; simpl in *; try done.
  - by apply (owns_mono (folders sr) _ (_aiTextSearchResult sr)).
  - by apply (owns_mono (folders sr) _ (_plainTextSearchResult sr)).
Qed.

Lemma onHeading_sowns sr id (o : headingOp) r :
  sowns sr → headingStep (folders sr) (heading sr id) o = Some r → sowns (update sr id r).
Proof.
  intros Hs Hr. apply update_sowns; [done | |].
  - by eapply headingStep_owns.
  - by eapply headingStep_parents.
Qed.

Lemma unhide_sowns sr :
  sowns sr →
  sowns (mkResult (folders sr) (setHidden (_plainTextSearchResult sr) false)
           (setHidden (_aiTextSearchResult sr) false) (_onChange sr)).
Proof. intros Hs id. specialize (Hs id). by destruct id. Qed.

Lemma batchRemoveStep_sowns (acc : SearchResult * list RenderableMatch) element :
  sowns acc.1 → sowns (batchRemoveStep acc element).1.
Proof.
  destruct acc as [sr removed]. simpl. intros Hs.
  destruct (arrayContainsElementOrParent _ _ _); [done|].
  destruct element; simpl; try done.
  - by apply (onHeading_sowns sr id HHide).
  - by destruct (bool_decide _).
Qed.

Lemma replaceAll_owns σ h outcome :
  owns σ h →
  owns (replaceAll σ h outcome).1.1 (replaceAll σ h outcome).1.2 ∧
  keepsParents σ (replaceAll σ h outcome).1.1.
Proof.
  intros Hown. unfold replaceAll, replaceAllBegin, replaceAllSettle, setReplacingAllOf. simpl.
  set (σ1 := forEach (setReplacingAll true) (folderMatches h) σ).
  set (σ2 := forEach (setReplacingAll false) (folderMatches h) σ1).
  assert (Hkeep : keepsParents σ σ2).
  { apply (keepsParents_trans _ σ1); unfold σ1, σ2; by apply keepsParents_forEach. }
  assert (Hown2 : owns σ2 h) by by apply (owns_mono σ σ2 h).
  destruct outcome; simpl.
  - split; [by apply clear_owns|].
    eapply keepsParents_trans; [done | apply keepsParents_clear].
  - done.
Qed.

Lemma step_sowns sr (o : op) sr' : sowns sr → step sr o = Some sr' → sowns sr'.
Proof.
  intros Hs.
  destruct o as [l o|id o|q|allRaw searchInstanceID ai silent|ms ai| |elements|outcome|]; simpl.
  - intros [= <-]. intros id. specialize (Hs id).
    assert (Hkeep : keepsParents (folders sr) (alter (folderStep o) l (folders sr)))
      by (apply keepsParents_alter; by destruct o).
    destruct id; simpl in *; by eapply owns_mono.
  - destruct (headingStep _ _ o) as [r|] eqn:Hr; [|done]. intros [= <-].
    by eapply onHeading_sowns.
  - intros [= <-]. unfold setQueryResult.
    apply (onHeading_sowns _ AI_TEXT_SEARCH_RESULT_ID (HSetQuery q)); [|done].
    by apply (onHeading_sowns _ PLAIN_TEXT_SEARCH__RESULT_ID (HSetQuery q)).
  - unfold addResult. apply unhide_sowns in Hs.
    set (sr1 := mkResult _ _ _ _) in *.
    destruct ai.
    + destruct (add _ _ _ _ _ _) as [r|] eqn:Hr; [|done]. intros [= <-].
      by apply (onHeading_sowns sr1 AI_TEXT_SEARCH_RESULT_ID (HAdd allRaw searchInstanceID true silent)).
    + destruct (add _ _ _ _ _ _) as [r|] eqn:Hr; [|done]. intros [= <-].
      by apply (onHeading_sowns sr1 PLAIN_TEXT_SEARCH__RESULT_ID (HAdd allRaw searchInstanceID false silent)).
  - unfold removeResult.
    assert (∀ sr1, (if ai then update sr AI_TEXT_SEARCH_RESULT_ID
                          <$> remove (folders sr) (_aiTextSearchResult sr) ms ai
                    else Some sr) = Some sr1 → sowns sr1) as Hfirst.
    { intros sr1. destruct ai; [|by intros [= <-]].
      destruct (remove _ _ _ _) as [r|] eqn:Hr; [|done]. intros [= <-].
      by apply (onHeading_sowns sr AI_TEXT_SEARCH_RESULT_ID (HRemove ms true)). }
    destruct (if ai then _ else _) as [sr1|]; [|done]. specialize (Hfirst sr1 eq_refl).
    simpl. destruct (remove _ _ _ _) as [r|] eqn:Hr; [|done]. intros [= <-].
    by apply (onHeading_sowns sr1 PLAIN_TEXT_SEARCH__RESULT_ID (HRemove ms ai)).
  - intros [= <-]. unfold clearResult.
    apply (onHeading_sowns _ PLAIN_TEXT_SEARCH__RESULT_ID HClear); [|done].
    by apply (onHeading_sowns _ AI_TEXT_SEARCH_RESULT_ID HClear).
  - intros [= <-]. unfold batchRemove.
    assert (Hgen : ∀ acc, sowns acc.1 → sowns (foldl batchRemoveStep acc elements).1).
    { induction elements as [|e elements IH]; intros acc Hacc; [done|].
      cbn [foldl]. by apply IH, batchRemoveStep_sowns. }
    specialize (Hgen (withEmitter (pause (_onChange sr)) sr, [])).
    destruct (foldl _ _ _) as [sr2 removed]. simpl in *.
    intros id. specialize (Hgen (λ id, Hs id) id). by destruct id.
  - intros [= <-].
    destruct (replaceAll_owns (folders sr) (_plainTextSearchResult sr) outcome) as [Hown Hkeep];
      [apply (Hs PLAIN_TEXT_SEARCH__RESULT_ID)|].
    change (sowns (update sr PLAIN_TEXT_SEARCH__RESULT_ID
                     (replaceAll (folders sr) (_plainTextSearchResult sr) outcome).1)).
    by apply update_sowns.
  - intros [= <-]. unfold disposeResult.
    apply (onHeading_sowns _ PLAIN_TEXT_SEARCH__RESULT_ID HDispose); [|done].
    by apply (onHeading_sowns _ AI_TEXT_SEARCH_RESULT_ID HDispose).
Qed.

Lemma run_sowns (ops : list op) sr : run ops = Some sr → sowns sr.
Proof.
  unfold run. revert sr. induction ops as [|o ops IH] using rev_ind; intros sr.
  - intros [= <-]. intros [|] l; by intros []%elem_of_nil.
  - rewrite foldl_app. simpl.
    destruct (foldl _ _ ops) as [sr0|]; [|done]. simpl.
    intros Hstep. eapply step_sowns; [|done]. by apply IH.
Qed.

(** *** What [add] leaves alone *)

Lemma add_lookup_other σ h allRaw searchInstanceID ai silent r l :
  add σ h allRaw searchInstanceID ai silent = Some r → l ∉ held h → r.1 !! l = σ !! l.
Proof.
  unfold add. destruct (groupFilesByFolder σ h allRaw) as [[byFolder other]|]; [|done].
  intros [= <-] Hl. cbn [fst]. unfold runDisposePastResults.
  rewrite !forEach_lookup_notin by (intros Hin; by apply Hl, held_past).
  assert (Hper : perFolder addFileMatch h byFolder σ !! l = σ !! l).
  { apply perFolder_lookup_other. intros k first rest l' _ Hget ->.
    by apply Hl, (held_getFolderMatch h (resource first)). }
  destruct ai; [done|].
  destruct (_otherFilesMatch h) as [o|] eqn:Ho; [|done].
  rewrite list_lookup_alter_ne; [done|]. intros ->. apply Hl.
  unfold held. rewrite Ho, !elem_of_app. right. left. by left.
Qed.

Lemma matches_ext_in σ σ' h :
  (∀ l, l ∈ folderMatches h → filesAt σ' l = filesAt σ l) → matches σ' h = matches σ h.
Proof.
  intros Heq. unfold matches. f_equal. apply list_fmap_ext. intros i l Hl.
  apply Heq. by eapply list_elem_of_lookup_2.
Qed.

(** X17: [add] gives results to one heading only: the folder matches of
    the other heading and what they hold are the same afterwards. *)
Theorem add_leaves_other_heading (ops : list op) sr (allRaw : list IFileMatch)
    (searchInstanceID : string) (ai silent : bool) :
  run ops = Some sr →
  ∃ sr', addResult sr allRaw searchInstanceID ai silent = Some sr' ∧
         folderMatchesOf sr' (negb ai) = folderMatchesOf sr (negb ai) ∧
         (∀ l, l ∈ folderMatchesOf sr (negb ai) → folders sr' !! l = folders sr !! l) ∧
         matchesOf sr' (Some (negb ai)) = matchesOf sr (Some (negb ai)).
Proof.
  intros Hrun.
  pose proof (run_sowns _ _ Hrun) as Hs.
  pose proof (run_fixed _ _ Hrun) as Hfixed.
  destruct (addResult_spec sr allRaw searchInstanceID ai silent (run_sinv _ _ Hrun))
    as (sr' & Hadd & _).
  exists sr'. split; [done|].
  destruct (Hfixed PLAIN_TEXT_SEARCH__RESULT_ID) as [_ Hidp].
  destruct (Hfixed AI_TEXT_SEARCH_RESULT_ID) as [_ Hida]. simpl in Hidp, Hida.
  unfold addResult in Hadd. destruct ai; simpl in *.
  - destruct (add _ _ _ _ _ _) as [r|] eqn:Hr; [|done]. injection Hadd as <-. simpl.
    assert (Hsame : ∀ l, l ∈ folderMatches (_plainTextSearchResult sr) →
                         r.1 !! l = folders sr !! l).
    { intros l Hl. eapply add_lookup_other; [done|]. intros Hheld.
      pose proof (Hs AI_TEXT_SEARCH_RESULT_ID l Hheld) as H1.
      pose proof (Hs PLAIN_TEXT_SEARCH__RESULT_ID l (held_folderMatches _ _ Hl)) as H2.
      simpl in H1, H2. congruence. }
    split; [done|]. split; [done|].
    apply (matches_ext_in (folders sr) r.1 (_plainTextSearchResult sr)).
    intros l Hl. unfold filesAt. by rewrite Hsame.
  - destruct (add _ _ _ _ _ _) as [r|] eqn:Hr; [|done]. injection Hadd as <-. simpl.
    assert (Hsame : ∀ l, l ∈ folderMatches (_aiTextSearchResult sr) →
                         r.1 !! l = folders sr !! l).
    { intros l Hl. eapply add_lookup_other; [done|]. intros Hheld.
      pose proof (Hs PLAIN_TEXT_SEARCH__RESULT_ID l Hheld) as H1.
      pose proof (Hs AI_TEXT_SEARCH_RESULT_ID l (held_folderMatches _ _ Hl)) as H2.
      simpl in H1, H2. congruence. }
    split; [done|]. split; [done|].
    apply (matches_ext_in (folders sr) r.1 (_aiTextSearchResult sr)).
    intros l Hl. unfold filesAt. by rewrite Hsame.
Qed.

(** *** Concrete states *)

Lemma getFolderMatch_within_witness :
  run sampleOps = Some sampleResult ∧
  getFolderMatch (heading sampleResult PLAIN_TEXT_SEARCH__RESULT_ID) (resource appFile) = Some 0 ∧
  0 ∈ folderMatches (heading sampleResult PLAIN_TEXT_SEARCH__RESULT_ID) ∧
  0 < length (folders sampleResult) ∧
  ∀ r, resourceAt (folders sampleResult) 0 = Some (Some r) → isPrefix r (resource appFile) = true.
Proof.
  split; [reflexivity|]. split; [reflexivity|].
  apply (getFolderMatch_within sampleOps sampleResult PLAIN_TEXT_SEARCH__RESULT_ID
           (resource appFile) 0); reflexivity.
Defined.

Lemma setQuery_fresh_folders_witness :
  run sampleOps = Some sampleResult ∧
  query (heading (setQueryResult sampleResult (Some nextQuery)) AI_TEXT_SEARCH_RESULT_ID)
    = Some nextQuery ∧
  matchesOf (setQueryResult sampleResult (Some nextQuery)) None = [].
Proof.
  split; [reflexivity|].
  destruct (setQuery_fresh_folders sampleOps sampleResult nextQuery AI_TEXT_SEARCH_RESULT_ID
              eq_refl) as (Hq & _ & _ & Hm).
  exact (conj Hq Hm).
Defined.

Lemma null_query_then_add_wipes_witness :
  run sampleOps = Some sampleResult ∧
  ∃ sr', addResult (setQueryResult sampleResult None) [libFile] "search-5" false false = Some sr' ∧
         folderMatchesOf sr' false = folderMatchesOf sampleResult false ∧
         matchesOf sr' (Some false) = [].
Proof.
  split; [reflexivity|].
  exact (null_query_then_add_wipes sampleOps sampleResult [libFile] "search-5" false false
           eq_refl).
Defined.

Lemma batchRemove_hides_headings_witness :
  ElemHeading AI_TEXT_SEARCH_RESULT_ID
    ∈ [ElemFile 0 appFile; ElemHeading AI_TEXT_SEARCH_RESULT_ID] ∧
  hidden (heading (batchRemove sampleResult
                     [ElemFile 0 appFile; ElemHeading AI_TEXT_SEARCH_RESULT_ID])
            AI_TEXT_SEARCH_RESULT_ID) = true.
Proof.
  assert (Hin : ElemHeading AI_TEXT_SEARCH_RESULT_ID
                  ∈ [ElemFile 0 appFile; ElemHeading AI_TEXT_SEARCH_RESULT_ID])
    by (by repeat constructor).
  split; [exact Hin|].
  exact (proj1 (batchRemove_hides_headings sampleResult _ _ Hin)).
Defined.

Lemma add_leaves_other_heading_witness :
  run sampleOps = Some sampleResult ∧
  ∃ sr', addResult sampleResult [appFile] "search-6" true false = Some sr' ∧
         folderMatchesOf sr' false = folderMatchesOf sampleResult false ∧
         (∀ l, l ∈ folderMatchesOf sampleResult false →
               folders sr' !! l = folders sampleResult !! l) ∧
         matchesOf sr' (Some false) = matchesOf sampleResult (Some false).
Proof.
  split; [reflexivity|].
  exact (add_leaves_other_heading sampleOps sampleResult [appFile] "search-6" true false
           eq_refl).
Defined.

End SearchLaws.

(** ** Properties of the sticky and unsticky views *)

Module EditorGroupFacts.
Import EditorGroups.

Local Open Scope Z_scope.

Section Facts.

Context {EditorInput IMatchEditorOptions EditorsOrder : Type}.
Implicit Types (group : IReadonlyEditorGroup EditorInput IMatchEditorOptions EditorsOrder).

Lemma slice_prefix {A} (l : list A) (n : Z) :
  0 ≤ n ≤ Z.of_nat (length l) → slice l 0 n = take (Z.to_nat n) l.
Proof.
  intros Hn. unfold slice, sliceIndex. simpl.
  rewrite (proj2 (Z.ltb_ge n 0)) by lia.
  rewrite Z.min_l by lia. rewrite Z.min_l by lia.
  by rewrite Z.sub_0_r, drop_0.
Qed.

Lemma slice_suffix {A} (l : list A) (n : Z) :
  0 ≤ n ≤ Z.of_nat (length l) → slice l n (Z.of_nat (length l)) = drop (Z.to_nat n) l.
Proof.
  intros Hn. unfold slice, sliceIndex.
  rewrite (proj2 (Z.ltb_ge n 0)) by lia.
  rewrite (proj2 (Z.ltb_ge (Z.of_nat (length l)) 0)) by lia.
  rewrite Z.min_l by lia. rewrite Z.min_l by lia.
  apply take_ge. rewrite length_drop. lia.
Qed.

(** X20: for an editor input, the sticky and the unsticky view never both
    contain it, and one of them contains it exactly when the group does;
    for an untyped input [contains] throws in both views. *)
Theorem views_partition_contains group (candidate : Candidate EditorInput)
    (options : option IMatchEditorOptions) :
  match candidate with
  | Typed e =>
      ∃ sticky unsticky,
        view_contains (StickyEditorGroupModel group) candidate options = Some sticky ∧
        view_contains (UnstickyEditorGroupModel group) candidate options = Some unsticky ∧
        sticky && unsticky = false ∧
        sticky || unsticky = contains group e options
  | Untyped =>
      view_contains (StickyEditorGroupModel group) candidate options = None ∧
      view_contains (UnstickyEditorGroupModel group) candidate options = None
  end.
Proof.
  destruct candidate as [e|]; [|done]. simpl.
  eexists _, _. split; [done|]. split; [done|].
  destruct (contains group e options); simpl; [|done].
  unfold Z.geb.
  destruct (getIndexOfEditor group e ?= stickyCount group) eqn:Hcmp;
    unfold Z.ltb; rewrite Hcmp; done.
Qed.

(** X21: for a group whose [count] is the number of its editors and
    whose [stickyCount] lies between 0 and [count], the editors of the
    sticky view followed by those of the unsticky view are the editors of
    the group; each view's [count] is the number of its editors, the two
    counts add up to the group's, and a view is empty exactly when it has
    no editors. *)
Theorem views_split_editors group :
  consistent group →
  view_editors (StickyEditorGroupModel group) ++ view_editors (UnstickyEditorGroupModel group)
    = editors group ∧
  Z.of_nat (length (view_editors (StickyEditorGroupModel group)))
    = view_count (StickyEditorGroupModel group) ∧
  Z.of_nat (length (view_editors (UnstickyEditorGroupModel group)))
    = view_count (UnstickyEditorGroupModel group) ∧
  view_count (StickyEditorGroupModel group) + view_count (UnstickyEditorGroupModel group)
    = count group ∧
  (view_isEmpty (StickyEditorGroupModel group) = true
     ↔ view_editors (StickyEditorGroupModel group) = []) ∧
  (view_isEmpty (UnstickyEditorGroupModel group) = true
     ↔ view_editors (UnstickyEditorGroupModel group) = []).
Proof.
  intros [Hcount Hsticky]. simpl. rewrite Hcount in *.
  rewrite slice_prefix, slice_suffix by lia.
  assert (Hlt : length (take (Z.to_nat (stickyCount group)) (editors group))
                = Z.to_nat (stickyCount group)) by (rewrite length_take; lia).
  assert (Hld : length (drop (Z.to_nat (stickyCount group)) (editors group))
                = (length (editors group) - Z.to_nat (stickyCount group))%nat)
    by apply length_drop.
  split; [apply take_drop|]. split; [lia|]. split; [lia|]. split; [lia|]. split.
  - rewrite Z.eqb_eq. split.
    + intros ->. done.
    + intros Hnil. rewrite Hnil in Hlt. simpl in Hlt. lia.
  - rewrite Z.eqb_eq. split.
    + intros Heq. apply nil_length_inv. lia.
    + intros Hnil. rewrite Hnil in Hld. simpl in Hld. lia.
Qed.

(** X22: the sticky view finds an editor of the group at the index it
    reports for it.  The unsticky view adds the sticky count both when it
    reports an index and when it looks one up, so it looks its own index
    up two sticky counts further in the group, and finds the editor there
    only in a group without sticky editors. *)
Theorem unsticky_index_shift group (e : EditorInput) (options : option IMatchEditorOptions) :
  indexed group → contains group e options = true →
  view_getEditorByIndex (StickyEditorGroupModel group)
    (view_getIndexOfEditor (StickyEditorGroupModel group) e) = Some e ∧
  view_getEditorByIndex (UnstickyEditorGroupModel group)
    (view_getIndexOfEditor (UnstickyEditorGroupModel group) e)
    = getEditorByIndex group (getIndexOfEditor group e + 2 * stickyCount group) ∧
  (view_getEditorByIndex (UnstickyEditorGroupModel group)
     (view_getIndexOfEditor (UnstickyEditorGroupModel group) e) = Some e
   ↔ stickyCount group = 0).
Proof.
  intros [Hinj Hfind] He. pose proof (Hfind e options He) as Hat. simpl.
  split; [done|].
  assert (Hidx : getIndexOfEditor group e + stickyCount group + stickyCount group
                 = getIndexOfEditor group e + 2 * stickyCount group) by lia.
  rewrite Hidx. split; [done|]. split.
  - intros Hshift. pose proof (Hinj _ _ _ Hshift Hat). lia.
  - intros ->. by rewrite Z.mul_0_r, Z.add_0_r.
Qed.

End Facts.

Lemma sampleGroup_indexed (sticky : Z) : indexed (sampleGroup sticky).
Proof.
  split.
  - intros i j e. simpl. intros Hi Hj.
    destruct (i =? 0) eqn:Hi0; [|destruct (i =? 1) eqn:Hi1; [|destruct (i =? 2) eqn:Hi2]];
      try discriminate; injection Hi as <-;
      destruct (j =? 0) eqn:Hj0; try discriminate;
      destruct (j =? 1) eqn:Hj1; try discriminate;
      destruct (j =? 2) eqn:Hj2; try discriminate; lia.
  - intros e o. simpl. intros He%bool_decide_eq_true.
    repeat (apply elem_of_cons in He as [->|He]; [reflexivity|]).
    by apply elem_of_nil in He.
Qed.

Lemma views_split_editors_witness :
  consistent (sampleGroup 1) ∧
  view_editors (StickyEditorGroupModel (sampleGroup 1))
    ++ view_editors (UnstickyEditorGroupModel (sampleGroup 1))
    = ["a.ts"; "b.ts"; "c.ts"]%string.
Proof.
  assert (Hc : consistent (sampleGroup 1)) by (split; [reflexivity | simpl; lia]).
  split; [exact Hc|]. exact (proj1 (views_split_editors (sampleGroup 1) Hc)).
Defined.

Lemma unsticky_index_shift_witness :
  indexed (sampleGroup 1) ∧ contains (sampleGroup 1) "b.ts"%string None = true ∧
  view_getEditorByIndex (UnstickyEditorGroupModel (sampleGroup 1))
    (view_getIndexOfEditor (UnstickyEditorGroupModel (sampleGroup 1)) "b.ts"%string)
    = getEditorByIndex (sampleGroup 1) (getIndexOfEditor (sampleGroup 1) "b.ts"%string + 2 * 1).
Proof.
  split; [exact (sampleGroup_indexed 1)|]. split; [reflexivity|].
  exact (proj1 (proj2 (unsticky_index_shift (sampleGroup 1) "b.ts"%string None
                         (sampleGroup_indexed 1) eq_refl))).
Defined.

End EditorGroupFacts.

(** ** Properties of notebook sticky scroll *)

Module StickyScrollFacts.
Import StickyScroll.

Lemma OutlineEntry_ind (P : OutlineEntry → Prop) :
  (∀ i lv lb, P (mkEntry i lv lb None)) →
  (∀ i lv lb p, P p → P (mkEntry i lv lb (Some p))) →
  ∀ e, P e.
Proof.
  intros Hroot Hchild. fix IH 1. intros [i lv lb [p|]].
  - apply Hchild, IH.
  - apply Hroot.
Qed.

Lemma computeStickyHeight_count (entry : OutlineEntry) :
  computeStickyHeight entry = 22 * getParentCount entry.
Proof.
  induction entry as [i lv lb|i lv lb p IH] using OutlineEntry_ind; [done|].
  simpl. rewrite IH. lia.
Qed.

Lemma getParentCount_chain (entry : OutlineEntry) :
  getParentCount entry = length (chain (parent entry)).
Proof.
  induction entry as [i lv lb|i lv lb p IH] using OutlineEntry_ind; [done|].
  simpl. rewrite IH. by destruct p as [i' lv' lb' [p'|]].
Qed.

(** X23: [computeStickyHeight] is 22 for each parent of the entry: 22
    times what [getParentCount] counts for the line of the entry, which is
    the length of the chain of its parents. *)
Theorem computeStickyHeight_parents (entry : OutlineEntry) :
  computeStickyHeight entry = 22 * getParentCount entry ∧
  getParentCount entry = length (chain (parent entry)).
Proof. split; [apply computeStickyHeight_count | apply getParentCount_chain]. Qed.

(** *** [renderStickyLines] *)

Lemma chainFrom_depth e x : x ∈ chainFrom e → getParentCount x ≤ getParentCount e.
Proof.
  induction e as [i lv lb|i lv lb p IH] using OutlineEntry_ind; simpl.
  - by intros ->%list_elem_of_singleton.
  - intros [->|Hx]%elem_of_cons; [done|]. apply IH in Hx. lia.
Qed.

Lemma chainFrom_NoDup e : NoDup (chainFrom e).
Proof.
  induction e as [i lv lb|i lv lb p IH] using OutlineEntry_ind; simpl.
  - apply NoDup_singleton.
  - apply NoDup_cons. split; [|done].
    intros Hin%chainFrom_depth. simpl in Hin. lia.
Qed.

Lemma mapSet_fresh key value m :
  key ∉ m.*1 → mapSet key value m = m ++ [(key, value)].
Proof.
  induction m as [|[k v] m IH]; intros Hk; simpl; [done|].
  rewrite decide_False by (intros ->; apply Hk; by left).
  rewrite IH; [done|]. intros Hin. apply Hk. by right.
Qed.

Lemma collectFrom_spec e : ∀ newMap elementsToRender,
  (∀ x, x ∈ chainFrom e → x ∉ newMap.*1) →
  collectFrom e newMap elementsToRender =
    (newMap ++ ((λ x, (x, createStickyElement x)) <$> filter (λ x, isHeader x = true) (chainFrom e)),
     reverse (createStickyElement <$> filter (λ x, isHeader x = true) (chainFrom e))
       ++ elementsToRender).
Proof.
  induction e as [i lv lb|i lv lb p IH] using OutlineEntry_ind; intros newMap elems Hfresh.
  - cbn [collectFrom chainFrom parent level].
    destruct (lv =? 7) eqn:Hlv.
    + rewrite filter_cons_False by (unfold isHeader; simpl; by rewrite Hlv).
      by rewrite filter_nil, app_nil_r.
    + rewrite filter_cons_True by (unfold isHeader; simpl; by rewrite Hlv).
      rewrite filter_nil, mapSet_fresh by (apply Hfresh; by left). done.
  - pose proof (chainFrom_NoDup (mkEntry i lv lb (Some p))) as Hnd.
    cbn [collectFrom chainFrom parent level] in *.
    apply NoDup_cons in Hnd as [Hhead _].
    destruct (lv =? 7) eqn:Hlv.
    + rewrite filter_cons_False by (unfold isHeader; simpl; by rewrite Hlv).
      apply IH. intros x Hx. apply Hfresh. by right.
    + rewrite filter_cons_True by (unfold isHeader; simpl; by rewrite Hlv).
      rewrite mapSet_fresh by (apply Hfresh; by left).
      rewrite IH.
      * rewrite !fmap_cons, reverse_cons, <- !app_assoc. done.
      * intros x Hx.
        rewrite fmap_app, elem_of_app. intros [Hin|Hin%list_elem_of_singleton].
        -- revert Hin. apply Hfresh. by right.
        -- simpl in Hin. by subst x.
Qed.

Lemma appendLines_spec elementsToRender numLinesToRender : ∀ i containerElement,
  appendLines i elementsToRender numLinesToRender containerElement =
    containerElement
      ++ (element <$> take (Z.to_nat (numLinesToRender - Z.of_nat i)) elementsToRender).
Proof.
  induction elementsToRender as [|line rest IH]; intros i c; simpl.
  - by rewrite take_nil, app_nil_r.
  - destruct (Z.of_nat i >=? numLinesToRender)%Z eqn:Hi.
    + replace (Z.to_nat (numLinesToRender - Z.of_nat i)) with 0 by lia.
      by rewrite app_nil_r.
    + rewrite IH.
      replace (Z.to_nat (numLinesToRender - Z.of_nat i))
        with (S (Z.to_nat (numLinesToRender - Z.of_nat (S i)))) by lia.
      by rewrite <- app_assoc.
Qed.

(** The two loops of [renderStickyLines], one after the other. *)
Lemma renderStickyLines_loops (entry : option OutlineEntry) (containerElement : list Element)
    (numLinesToRender : Z) :
  renderStickyLines entry containerElement numLinesToRender [] =
    (appendLines 0
       (reverse (createStickyElement <$> filter (λ x, isHeader x = true) (chain entry)))
       numLinesToRender containerElement ++ [Shadow],
     (λ x, (x, createStickyElement x)) <$> filter (λ x, isHeader x = true) (chain entry)).
Proof.
  unfold renderStickyLines. destruct entry as [e|]; [|done]. simpl.
  rewrite collectFrom_spec by (intros x _ []%elem_of_nil).
  by rewrite app_nil_r.
Qed.

(** X24: [renderStickyLines], called with a new map, appends to the
    container the lines of the header entries on the chain from the entry
    to the root (level 7 entries have none), outermost first and at most
    [numLinesToRender] of them, then the shadow; the map it returns holds
    every header entry of the chain, the ones whose line was not appended
    included. *)
Theorem renderStickyLines_lines (entry : option OutlineEntry) (containerElement : list Element)
    (numLinesToRender : Z) :
  let headers := filter (λ x, isHeader x = true) (chain entry) in
  renderStickyLines entry containerElement numLinesToRender [] =
    (containerElement
       ++ (element ∘ createStickyElement <$> take (Z.to_nat numLinesToRender) (reverse headers))
       ++ [Shadow],
     (λ x, (x, createStickyElement x)) <$> headers).
Proof.
  simpl. rewrite renderStickyLines_loops, appendLines_spec, Z.sub_0_r.
  rewrite <- app_assoc. do 3 f_equal.
  by rewrite <- fmap_reverse, <- fmap_take, <- list_fmap_compose.
Qed.

(** X25: the height [getCurrentStickyHeight] reports for the map that
    [renderStickyLines] returns for the parent of an entry is at most
    [computeStickyHeight] of the entry, and equal to it when no entry on
    the chain has level 7; and at most [numLinesToRender] lines and the
    shadow are added to the container. *)
Theorem rendered_height_bound (entry : OutlineEntry) (containerElement : list Element)
    (numLinesToRender : Z) :
  let rendered := renderStickyLines (parent entry) containerElement numLinesToRender [] in
  getCurrentStickyHeight rendered.2 ≤ computeStickyHeight entry ∧
  (Forall (λ x, isHeader x = true) (chain (parent entry)) →
   getCurrentStickyHeight rendered.2 = computeStickyHeight entry) ∧
  length rendered.1 ≤ length containerElement + Z.to_nat numLinesToRender + 1.
Proof.
  intros rendered. unfold rendered. rewrite renderStickyLines_loops. cbn [fst snd].
  rewrite computeStickyHeight_count, getParentCount_chain.
  unfold getCurrentStickyHeight. rewrite length_fmap. split; [|split].
  - pose proof (length_filter (λ x, isHeader x = true) (chain (parent entry))). lia.
  - intros Hall.
    assert (filter (λ x, isHeader x = true) (chain (parent entry)) = chain (parent entry))
      as ->; [|lia].
    induction Hall as [|x xs Hx _ IH]; [done|]. by rewrite filter_cons_True, IH.
  - rewrite appendLines_spec, !length_app, length_fmap, length_take. simpl. lia.
Qed.

(** *** [getVisibleOutlineEntry] *)

Lemma at_Some (entries : list OutlineEntry) (i : Z) :
  (0 ≤ i < Z.of_nat (length entries))%Z → ∃ e, at_ entries i = Some e ∧ entries !! Z.to_nat i = Some e.
Proof.
  intros Hi. unfold at_. rewrite (proj2 (Z.ltb_ge i 0)) by lia.
  destruct (lookup_lt_is_Some_2 entries (Z.to_nat i)) as [e He]; [lia|]. eauto.
Qed.

Lemma bucketLoop_ascending (entries : list OutlineEntry) (visibleIndex : Z) :
  ascending entries →
  ∀ fuel left right bucket,
    (0 ≤ left)%Z → (right < Z.of_nat (length entries))%Z → (left ≤ right + 1)%Z →
    bucket = (left - 1)%Z →
    (right - left + 1 ≤ Z.of_nat fuel)%Z →
    (∀ i e, entries !! i = Some e → (Z.of_nat i < left)%Z → (index e < visibleIndex)%Z) →
    (∀ i e, entries !! i = Some e → (right < Z.of_nat i)%Z → (visibleIndex ≤ index e)%Z) →
    ∃ b, bucketLoop fuel entries visibleIndex left right bucket = Some b ∧
         (-1 ≤ b < Z.of_nat (length entries))%Z ∧
         ∀ i e, entries !! i = Some e → ((index e < visibleIndex)%Z ↔ (Z.of_nat i ≤ b)%Z).
Proof.
  intros Hasc.
  assert (Hexit : ∀ left right bucket,
    (0 ≤ left)%Z → (right < Z.of_nat (length entries))%Z → (left ≤ right + 1)%Z →
    bucket = (left - 1)%Z → (right < left)%Z →
    (∀ i e, entries !! i = Some e → (Z.of_nat i < left)%Z → (index e < visibleIndex)%Z) →
    (∀ i e, entries !! i = Some e → (right < Z.of_nat i)%Z → (visibleIndex ≤ index e)%Z) →
    (-1 ≤ bucket < Z.of_nat (length entries))%Z ∧
    ∀ i e, entries !! i = Some e → ((index e < visibleIndex)%Z ↔ (Z.of_nat i ≤ bucket)%Z)).
  { intros left right bucket Hl Hr Hlr -> Hcmp Hbelow Habove. split; [lia|].
    intros i e He. split.
    - intros Hlt. destruct (decide (Z.of_nat i ≤ left - 1)%Z); [done|].
      pose proof (Habove i e He). lia.
    - intros Hi. apply (Hbelow i e He). lia. }
  induction fuel as [|fuel IH]; intros left right bucket Hl Hr Hlr Hb Hfuel Hbelow Habove.
  - simpl. rewrite (proj2 (Z.leb_gt left right)) by lia.
    exists bucket. split; [done|]. apply (Hexit left right); auto with lia.
  - cbn [bucketLoop]. destruct (left <=? right)%Z eqn:Hcmp.
    2:{ apply Z.leb_gt in Hcmp. exists bucket. split; [done|]. by apply (Hexit left right). }
    apply Z.leb_le in Hcmp.
    set (mid := ((left + right) `div` 2)%Z).
    assert (Hmid : (left ≤ mid ≤ right)%Z).
    { unfold mid. split.
      - apply Z.div_le_lower_bound; lia.
      - apply Z.div_le_upper_bound; lia. }
    destruct (at_Some entries mid) as (e & Hat & Hmide); [lia|]. rewrite Hat.
    destruct (index e <? visibleIndex)%Z eqn:He.
    + apply Z.ltb_lt in He.
      apply IH; try lia.
      * intros i ei Hi Hlt.
        assert (index ei ≤ index e)%Z by (apply (Hasc i (Z.to_nat mid)); [lia | done | done]).
        lia.
      * done.
    + apply Z.ltb_ge in He.
      apply IH; try lia.
      * done.
      * intros i ei Hi Hgt.
        assert (index e ≤ index ei)%Z by (apply (Hasc (Z.to_nat mid) i); [lia | done | done]).
        lia.
Qed.

Section Outline.

Variable asFlatList : OutlineEntry → list OutlineEntry.

(** X26: for outline entries in ascending order of their index, the
    search of [getVisibleOutlineEntry] ends at the last entry whose index
    is below [visibleIndex] ([-1] when there is none): the entries up to
    that position are exactly those with a smaller index, and the result
    is looked up in the flat list of the entry at that position. *)
Theorem getVisibleOutlineEntry_bucket (visibleIndex : Z) (entries : list OutlineEntry) :
  ascending entries →
  ∃ bucket : Z,
    (-1 ≤ bucket < Z.of_nat (length entries))%Z ∧
    (∀ i e, entries !! i = Some e → ((index e < visibleIndex)%Z ↔ (Z.of_nat i ≤ bucket)%Z)) ∧
    getVisibleOutlineEntry asFlatList visibleIndex entries =
      Some (rootEntry ← at_ entries bucket;
            List.find (λ entry, (index entry =? visibleIndex)%Z) (asFlatList rootEntry)).
Proof.
  intros Hasc.
  destruct (bucketLoop_ascending entries visibleIndex Hasc (S (length entries)) 0
              (Z.of_nat (length entries) - 1) (-1)) as (b & Hb & Hrange & Hiff); try lia.
  - intros i e He. apply lookup_lt_Some in He. lia.
  - exists b. split; [done|]. split; [done|].
    unfold getVisibleOutlineEntry. rewrite Hb. simpl.
    destruct (b =? -1)%Z eqn:Hneg.
    + apply Z.eqb_eq in Hneg as ->. done.
    + apply Z.eqb_neq in Hneg. destruct (at_Some entries b) as (root & -> & _); [lia|]. done.
Qed.

Lemma bucketLoop_any (entries : list OutlineEntry) (visibleIndex : Z) :
  ∀ fuel left right bucket,
    (0 ≤ left)%Z → (right < Z.of_nat (length entries))%Z →
    (right - left + 1 ≤ Z.of_nat fuel)%Z →
    (bucket = -1 ∨ ∃ e, at_ entries bucket = Some e ∧ index e < visibleIndex)%Z →
    ∃ b, bucketLoop fuel entries visibleIndex left right bucket = Some b ∧
         (b = bucket ∨ ∃ e, at_ entries b = Some e ∧ index e < visibleIndex)%Z.
Proof.
  induction fuel as [|fuel IH]; intros left right bucket Hl Hr Hfuel Hbucket.
  - simpl. rewrite (proj2 (Z.leb_gt left right)) by lia. eauto.
  - cbn [bucketLoop]. destruct (left <=? right)%Z eqn:Hcmp; [|eauto].
    apply Z.leb_le in Hcmp.
    set (mid := ((left + right) `div` 2)%Z).
    assert (Hmid : (left ≤ mid ≤ right)%Z).
    { unfold mid. split.
      - apply Z.div_le_lower_bound; lia.
      - apply Z.div_le_upper_bound; lia. }
    destruct (at_Some entries mid) as (e & Hat & _); [lia|]. rewrite Hat.
    destruct (index e <? visibleIndex)%Z eqn:He.
    + apply Z.ltb_lt in He.
      destruct (IH (mid + 1)%Z right mid) as (b & Hb & Hcase); try lia; [eauto|].
      exists b. split; [done|]. right. destruct Hcase as [->|?]; eauto.
    + apply IH; try lia. done.
Qed.

(** X27: [getVisibleOutlineEntry] returns for every array of entries, in
    ascending order or not; an entry it returns has the index asked for
    and is in the flat list of an entry of the array whose index is
    smaller; when no entry of the array has a smaller index, it returns
    [undefined]. *)
Theorem getVisibleOutlineEntry_result (visibleIndex : Z) (entries : list OutlineEntry) :
  ∃ result,
    getVisibleOutlineEntry asFlatList visibleIndex entries = Some result ∧
    (∀ e, result = Some e →
       index e = visibleIndex ∧
       ∃ rootEntry, rootEntry ∈ entries ∧ (index rootEntry < visibleIndex)%Z ∧
                    e ∈ asFlatList rootEntry) ∧
    ((∀ rootEntry, rootEntry ∈ entries → (visibleIndex ≤ index rootEntry)%Z) → result = None).
Proof.
  destruct (bucketLoop_any entries visibleIndex (S (length entries)) 0
              (Z.of_nat (length entries) - 1) (-1)) as (b & Hb & Hcase); try lia; auto.
  unfold getVisibleOutlineEntry. rewrite Hb. simpl.
  assert (Hin : ∀ i e, at_ entries i = Some e → e ∈ entries).
  { intros i e. unfold at_. destruct (i <? 0)%Z; [done|]. apply list_elem_of_lookup_2. }
  destruct (b =? -1)%Z eqn:Hneg.
  - eexists. split; [done|]. split; [done | done].
  - apply Z.eqb_neq in Hneg. destruct Hcase as [?|(root & Hroot & Hlt)]; [done|].
    rewrite Hroot. simpl. eexists. split; [done|]. split.
    + intros e He. apply find_some in He as [He Hidx].
      apply Z.eqb_eq in Hidx. split; [done|].
      exists root. split; [by eapply Hin|]. split; [done|]. by apply list_elem_of_In.
    + intros Hall. apply Hin in Hroot. apply Hall in Hroot. lia.
Qed.

End Outline.

Lemma sample_ascending : ascending [h1; h1b].
Proof.
  intros [|[|i]] [|[|j]] ei ej Hij Hi Hj; simpl in *; simplify_eq; simpl; lia.
Qed.

Lemma getVisibleOutlineEntry_bucket_witness :
  ascending [h1; h1b] ∧
  ∃ bucket : Z,
    getVisibleOutlineEntry sampleFlatList 3 [h1; h1b] =
      Some (rootEntry ← at_ [h1; h1b] bucket;
            List.find (λ entry, (index entry =? 3)%Z) (sampleFlatList rootEntry)).
Proof.
  split; [exact sample_ascending|].
  destruct (getVisibleOutlineEntry_bucket sampleFlatList 3 [h1; h1b] sample_ascending)
    as (bucket & _ & _ & Hresult).
  exists bucket. exact Hresult.
Defined.

End StickyScrollFacts.
